(** * adapter-http-to-tcp: the connection pool and the command executor

    A shallow embedding of [src/adapter.js]: the class [TCPConnectionPool]
    ([getConnection], [closeAll]) and [HTTPToTCPAdapter.sendTCPCommand],
    run on an explicit model of the Node.js event loop (sockets with their
    listener lists, promises that settle once, timers with deadlines).

    JavaScript strings are sequences of UTF-16 code units, written here as
    [list N].  Sockets and commands live in two stores indexed by creation
    order, so that the aliasing of one socket object between the pool, the
    closures of a command and the runtime is kept. *)

From Stdlib Require Import ZArith NArith List String Ascii DecimalString Lia.
From stdpp Require Import base tactics option list.
Import ListNotations.

Abbreviation jsstring := (list N).

(** ** Strings *)

Module JS.

(** A string literal of ASCII characters as code units. *)
Definition js (s : string) : jsstring :=
  List.map N_of_ascii (list_ascii_of_string s).

Definition CR : N := 13.
Definition LF : N := 10.

(** The template literal of an integer, as in [`${port}`]. *)
Definition dec_of_Z (z : Z) : jsstring :=
  js (NilZero.string_of_int (Z.to_int z)).

(** WhiteSpace and LineTerminator code points of ECMAScript, the set that
    [String.prototype.trim] removes. *)
Definition is_ws (c : N) : bool :=
  ((c =? 9) || (c =? 10) || (c =? 11) || (c =? 12) || (c =? 13) || (c =? 32)
   || (c =? 160) || (c =? 5760) || ((8192 <=? c) && (c <=? 8202))
   || (c =? 8232) || (c =? 8233) || (c =? 8239) || (c =? 8287)
   || (c =? 12288) || (c =? 65279))%N.

Fixpoint trimStart (s : jsstring) : jsstring :=
  match s with
  | c :: r => if is_ws c then trimStart r else s
  | [] => []
  end.

Definition trimEnd (s : jsstring) : jsstring := rev (trimStart (rev s)).

(** [s.trim()] *)
Definition trim (s : jsstring) : jsstring := trimEnd (trimStart s).

Fixpoint startsWith (p s : jsstring) : bool :=
  match p, s with
  | [], _ => true
  | a :: p', b :: s' => (a =? b)%N && startsWith p' s'
  | _ :: _, [] => false
  end.

(** [s.includes(p)] *)
Fixpoint includes (s p : jsstring) : bool :=
  startsWith p s ||
  match s with
  | [] => false
  | _ :: s' => includes s' p
  end.

(** Truthiness of a possibly undefined string and of a possibly undefined
    number, and the [x || d] idiom built on them. *)
Definition truthy_str (x : option jsstring) : bool :=
  match x with
  | Some (_ :: _) => true
  | _ => false
  end.

Definition or_str (x : option jsstring) (d : jsstring) : jsstring :=
  match x with
  | Some (c :: r) => c :: r
  | _ => d
  end.

Definition or_num (x : option Z) (d : Z) : Z :=
  match x with
  | Some v => if (v =? 0)%Z then d else v
  | None => d
  end.

End JS.
Import JS.

(** ** The JavaScript [Map] of the pool

    A [Map] keeps its keys in insertion order; [set] on a present key
    replaces the value in place. *)

Module JSMap.

Section WithValue.
Context {V : Type}.

Fixpoint has (k : jsstring) (m : list (jsstring * V)) : bool :=
  match m with
  | [] => false
  | (k', _) :: m' => bool_decide (k' = k) || has k m'
  end.

Fixpoint get (k : jsstring) (m : list (jsstring * V)) : option V :=
  match m with
  | [] => None
  | (k', v) :: m' => if bool_decide (k' = k) then Some v else get k m'
  end.

Fixpoint set (k : jsstring) (v : V) (m : list (jsstring * V)) : list (jsstring * V) :=
  match m with
  | [] => [(k, v)]
  | (k', v') :: m' =>
      if bool_decide (k' = k) then (k', v) :: m' else (k', v') :: set k v m'
  end.

Fixpoint delete (k : jsstring) (m : list (jsstring * V)) : list (jsstring * V) :=
  match m with
  | [] => []
  | (k', v') :: m' =>
      if bool_decide (k' = k) then delete k m' else (k', v') :: delete k m'
  end.

Definition keys (m : list (jsstring * V)) : list jsstring := List.map fst m.
Definition values (m : list (jsstring * V)) : list V := List.map snd m.

End WithValue.

End JSMap.

(** ** Data model *)

(** The [options] argument of [sendTCPCommand]; a field that is absent is
    [None]. *)
Record options := mkOptions {
  o_timeout : option Z;
  o_encoding : option jsstring;
  o_delimiter : option jsstring
}.

Definition no_options : options := mkOptions None None None.

(** The error object passed by a socket to its ['error'] listeners. *)
Record jserror := mkError {
  e_message : jsstring;
  e_code : jsstring
}.

(** What the promise returned by [sendTCPCommand] settles with: the value
    given to [resolve], or one of the three [Error]s built for [reject]
    (lines 177, 204 and 230). *)
Inductive outcome :=
| Resolved (response : jsstring)
| RejTimeout (timeout : Z) (host : jsstring) (port : Z)
| RejTCP (message code : jsstring)
| RejConnect (host : jsstring) (port : Z) (message code : jsstring).

Inductive evname := EvData | EvError | EvClose.

(** The functions registered on sockets: [reject] and the close arrow
    function of [getConnection], [onData] and [onError] of the command
    numbered [cid]. *)
Inductive listener :=
| PoolReject
| PoolClose
| OnData (cid : nat)
| OnError (cid : nat).

#[global] Instance evname_eq_dec : EqDecision evname.
Proof. solve_decision. Defined.
#[global] Instance listener_eq_dec : EqDecision listener.
Proof. solve_decision. Defined.

Inductive pstate := Pending | Fulfilled | Rejected.

(** A socket made by [net.createConnection] in [getConnection].  [s_key] is
    the [key] captured by the closures of that call and [s_promise] the
    promise that call returns. *)
Record socket := mkSocket {
  s_key : jsstring;
  s_connecting : bool;
  s_destroyed : bool;
  s_closed : bool;
  s_promise : pstate;
  s_listeners : list (evname * listener);
  s_written : list (jsstring * jsstring)
}.

(** A timer handle returned by [setTimeout]. *)
Inductive timer :=
| Unset
| Armed (deadline : Z)
| Cleared
| Fired.

(** The closure of one call of [sendTCPCommand]: its constants, its three
    [let] variables, the anonymous timer of line 218, the promise it
    returned and the promise it is suspended on at [await], if any. *)
Record command := mkCommand {
  c_host : jsstring;
  c_port : Z;
  c_command : jsstring;
  c_timeout : Z;
  c_encoding : jsstring;
  c_delimiter : jsstring;
  c_socket : option nat;
  c_timeoutId : timer;
  c_graceId : timer;
  c_responseData : jsstring;
  c_promise : option outcome;
  c_awaiting : option nat
}.

Record state := mkState {
  now : Z;
  adapter_timeout : Z;
  connections : list (jsstring * nat);
  sockets : list socket;
  commands : list command
}.

(** [new HTTPToTCPAdapter(options)]: [this.timeout = options.timeout || 5000]. *)
Definition new_adapter (timeout : option Z) : state :=
  mkState 0 (or_num timeout 5000) [] [] [].

(** The adapter that [main] starts. *)
Definition init : state := new_adapter (Some 5000%Z).

(** ** Store updates *)

Definition set_now (t : Z) (st : state) : state :=
  mkState t (adapter_timeout st) (connections st) (sockets st) (commands st).

Definition set_connections (m : list (jsstring * nat)) (st : state) : state :=
  mkState (now st) (adapter_timeout st) m (sockets st) (commands st).

Definition set_sockets (l : list socket) (st : state) : state :=
  mkState (now st) (adapter_timeout st) (connections st) l (commands st).

Definition set_commands (l : list command) (st : state) : state :=
  mkState (now st) (adapter_timeout st) (connections st) (sockets st) l.

Definition upd_sock (sid : nat) (f : socket -> socket) (st : state) : state :=
  set_sockets (alter f sid (sockets st)) st.

Definition upd_cmd (cid : nat) (f : command -> command) (st : state) : state :=
  set_commands (alter f cid (commands st)) st.

(** *** Sockets *)

Definition set_listeners (l : list (evname * listener)) (s : socket) : socket :=
  mkSocket (s_key s) (s_connecting s) (s_destroyed s) (s_closed s)
    (s_promise s) l (s_written s).

Definition set_promise (p : pstate) (s : socket) : socket :=
  mkSocket (s_key s) (s_connecting s) (s_destroyed s) (s_closed s)
    p (s_listeners s) (s_written s).

(** The connect callback has run. *)
Definition sock_connected (s : socket) : socket :=
  mkSocket (s_key s) false (s_destroyed s) (s_closed s)
    (s_promise s) (s_listeners s) (s_written s).

(** [socket.destroy()], and the [destroyed] flag set by the runtime when
    the socket fails. *)
Definition sock_destroy (s : socket) : socket :=
  mkSocket (s_key s) (s_connecting s) true (s_closed s)
    (s_promise s) (s_listeners s) (s_written s).

(** The socket is closed: ['close'] is emitted once. *)
Definition sock_close (s : socket) : socket :=
  mkSocket (s_key s) (s_connecting s) true true
    (s_promise s) (s_listeners s) (s_written s).

(** [socket.on(ev, l)] *)
Definition sock_on (ev : evname) (l : listener) (s : socket) : socket :=
  set_listeners (s_listeners s ++ [(ev, l)]) s.

Fixpoint remove_first (x : evname * listener) (l : list (evname * listener))
  : list (evname * listener) :=
  match l with
  | [] => []
  | y :: l' => if bool_decide (y = x) then l' else y :: remove_first x l'
  end.

(** [socket.removeListener(ev, l)] removes the most recently added
    registration of [l] for [ev], if there is one. *)
Definition sock_removeListener (ev : evname) (l : listener) (s : socket) : socket :=
  set_listeners (rev (remove_first (ev, l) (rev (s_listeners s)))) s.

(** [socket.write(data, encoding)] *)
Definition sock_write (data encoding : jsstring) (s : socket) : socket :=
  mkSocket (s_key s) (s_connecting s) (s_destroyed s) (s_closed s)
    (s_promise s) (s_listeners s) (s_written s ++ [(data, encoding)]).

Definition listeners_for (ev : evname) (s : socket) : list listener :=
  List.map snd (List.filter (fun p => bool_decide (fst p = ev)) (s_listeners s)).

Definition sock_is_destroyed (sid : nat) (st : state) : bool :=
  match sockets st !! sid with
  | Some s => s_destroyed s
  | None => false
  end.

(** *** Commands *)

Definition set_socket (x : option nat) (c : command) : command :=
  mkCommand (c_host c) (c_port c) (c_command c) (c_timeout c) (c_encoding c)
    (c_delimiter c) x (c_timeoutId c) (c_graceId c) (c_responseData c)
    (c_promise c) (c_awaiting c).

Definition set_timeoutId (t : timer) (c : command) : command :=
  mkCommand (c_host c) (c_port c) (c_command c) (c_timeout c) (c_encoding c)
    (c_delimiter c) (c_socket c) t (c_graceId c) (c_responseData c)
    (c_promise c) (c_awaiting c).

Definition set_graceId (t : timer) (c : command) : command :=
  mkCommand (c_host c) (c_port c) (c_command c) (c_timeout c) (c_encoding c)
    (c_delimiter c) (c_socket c) (c_timeoutId c) t (c_responseData c)
    (c_promise c) (c_awaiting c).

Definition set_responseData (d : jsstring) (c : command) : command :=
  mkCommand (c_host c) (c_port c) (c_command c) (c_timeout c) (c_encoding c)
    (c_delimiter c) (c_socket c) (c_timeoutId c) (c_graceId c) d
    (c_promise c) (c_awaiting c).

Definition set_awaiting (a : option nat) (c : command) : command :=
  mkCommand (c_host c) (c_port c) (c_command c) (c_timeout c) (c_encoding c)
    (c_delimiter c) (c_socket c) (c_timeoutId c) (c_graceId c)
    (c_responseData c) (c_promise c) a.

(** [resolve(v)] and [reject(e)] of the promise of [sendTCPCommand]: a
    promise settles with the first of them and ignores the later ones. *)
Definition settle (o : outcome) (c : command) : command :=
  match c_promise c with
  | Some _ => c
  | None =>
      mkCommand (c_host c) (c_port c) (c_command c) (c_timeout c)
        (c_encoding c) (c_delimiter c) (c_socket c) (c_timeoutId c)
        (c_graceId c) (c_responseData c) (Some o) (c_awaiting c)
  end.

(** [clearTimeout(t)] *)
Definition clearTimeout (t : timer) : timer :=
  match t with
  | Armed _ => Cleared
  | _ => t
  end.

(** [clearTimeout(timeoutId)] on the variable of the command. *)
Definition clear_timeout (c : command) : command :=
  set_timeoutId (clearTimeout (c_timeoutId c)) c.

(** The delay [setTimeout] really uses: a delay below 1 or above 2^31-1 is
    taken as 1. *)
Definition timer_delay (d : Z) : Z :=
  if ((d <? 1) || (2147483647 <? d))%Z then 1%Z else d.

(** Apply [f] to the socket held by the variable [socket] of the command. *)
Definition on_socket (c : command) (f : socket -> socket) (st : state) : state :=
  match c_socket c with
  | Some sid => upd_sock sid f st
  | None => st
  end.

(** ** TCPConnectionPool *)

(** [`${host}:${port}`], the port being an integer. *)
Definition key_of (host : jsstring) (port : Z) : jsstring :=
  host ++ js ":" ++ dec_of_Z port.

(** What the promise of [getConnection] is when the call returns: already
    fulfilled with a pooled socket, or pending on the socket just made. *)
Inductive acquired :=
| Existing (sid : nat)
| Connecting (sid : nat).

(** Lines 22 to 32: the socket is made with its connect callback and the
    two listeners of the pool; it is not in the map yet.  This is what
    [net.createConnection] does for a port from 0 to 65535; for another
    port it throws, see [valid_port]. *)
Definition new_socket (key : jsstring) : socket :=
  mkSocket key true false false Pending
    [(EvError, PoolReject); (EvClose, PoolClose)] [].

Definition createConnection (key : jsstring) (st : state) : acquired * state :=
  (Connecting (length (sockets st)),
   set_sockets (sockets st ++ [new_socket key]) st).

(** [getConnection(host, port)] up to its return.  ([get] after a true
    [has] always finds the entry.) *)
Definition getConnection (host : jsstring) (port : Z) (st : state)
  : acquired * state :=
  let key := key_of host port in
  if JSMap.has key (connections st) then
    match JSMap.get key (connections st) with
    | Some sid =>
        if negb (sock_is_destroyed sid st) then (Existing sid, st)
        else
          createConnection key
            (set_connections (JSMap.delete key (connections st)) st)
    | None => createConnection key st
    end
  else createConnection key st.

(** [closeAll()] *)
Definition closeAll (st : state) : state :=
  set_connections []
    (fold_left
       (fun st sid =>
          if negb (sock_is_destroyed sid st) then upd_sock sid sock_destroy st
          else st)
       (JSMap.values (connections st)) st).

(** Introspection used by the routes [/connections] and [/health]. *)
Definition listKeys (st : state) : list jsstring := JSMap.keys (connections st).
Definition count (st : state) : nat := length (connections st).

(** ** sendTCPCommand *)

(** Lines 186 to 198.  The chunk is the text [data.toString(encoding)],
    which the model takes from the event: the bytes of the peer and their
    decoding are not modelled. *)
Definition onData (cid : nat) (chunk : jsstring) (st : state) : state :=
  match commands st !! cid with
  | None => st
  | Some c =>
      let data := c_responseData c ++ chunk in
      let st1 := upd_cmd cid (set_responseData data) st in
      if truthy_str (Some (c_delimiter c)) && includes data (c_delimiter c) then
        let st2 := upd_cmd cid clear_timeout st1 in
        let st3 := on_socket c (sock_removeListener EvData (OnData cid)) st2 in
        let st4 := on_socket c (sock_removeListener EvError (OnError cid)) st3 in
        upd_cmd cid (settle (Resolved (trim data))) st4
      else st1
  end.

(** Lines 200 to 205. *)
Definition onError (cid : nat) (error : jserror) (st : state) : state :=
  match commands st !! cid with
  | None => st
  | Some c =>
      let st1 := upd_cmd cid clear_timeout st in
      let st2 := on_socket c (sock_removeListener EvData (OnData cid)) st1 in
      upd_cmd cid (settle (RejTCP (e_message error) (e_code error))) st2
  end.

(** The callback of the timer of line 172. *)
Definition onTimeout (cid : nat) (st : state) : state :=
  match commands st !! cid with
  | None => st
  | Some c =>
      let st1 :=
        match c_socket c with
        | Some sid =>
            if negb (sock_is_destroyed sid st) then upd_sock sid sock_destroy st
            else st
        | None => st
        end in
      upd_cmd cid (settle (RejTimeout (c_timeout c) (c_host c) (c_port c))) st1
  end.

(** The callback of the timer of line 218. *)
Definition onGrace (cid : nat) (st : state) : state :=
  match commands st !! cid with
  | None => st
  | Some c =>
      let st1 := upd_cmd cid clear_timeout st in
      let st2 := on_socket c (sock_removeListener EvData (OnData cid)) st1 in
      let st3 := on_socket c (sock_removeListener EvError (OnError cid)) st2 in
      upd_cmd cid (settle (Resolved (c_responseData c))) st3
  end.

(** Lines 182 to 225: the rest of the [try] block once [await] has given
    the socket.  This is what the block does when [socket.write] takes the
    encoding; for an encoding that it does not know it throws, see
    [known_encoding]. *)
Definition afterConnection (cid sid : nat) (st : state) : state :=
  match commands st !! cid with
  | None => st
  | Some c =>
      let st1 := upd_cmd cid (set_socket (Some sid)) st in
      let st2 := upd_sock sid (sock_on EvData (OnData cid)) st1 in
      let st3 := upd_sock sid (sock_on EvError (OnError cid)) st2 in
      let commandToSend := c_command c ++ or_str (Some (c_delimiter c)) [] in
      let st4 := upd_sock sid (sock_write commandToSend (c_encoding c)) st3 in
      if negb (truthy_str (Some (c_delimiter c))) then
        upd_cmd cid
          (set_graceId
             (Armed (now st + timer_delay (Z.min (c_timeout c) 1000))))
          st4
      else st4
  end.

(** Lines 227 to 231: the [catch] block, entered when the awaited promise
    rejects. *)
Definition onCatch (cid : nat) (error : jserror) (st : state) : state :=
  match commands st !! cid with
  | None => st
  | Some c =>
      let st1 := upd_cmd cid clear_timeout st in
      upd_cmd cid
        (settle (RejConnect (c_host c) (c_port c) (e_message error) (e_code error)))
        st1
  end.

(** [sendTCPCommand(host, port, command, options)] up to the point where
    control returns to the event loop: the command gets the next number. *)
Definition sendTCPCommand (host : jsstring) (port : Z) (command : jsstring)
    (opts : options) (st : state) : nat * state :=
  let timeout := or_num (o_timeout opts) (adapter_timeout st) in
  let encoding := or_str (o_encoding opts) (js "utf8") in
  let delimiter := or_str (o_delimiter opts) [LF] in
  let cid := length (commands st) in
  let c :=
    mkCommand host port command timeout encoding delimiter None
      (Armed (now st + timer_delay timeout)) Unset [] None None in
  let st1 := set_commands (commands st ++ [c]) st in
  match getConnection host port st1 with
  | (Existing sid, st2) => (cid, afterConnection cid sid st2)
  | (Connecting sid, st2) => (cid, upd_cmd cid (set_awaiting (Some sid)) st2)
  end.

(** ** The event loop

    The runtime is modelled as far as the code relies on it: a socket
    calls the listeners registered for an event in the order of their
    registration; [destroy()], a failure and the close by the peer set
    [destroyed]; an ['error'] event is followed by a ['close'] event, which
    the loop delivers as an event of its own; a timer runs its callback
    once, when its deadline has come, unless it was cleared; the code that
    follows an [await] runs before the loop takes the next event. *)

(** The commands suspended at [await] on the promise of socket [sid]
    continue, in the order of their calls, once that promise settles. *)
Definition resume_one (sid : nat) (k : nat -> state -> state) (cid : nat)
    (st : state) : state :=
  match commands st !! cid with
  | Some c =>
      if bool_decide (c_awaiting c = Some sid) then
        k cid (upd_cmd cid (set_awaiting None) st)
      else st
  | None => st
  end.

Definition resume (sid : nat) (k : nat -> state -> state) (st : state) : state :=
  fold_left (fun st cid => resume_one sid k cid st)
    (seq 0 (length (commands st))) st.

Definition promise_of (sid : nat) (st : state) : option pstate :=
  s_promise <$> sockets st !! sid.

(** [resolve(socket)] and [reject(error)] of the promise of
    [getConnection]. *)
Definition resolve_acquire (sid : nat) (st : state) : state :=
  match promise_of sid st with
  | Some Pending =>
      resume sid (fun cid => afterConnection cid sid)
        (upd_sock sid (set_promise Fulfilled) st)
  | _ => st
  end.

Definition reject_acquire (sid : nat) (error : jserror) (st : state) : state :=
  match promise_of sid st with
  | Some Pending =>
      resume sid (fun cid => onCatch cid error)
        (upd_sock sid (set_promise Rejected) st)
  | _ => st
  end.

Inductive payload :=
| PData (chunk : jsstring)
| PError (error : jserror)
| PClose.

(** One listener of socket [sid] called with the argument of the event. *)
Definition call (sid : nat) (p : payload) (l : listener) (st : state) : state :=
  match l, p with
  | PoolReject, PError error => reject_acquire sid error st
  | PoolClose, _ =>
      match sockets st !! sid with
      | Some s => set_connections (JSMap.delete (s_key s) (connections st)) st
      | None => st
      end
  | OnData cid, PData chunk => onData cid chunk st
  | OnError cid, PError error => onError cid error st
  | _, _ => st
  end.

(** [socket.emit(ev, ...)]: the listeners registered when the event is
    emitted are called in the order of their registration. *)
Definition emit (sid : nat) (ev : evname) (p : payload) (st : state) : state :=
  match sockets st !! sid with
  | Some s => fold_left (fun st l => call sid p l st) (listeners_for ev s) st
  | None => st
  end.

(** What the event loop delivers: a call of [sendTCPCommand] by a route,
    the events of a socket, and [stop()].  A socket connects at most once
    and while it is neither connected nor destroyed; it gives data and
    fails only while it is not destroyed; it closes once. *)
Inductive event :=
| Call (host : jsstring) (port : Z) (command : jsstring) (opts : options)
| Connect (sid : nat)
| Data (sid : nat) (chunk : jsstring)
| Error (sid : nat) (error : jserror)
| Close (sid : nat)
| Stop.

Definition handle (e : event) (st : state) : state :=
  match e with
  | Call host port command opts => snd (sendTCPCommand host port command opts st)
  | Connect sid =>
      match sockets st !! sid with
      | Some s =>
          if s_connecting s && negb (s_destroyed s) then
            let st1 := upd_sock sid sock_connected st in
            let st2 := set_connections (JSMap.set (s_key s) sid (connections st1)) st1 in
            resolve_acquire sid st2
          else st
      | None => st
      end
  | Data sid chunk =>
      match sockets st !! sid with
      | Some s =>
          if negb (s_connecting s) && negb (s_destroyed s) then
            emit sid EvData (PData chunk) st
          else st
      | None => st
      end
  | Error sid error =>
      match sockets st !! sid with
      | Some s =>
          if negb (s_destroyed s) then
            emit sid EvError (PError error) (upd_sock sid sock_destroy st)
          else st
      | None => st
      end
  | Close sid =>
      match sockets st !! sid with
      | Some s =>
          if negb (s_closed s) then
            emit sid EvClose PClose (upd_sock sid sock_close st)
          else st
      | None => st
      end
  | Stop => closeAll st
  end.

(** *** Timers *)

Inductive tref :=
| TTimeout (cid : nat)
| TGrace (cid : nat).

Definition timer_of (r : tref) (st : state) : timer :=
  match r with
  | TTimeout cid => from_option c_timeoutId Unset (commands st !! cid)
  | TGrace cid => from_option c_graceId Unset (commands st !! cid)
  end.

(** A timer that is still armed fires: its callback runs. *)
Definition fire (r : tref) (st : state) : state :=
  match timer_of r st with
  | Armed d =>
      match r with
      | TTimeout cid => onTimeout cid (upd_cmd cid (set_timeoutId Fired) st)
      | TGrace cid => onGrace cid (upd_cmd cid (set_graceId Fired) st)
      end
  | _ => st
  end.

Definition armed_by (T : Z) (r : tref) (st : state) : list (Z * tref) :=
  match timer_of r st with
  | Armed d => if (d <=? T)%Z then [(d, r)] else []
  | _ => []
  end.

(** The armed timers whose deadline is at most [T]. *)
Definition due (T : Z) (st : state) : list (Z * tref) :=
  flat_map (fun cid => armed_by T (TTimeout cid) st ++ armed_by T (TGrace cid) st)
    (seq 0 (length (commands st))).

Fixpoint insert_by_deadline (x : Z * tref) (l : list (Z * tref)) : list (Z * tref) :=
  match l with
  | [] => [x]
  | y :: l' =>
      if (fst x <? fst y)%Z then x :: y :: l' else y :: insert_by_deadline x l'
  end.

Definition by_deadline (l : list (Z * tref)) : list (Z * tref) :=
  fold_left (fun acc x => insert_by_deadline x acc) l [].

(** Time passes until [T]: the clock moves and the timers due by then
    fire in the order of their deadlines. *)
Definition advance (T : Z) (st : state) : state :=
  let st1 := set_now (Z.max (now st) T) st in
  fold_left (fun st x => fire (snd x) st) (by_deadline (due (now st1) st1)) st1.

(** A trace is a list of events with the times at which the loop delivers
    them; the timers due by that time run first. *)
Fixpoint run (st : state) (tr : list (Z * event)) : state :=
  match tr with
  | [] => st
  | (t, e) :: tr' => run (handle e (advance t st)) tr'
  end.

Definition promise (cid : nat) (st : state) : option outcome :=
  commands st !! cid ≫= c_promise.

Definition written (sid : nat) (st : state) : list (jsstring * jsstring) :=
  from_option s_written [] (sockets st !! sid).

Definition listeners (sid : nat) (st : state) : list (evname * listener) :=
  from_option s_listeners [] (sockets st !! sid).

(** ** The test server

    The handler of the test server of [src/test-client.js]: what it writes
    back for the data it receives.  [isoTime] stands for
    [new Date().toISOString()]. *)
Definition test_server_response (isoTime data : jsstring) : jsstring :=
  let command := trim data in
  if bool_decide (command = js "GET_STATUS") then js "STATUS_OK" ++ [LF]
  else if bool_decide (command = js "HELLO_WORLD") then js "HELLO_RESPONSE" ++ [CR; LF]
  else if bool_decide (command = js "GET_TIME") then isoTime ++ [LF]
  else js "Wa: " ++ command ++ [LF].

(** The options of the third example of [src/test-client.js]. *)
Definition hello_options : options :=
  mkOptions (Some 3000%Z) (Some (js "utf8")) (Some [CR; LF]).

(** * Vocabulary of the properties *)

(** ** What no step undoes

    [evolves st st'] holds when [st'] comes after [st]: the clock has not
    gone back, every command is still there with the same constants, a
    settled promise has kept its outcome, no timeout timer has been armed
    anew, and every socket is still there with its key, and is destroyed,
    closed or connected if it was. *)

Record cmd_le (c c' : command) : Prop := mkCmdLe {
  le_host : c_host c' = c_host c;
  le_port : c_port c' = c_port c;
  le_command : c_command c' = c_command c;
  le_timeout : c_timeout c' = c_timeout c;
  le_encoding : c_encoding c' = c_encoding c;
  le_delimiter : c_delimiter c' = c_delimiter c;
  le_promise : forall o, c_promise c = Some o -> c_promise c' = Some o;
  le_timer : forall d, c_timeoutId c' = Armed d -> c_timeoutId c = Armed d
}.

Record sock_le (s s' : socket) : Prop := mkSockLe {
  le_key : s_key s' = s_key s;
  le_destroyed : s_destroyed s = true -> s_destroyed s' = true;
  le_closed : s_closed s = true -> s_closed s' = true;
  le_connected : s_connecting s = false -> s_connecting s' = false
}.

Record evolves (st st' : state) : Prop := mkEvolves {
  ev_now : (now st <= now st')%Z;
  ev_adapter : adapter_timeout st' = adapter_timeout st;
  ev_commands : forall j c, commands st !! j = Some c ->
                  exists c', commands st' !! j = Some c' /\ cmd_le c c';
  ev_sockets : forall i s, sockets st !! i = Some s ->
                  exists s', sockets st' !! i = Some s' /\ sock_le s s'
}.

(** The updates of one command and of one socket that undo nothing. *)
Definition cmd_mono (f : command -> command) : Prop := forall c, cmd_le c (f c).
Definition sock_mono (g : socket -> socket) : Prop := forall s, sock_le s (g s).

(** A predicate on states is [stable] when the four kinds of update that
    the handlers are made of keep it; every handler then keeps it.  A call
    of [sendTCPCommand] also adds a command, with its timer armed. *)
Record stable (P : state -> Prop) : Prop := mkStable {
  st_upd_cmd : forall cid f st, cmd_mono f -> P st -> P (upd_cmd cid f st);
  st_upd_sock : forall sid g st, sock_mono g -> P st -> P (upd_sock sid g st);
  st_connections : forall m st, P st -> P (set_connections m st);
  st_new_socket : forall s st, P st -> P (set_sockets (sockets st ++ [s]) st)
}.

Definition accepts_commands (P : state -> Prop) : Prop :=
  forall st c t,
    c_timeoutId c = Armed (now st + timer_delay t) ->
    P st -> P (set_commands (commands st ++ [c]) st).

(** ** Timers

    Between two events every armed timeout timer has its deadline in the
    future: [advance] has fired those that were due. *)
Definition timers_future (st : state) : Prop :=
  forall j c d,
    commands st !! j = Some c -> c_timeoutId c = Armed d -> (now st < d)%Z.

(** ** The calls that the runtime takes

    [net.createConnection] throws for a port that is not one of 0 to
    65535, and [socket.write] throws for an encoding that [Buffer] does
    not know; thrown in the [try] block of a call, the error goes to the
    [catch] block of line 227.  The model has no throw: it follows a
    call as the runtime does when it takes the port and the encoding.  A
    property that speaks of the socket that a call makes, or of what a
    command writes, is stated for those calls, with [valid_port] and
    [known_encoding]. *)
Definition valid_port (port : Z) : Prop := (0 <= port <= 65535)%Z.

(** ASCII lower case: the name of an encoding is taken in any case. *)
Definition lower (c : N) : N :=
  if ((65 <=? c) && (c <=? 90))%N then (c + 32)%N else c.

(** The names of the encodings that every release of the runtime knows. *)
Definition known_encoding (e : jsstring) : bool :=
  existsb (fun name => bool_decide (List.map lower e = name))
    [js "utf8"; js "utf-8"; js "hex"; js "base64"; js "ascii"; js "latin1";
     js "binary"; js "ucs2"; js "ucs-2"; js "utf16le"; js "utf-16le"].

(** A text without surrogate code units, which UTF-8 carries as it is: the
    bytes that [socket.write(text, 'utf8')] sends are decoded to [text]
    again by [toString('utf8')]. *)
Definition no_surrogate (s : jsstring) : Prop :=
  Forall (fun c => (c < 55296 \/ 57343 < c)%N) s.

(** ** The invariant of the adapter *)

(** The outcome is the rejection of the [catch] block of line 227. *)
Definition connect_failure (o : option outcome) : Prop :=
  exists h p m k, o = Some (RejConnect h p m k).

(** A command: its delimiter is not empty and so the timer of line 218 is
    never set; while its promise is pending its timeout timer is armed; a
    resolved promise holds the trimmed buffer as it was when the delimiter
    was found in it; the promise of a command whose encoding the runtime
    knows is rejected by the [catch] block only if no socket was obtained;
    the promise is rejected by the timeout timer with the timeout, host
    and port of the command. *)
Record cmd_ok (c : command) : Prop := mkCmdOk {
  ok_delimiter : c_delimiter c <> [];
  ok_grace : c_graceId c = Unset;
  ok_pending : c_promise c = None -> exists d, c_timeoutId c = Armed d;
  ok_resolved : forall r, c_promise c = Some (Resolved r) ->
    exists buf rest,
      c_responseData c = buf ++ rest /\
      includes buf (c_delimiter c) = true /\ r = trim buf;
  ok_timeout : forall t h p, c_promise c = Some (RejTimeout t h p) ->
    t = c_timeout c /\ h = c_host c /\ p = c_port c;
  ok_connect : connect_failure (c_promise c) ->
    known_encoding (c_encoding c) = true -> c_socket c = None;
  ok_awaiting : forall i, c_awaiting c = Some i ->
    c_socket c = None /\ ~ connect_failure (c_promise c)
}.

(** A socket: it is destroyed when it is closed, and the close listener of
    the pool stays registered. *)
Record sock_ok (s : socket) : Prop := mkSockOk {
  ok_closed : s_closed s = true -> s_destroyed s = true;
  ok_close_listener : In (EvClose, PoolClose) (s_listeners s)
}.

(** The adapter: the map has one entry per key, and an entry holds a socket
    made for that key and not closed; the socket that a command holds or
    awaits was made for the key of the command. *)
Record inv (st : state) : Prop := mkInv {
  inv_cmds : forall j c, commands st !! j = Some c -> cmd_ok c;
  inv_socks : forall i s, sockets st !! i = Some s -> sock_ok s;
  inv_keys : NoDup (listKeys st);
  inv_pool : forall k i, In (k, i) (connections st) ->
    exists s, sockets st !! i = Some s /\ s_key s = k /\ s_closed s = false;
  inv_link : forall j c i, commands st !! j = Some c ->
    c_socket c = Some i \/ c_awaiting c = Some i ->
    exists s, sockets st !! i = Some s /\ s_key s = key_of (c_host c) (c_port c)
}.

(** The updates of one socket that keep [sock_ok], the key and the closed
    flag. *)
Record sock_pres (g : socket -> socket) : Prop := mkSockPres {
  pres_ok : forall s, sock_ok s -> sock_ok (g s);
  pres_key : forall s, s_key (g s) = s_key s;
  pres_closed : forall s, s_closed (g s) = s_closed s
}.

(** The states that the adapter started by [main] can be in. *)
Definition reachable (st : state) : Prop := exists tr, st = run init tr.

(** ** Words of the claims *)

(** A socket that is connected and not destroyed while the map does not
    hold it: no later [getConnection] returns it and [closeAll] does not
    destroy it. *)
Definition orphaned (sid : nat) (st : state) : Prop :=
  exists s, sockets st !! sid = Some s /\
            s_connecting s = false /\ s_destroyed s = false /\
            ~ In sid (JSMap.values (connections st)).

(** The response as the spec words it: the accumulated buffer with the
    occurrence of the delimiter that completed it (the first one) cut out,
    then trimmed. *)
Fixpoint strip_first (p s : jsstring) : jsstring :=
  if startsWith p s then drop (length p) s
  else
    match s with
    | [] => []
    | c :: s' => c :: strip_first p s'
    end.

Definition spec_response (delimiter buffer : jsstring) : jsstring :=
  trim (strip_first delimiter buffer).

(** The command [cid], pending in some state with its timer armed for
    [d], is either as it was or rejected by that timer, its socket
    destroyed. *)
Definition timing_out (cid : nat) (c : command) (d : Z) (st : state) : Prop :=
  inv st /\
  exists c',
    commands st !! cid = Some c' /\
    c_timeout c' = c_timeout c /\ c_host c' = c_host c /\
    c_port c' = c_port c /\ c_socket c' = c_socket c /\
    ((c_promise c' = None /\ c_timeoutId c' = Armed d) \/
     (c_promise c' = Some (RejTimeout (c_timeout c) (c_host c) (c_port c)) /\
      c_timeoutId c' = Fired /\
      forall sid, c_socket c = Some sid -> sock_is_destroyed sid st = true)).

(** The socket [i] is there with [w] written to it and its connecting flag
    at [b]. *)
Definition socket_untouched (i : nat) (w : list (jsstring * jsstring))
    (b : bool) (st : state) : Prop :=
  exists s, sockets st !! i = Some s /\ s_written s = w /\ s_connecting s = b.

(** ** The entry of a key and the outcome of a command *)

(** An event that leaves the entry of the key [k], which holds the socket
    [sid], to that socket: the connect callback of another socket made
    for [k] takes the entry, and the close notification of another socket
    made for [k] deletes it. *)
Definition spares (k : jsstring) (sid : nat) (e : event) (st : state) : Prop :=
  match e with
  | Connect i | Close i =>
      i = sid \/ forall s, sockets st !! i = Some s -> s_key s <> k
  | _ => True
  end.

(** A trace all of whose events spare the entry of [k], each in the state
    in which the loop delivers it. *)
Fixpoint undisturbed (k : jsstring) (sid : nat) (st : state)
    (tr : list (Z * event)) : Prop :=
  match tr with
  | [] => True
  | (t, e) :: tr' =>
      spares k sid e (advance t st) /\
      undisturbed k sid (handle e (advance t st)) tr'
  end.

(** The event that each listener is registered for (lines 28, 29, 207 and
    208), and the sockets whose listeners are registered for it. *)
Definition listener_event (l : listener) : evname :=
  match l with
  | PoolReject | OnError _ => EvError
  | PoolClose => EvClose
  | OnData _ => EvData
  end.

Definition kinds (st : state) : Prop :=
  forall i s ev l,
    sockets st !! i = Some s -> In (ev, l) (s_listeners s) ->
    ev = listener_event l.




(** Every command made so far has an encoding that the runtime knows: its
    [onData] decodes the chunks that it is given. *)
Definition encodings_known (st : state) : Prop :=
  forall j c, commands st !! j = Some c -> known_encoding (c_encoding c) = true.

(** ** Words of the further properties *)

(** The command that a call of [sendTCPCommand] makes, as line 159 to 168
    and the timer of line 172 set it up. *)
Definition fresh_command (host : jsstring) (port : Z) (text : jsstring)
    (opts : options) (st : state) : command :=
  mkCommand host port text
    (or_num (o_timeout opts) (adapter_timeout st))
    (or_str (o_encoding opts) (js "utf8"))
    (or_str (o_delimiter opts) [LF]) None
    (Armed (now st + timer_delay (or_num (o_timeout opts) (adapter_timeout st))))
    Unset [] None None.

(** The promise of the command [cid] is not rejected with the timeout
    error. *)
Definition not_timed_out (cid : nat) (st : state) : Prop :=
  forall c t h p,
    commands st !! cid = Some c -> c_promise c <> Some (RejTimeout t h p).

(** No command has the timeout 0, and neither has the adapter. *)
Definition timeouts_nonzero (st : state) : Prop :=
  adapter_timeout st <> 0%Z /\
  forall cid c, commands st !! cid = Some c -> c_timeout c <> 0%Z.

(** A command that holds a socket and whose promise is pending has its two
    listeners registered on that socket. *)
Definition attached (st : state) : Prop :=
  forall cid c sid,
    commands st !! cid = Some c -> c_socket c = Some sid -> c_promise c = None ->
    exists s, sockets st !! sid = Some s /\
              In (EvData, OnData cid) (s_listeners s) /\
              In (EvError, OnError cid) (s_listeners s).

(** The updates of a command that leave its socket and do not make a
    settled promise pending, and the updates of a socket that take no
    listener away. *)
Definition keeps_pending (f : command -> command) : Prop :=
  forall c, c_socket (f c) = c_socket c /\
            (c_promise (f c) = None -> c_promise c = None).

Definition keeps_listeners (g : socket -> socket) : Prop :=
  forall s x, In x (s_listeners s) -> In x (s_listeners (g s)).

(** A socket as the pool made it: the error listener of the pool is the
    first of its listeners, and while the socket is connecting and not
    destroyed the promise of [getConnection] is pending. *)
Record sock_wired (s : socket) : Prop := mkSockWired {
  sw_first : head (s_listeners s) = Some (EvError, PoolReject);
  sw_pending : s_connecting s = true -> s_destroyed s = false ->
               s_promise s = Pending
}.

Definition sockets_wired (st : state) : Prop :=
  forall i s, sockets st !! i = Some s -> sock_wired s.

Definition keeps_wired (g : socket -> socket) : Prop :=
  forall s, sock_wired s -> sock_wired (g s).





Definition adds_no_listener (g : socket -> socket) : Prop :=
  forall s x, In x (s_listeners (g s)) -> In x (s_listeners s).

(** What an event of the socket [i] leaves as it was in [st0]: the socket
    that each command holds, the sockets other than [i], and the commands
    that neither hold nor await [i]. *)
Record apart_from (i : nat) (st0 st : state) : Prop := mkApart {
  ap_held : forall j, c_socket <$> commands st !! j = c_socket <$> commands st0 !! j;
  ap_sockets : forall k, k <> i -> sockets st !! k = sockets st0 !! k;
  ap_commands : forall cid c,
    commands st0 !! cid = Some c ->
    c_socket c <> Some i -> c_awaiting c <> Some i ->
    commands st !! cid = Some c
}.

(** A timeout timer that is armed belongs to a pending promise: the
    handlers that settle a promise clear the timer first, or run as its
    callback. *)
Definition armed_pending (st : state) : Prop :=
  forall j c d,
    commands st !! j = Some c -> c_timeoutId c = Armed d -> c_promise c = None.

Definition keeps_armed (f : command -> command) : Prop :=
  forall c d, c_timeoutId (f c) = Armed d ->
              c_timeoutId c = Armed d /\ c_promise (f c) = c_promise c.

(** * Properties *)

(** ** The map *)

Module JSMapFacts.
Import JSMap.

Section WithValue.
Context {V : Type}.
Implicit Types (m : list (jsstring * V)) (k : jsstring) (v : V).

Lemma has_get k m : has k m = true <-> exists v, get k m = Some v.
Proof.
  induction m as [|[k' v'] m IH]; simpl.
  - split; [discriminate | intros [v Hv]; discriminate].
  - case_bool_decide; simpl; [split; eauto | exact IH].
Qed.

Lemma has_keys k m : has k m = true <-> In k (keys m).
Proof.
  induction m as [|[k' v'] m IH]; simpl.
  - split; [discriminate | tauto].
  - case_bool_decide; simpl; [tauto | rewrite IH; tauto].
Qed.

Lemma get_In k v m : get k m = Some v -> In (k, v) m.
Proof.
  induction m as [|[k' v'] m IH]; simpl; [discriminate|].
  case_bool_decide; [intros [= ->]; subst; auto | auto].
Qed.


Lemma In_delete k k' v m : In (k', v) (delete k m) -> k' <> k /\ In (k', v) m.
Proof.
  induction m as [|[k1 v1] m IH]; simpl; [tauto|].
  case_bool_decide; simpl.
  - intros H1. destruct (IH H1); auto.
  - intros [[= -> ->] | H1]; [auto | destruct (IH H1); auto].
Qed.

Lemma keys_delete k k' m : In k' (keys (delete k m)) -> k' <> k /\ In k' (keys m).
Proof.
  unfold keys. intros ([k1 v1] & Hk & Hin)%in_map_iff. simpl in Hk. subst.
  apply In_delete in Hin as [Hne Hin]. split; [done|].
  apply (in_map fst _ _ Hin).
Qed.

Lemma not_In_keys_delete k m : ~ In k (keys (delete k m)).
Proof. intros [Hne _]%keys_delete. done. Qed.

Lemma delete_idem k m : delete k (delete k m) = delete k m.
Proof.
  induction m as [|[k1 v1] m IH]; simpl; [done|].
  case_bool_decide; simpl; [done|]. case_bool_decide; [done | by rewrite IH].
Qed.

Lemma NoDup_keys_delete k m : NoDup (keys m) -> NoDup (keys (delete k m)).
Proof.
  induction m as [|[k1 v1] m IH]; simpl; [done|].
  intros Hnd. apply NoDup_cons in Hnd as [Hnd Hnd2].
  case_bool_decide; simpl; [auto|].
  apply NoDup_cons_2; [|auto].
  intros Hin%list_elem_of_In. apply keys_delete in Hin as [_ Hin].
  apply Hnd, list_elem_of_In, Hin.
Qed.

Lemma In_set k v k' v' m :
  In (k', v') (set k v m) -> (k' = k /\ v' = v) \/ In (k', v') m.
Proof.
  induction m as [|[k1 v1] m IH]; simpl.
  - intros [[= -> ->] | []]; auto.
  - case_bool_decide; simpl.
    + intros [[= -> ->] | H1]; auto.
    + intros [[= -> ->] | H1]; [auto | destruct (IH H1); auto].
Qed.

Lemma keys_set k v k' m : In k' (keys (set k v m)) -> k' = k \/ In k' (keys m).
Proof.
  unfold keys. intros ([k1 v1] & Hk & Hin)%in_map_iff. simpl in Hk. subst.
  apply In_set in Hin as [[-> _] | Hin]; [auto | right].
  apply (in_map fst _ _ Hin).
Qed.

Lemma NoDup_keys_set k v m : NoDup (keys m) -> NoDup (keys (set k v m)).
Proof.
  induction m as [|[k1 v1] m IH]; simpl.
  - intros _. apply NoDup_singleton.
  - intros Hnd. apply NoDup_cons in Hnd as [Hnd Hnd2].
    case_bool_decide; simpl; apply NoDup_cons_2; auto.
    intros Hin%list_elem_of_In. apply keys_set in Hin as [-> | Hin]; [done|].
    apply Hnd, list_elem_of_In, Hin.
Qed.



End WithValue.

End JSMapFacts.

(** ** What no step undoes *)

Lemma cmd_le_refl c : cmd_le c c.
Proof. by split. Qed.

Lemma cmd_le_trans c1 c2 c3 : cmd_le c1 c2 -> cmd_le c2 c3 -> cmd_le c1 c3.
Proof.
  intros [] []. split; try congruence; auto.
Qed.

Lemma sock_le_refl s : sock_le s s.
Proof. by split. Qed.

Lemma sock_le_trans s1 s2 s3 : sock_le s1 s2 -> sock_le s2 s3 -> sock_le s1 s3.
Proof. intros [] []. split; try congruence; auto. Qed.

Lemma evolves_refl st : evolves st st.
Proof.
  split; [lia | done | |]; eauto using cmd_le_refl, sock_le_refl.
Qed.

Lemma evolves_trans st1 st2 st3 :
  evolves st1 st2 -> evolves st2 st3 -> evolves st1 st3.
Proof.
  intros [H1 H2 H3 H4] [K1 K2 K3 K4]. split; [lia | congruence | |].
  - intros j c Hc. destruct (H3 j c Hc) as (c2 & Hc2 & Hle).
    destruct (K3 j c2 Hc2) as (c3 & Hc3 & Hle3).
    eauto using cmd_le_trans.
  - intros i s Hs. destruct (H4 i s Hs) as (s2 & Hs2 & Hle).
    destruct (K4 i s2 Hs2) as (s3 & Hs3 & Hle3).
    eauto using sock_le_trans.
Qed.

Lemma cmd_mono_settle o : cmd_mono (settle o).
Proof.
  intros c. unfold settle. destruct (c_promise c) eqn:E; split; simpl; try done.
  congruence.
Qed.

Lemma cmd_mono_clear : cmd_mono clear_timeout.
Proof.
  intros c. split; simpl; try done.
  destruct (c_timeoutId c); simpl; congruence.
Qed.

Lemma cmd_mono_fired : cmd_mono (set_timeoutId Fired).
Proof. intros c. split; simpl; try done. Qed.

Lemma cmd_mono_grace t : cmd_mono (set_graceId t).
Proof. intros c. by split. Qed.

Lemma cmd_mono_data d : cmd_mono (set_responseData d).
Proof. intros c. by split. Qed.

Lemma cmd_mono_socket x : cmd_mono (set_socket x).
Proof. intros c. by split. Qed.

Lemma cmd_mono_awaiting x : cmd_mono (set_awaiting x).
Proof. intros c. by split. Qed.

Lemma sock_mono_on ev l : sock_mono (sock_on ev l).
Proof. intros s. by split. Qed.

Lemma sock_mono_remove ev l : sock_mono (sock_removeListener ev l).
Proof. intros s. by split. Qed.

Lemma sock_mono_write d e : sock_mono (sock_write d e).
Proof. intros s. by split. Qed.

Lemma sock_mono_destroy : sock_mono sock_destroy.
Proof. intros s. by split. Qed.

Lemma sock_mono_close : sock_mono sock_close.
Proof. intros s. by split. Qed.

Lemma sock_mono_connected : sock_mono sock_connected.
Proof. intros s. by split. Qed.

Lemma sock_mono_promise p : sock_mono (set_promise p).
Proof. intros s. by split. Qed.

Create HintDb mono discriminated.
#[local] Hint Resolve cmd_mono_settle cmd_mono_clear cmd_mono_fired
  cmd_mono_grace cmd_mono_data cmd_mono_socket cmd_mono_awaiting
  sock_mono_on sock_mono_remove sock_mono_write sock_mono_destroy
  sock_mono_close sock_mono_connected sock_mono_promise : mono.

(** *** Predicates kept by every handler *)

Lemma fold_left_keeps {A} (P : state -> Prop) (h : A -> state -> state) l st :
  (forall x st1, P st1 -> P (h x st1)) ->
  P st -> P (fold_left (fun st x => h x st) l st).
Proof.
  intros Hh. revert st. induction l as [|x l IH]; simpl; auto.
Qed.

Section Stable.
Variable P : state -> Prop.
Hypothesis HP : stable P.

Lemma stable_on_socket c g st : sock_mono g -> P st -> P (on_socket c g st).
Proof.
  intros Hg H. unfold on_socket. destruct (c_socket c); [|done].
  by apply HP.
Qed.

Ltac keep :=
  repeat first
    [ assumption
    | apply (st_upd_cmd P HP); [solve [auto with mono] |]
    | apply (st_upd_sock P HP); [solve [auto with mono] |]
    | apply stable_on_socket; [solve [auto with mono] |]
    | apply (st_connections P HP)
    | apply (st_new_socket P HP)
    | case_match ].

Lemma stable_onData cid chunk st : P st -> P (onData cid chunk st).
Proof. intros. unfold onData. keep. Qed.

Lemma stable_onError cid e st : P st -> P (onError cid e st).
Proof. intros. unfold onError. keep. Qed.

Lemma stable_onTimeout cid st : P st -> P (onTimeout cid st).
Proof. intros. unfold onTimeout. keep. Qed.

Lemma stable_onGrace cid st : P st -> P (onGrace cid st).
Proof. intros. unfold onGrace. keep. Qed.

Lemma stable_afterConnection cid sid st : P st -> P (afterConnection cid sid st).
Proof. intros. unfold afterConnection. keep. Qed.

Lemma stable_onCatch cid e st : P st -> P (onCatch cid e st).
Proof. intros. unfold onCatch. keep. Qed.

Lemma stable_getConnection host port st :
  P st -> P (snd (getConnection host port st)).
Proof.
  intros. unfold getConnection, createConnection.
  repeat case_match; cbn [snd]; by keep.
Qed.

Lemma stable_sendTCPCommand host port command opts st :
  accepts_commands P ->
  P st -> P (snd (sendTCPCommand host port command opts st)).
Proof.
  intros Hnew H. unfold sendTCPCommand.
  set (c := mkCommand _ _ _ _ _ _ _ _ _ _ _ _).
  pose proof (stable_getConnection host port
                (set_commands (commands st ++ [c]) st)) as Hg.
  destruct (getConnection _ _ _) as [[sid|sid] st2]; simpl in *.
  - apply stable_afterConnection, Hg. by eapply Hnew.
  - apply HP; [auto with mono|]. apply Hg. by eapply Hnew.
Qed.

Lemma stable_resume sid k st :
  (forall cid st1, P st1 -> P (k cid st1)) ->
  P st -> P (resume sid k st).
Proof.
  intros Hk H. unfold resume. apply fold_left_keeps; [|done].
  intros cid st1 H1. unfold resume_one. repeat case_match; auto.
  apply Hk. by keep.
Qed.

Lemma stable_call sid p l st : P st -> P (call sid p l st).
Proof.
  intros H. unfold call, reject_acquire.
  repeat case_match; auto using stable_onData, stable_onError; try by keep.
  apply stable_resume; [auto using stable_onCatch | by keep].
Qed.

Lemma stable_emit sid ev p st : P st -> P (emit sid ev p st).
Proof.
  intros H. unfold emit. case_match; [|done].
  apply fold_left_keeps; auto using stable_call.
Qed.

Lemma stable_closeAll st : P st -> P (closeAll st).
Proof.
  intros H. unfold closeAll. apply HP.
  apply fold_left_keeps; [|done]. intros. by keep.
Qed.

Lemma stable_handle e st : accepts_commands P -> P st -> P (handle e st).
Proof.
  intros Hnew H. destruct e; simpl.
  - by apply stable_sendTCPCommand.
  - repeat case_match; [|done..]. unfold resolve_acquire.
    repeat case_match; try by keep.
    apply stable_resume; [auto using stable_afterConnection | by keep].
  - repeat case_match; [|done..]. by apply stable_emit.
  - repeat case_match; [|done..]. apply stable_emit. by keep.
  - repeat case_match; [|done..]. apply stable_emit. by keep.
  - by apply stable_closeAll.
Qed.

Lemma stable_fire r st : P st -> P (fire r st).
Proof.
  intros H. unfold fire. repeat case_match; auto.
  - apply stable_onTimeout. by keep.
  - apply stable_onGrace. by keep.
Qed.

Lemma stable_fire_all (l : list (Z * tref)) st :
  P st -> P (fold_left (fun st x => fire (snd x) st) l st).
Proof.
  intros H. apply (fold_left_keeps P (fun x => fire (snd x))); [|done].
  auto using stable_fire.
Qed.

End Stable.

(** [evolves st0] is such a predicate. *)
Lemma stable_evolves st0 : stable (evolves st0).
Proof.
  split.
  - intros cid f st Hf H. eapply evolves_trans; [exact H|].
    split; simpl; [lia | done | | eauto using sock_le_refl].
    intros j c Hc. rewrite list_lookup_alter. case_decide; subst.
    + rewrite Hc. simpl. eauto.
    + eauto using cmd_le_refl.
  - intros sid g st Hg H. eapply evolves_trans; [exact H|].
    split; simpl; [lia | done | eauto using cmd_le_refl |].
    intros j c Hc. rewrite list_lookup_alter. case_decide; subst.
    + rewrite Hc. simpl. eauto.
    + eauto using sock_le_refl.
  - intros m st H. eapply evolves_trans; [exact H|].
    split; simpl; [lia | done | |]; eauto using cmd_le_refl, sock_le_refl.
  - intros s st H. eapply evolves_trans; [exact H|].
    split; simpl; [lia | done | eauto using cmd_le_refl |].
    intros j c1 Hc. exists c1. split; [|apply sock_le_refl].
    by apply lookup_app_l_Some.
Qed.

Lemma evolves_accepts st0 : accepts_commands (evolves st0).
Proof.
  intros st c t _ H. eapply evolves_trans; [exact H|].
  split; simpl; [lia | done | | eauto using sock_le_refl].
  intros j c1 Hc. exists c1. split; [|apply cmd_le_refl].
  by apply lookup_app_l_Some.
Qed.

Lemma evolves_handle e st : evolves st (handle e st).
Proof.
  apply stable_handle;
    auto using stable_evolves, evolves_accepts, evolves_refl.
Qed.

Lemma evolves_fire r st : evolves st (fire r st).
Proof. apply stable_fire; auto using stable_evolves, evolves_refl. Qed.

Lemma evolves_advance T st : evolves st (advance T st).
Proof.
  unfold advance. apply stable_fire_all; [apply stable_evolves|].
  split; simpl; [lia | done | |]; eauto using cmd_le_refl, sock_le_refl.
Qed.

Lemma evolves_run tr st : evolves st (run st tr).
Proof.
  revert st. induction tr as [|[t e] tr IH]; simpl; [apply evolves_refl|].
  intros st. eapply evolves_trans; [apply evolves_advance|].
  eapply evolves_trans; [apply evolves_handle | apply IH].
Qed.

(** The clock moves only in [advance]. *)
Lemma stable_clock t : stable (fun st => now st = t).
Proof. by split. Qed.

Lemma now_handle e st : now (handle e st) = now st.
Proof.
  apply (stable_handle (fun st' => now st' = now st));
    [apply stable_clock | | done].
  by intros ? ? ? ? ?.
Qed.

Lemma now_fire r st : now (fire r st) = now st.
Proof. by apply (stable_fire (fun st' => now st' = now st)); [apply stable_clock|]. Qed.

Lemma now_advance T st : now (advance T st) = Z.max (now st) T.
Proof.
  unfold advance.
  by apply (stable_fire_all (fun st' => now st' = Z.max (now st) T));
    [apply stable_clock|].
Qed.

(** ** Timers *)

Lemma timer_delay_pos d : (1 <= timer_delay d)%Z.
Proof. unfold timer_delay. case_match; lia. Qed.

Lemma timer_delay_id d : (1 <= d <= 2147483647)%Z -> timer_delay d = d.
Proof.
  intros Hd. unfold timer_delay.
  destruct (d <? 1)%Z eqn:E1; [apply Z.ltb_lt in E1; lia|].
  destruct (2147483647 <? d)%Z eqn:E2; [apply Z.ltb_lt in E2; lia|]. done.
Qed.

Lemma stable_timers_future : stable timers_future.
Proof.
  split; try done.
  intros cid f st Hf H j c d. simpl. rewrite list_lookup_alter.
  case_decide; subst; [|apply H].
  destruct (commands st !! j) as [c0|] eqn:E; simpl; [|done].
  intros [= <-] Hd. apply (H j c0 d E). by apply (Hf c0).
Qed.

Lemma timers_future_accepts : accepts_commands timers_future.
Proof.
  intros st c t Hc H j c1 d. simpl. intros Hl Hd.
  apply lookup_app_Some in Hl as [Hl | [_ Hl]]; [by apply (H j c1 d)|].
  apply list_lookup_singleton_Some in Hl as [_ <-].
  rewrite Hc in Hd. injection Hd as <-. pose proof (timer_delay_pos t). lia.
Qed.

Lemma timers_future_handle e st : timers_future st -> timers_future (handle e st).
Proof.
  apply stable_handle; auto using stable_timers_future, timers_future_accepts.
Qed.

Lemma In_insert_by_deadline x y l :
  In x (insert_by_deadline y l) <-> x = y \/ In x l.
Proof.
  induction l as [|z l IH]; simpl; [intuition congruence|].
  case_match; simpl; rewrite ?IH; intuition congruence.
Qed.

Lemma In_by_deadline x l : In x (by_deadline l) <-> In x l.
Proof.
  unfold by_deadline.
  assert (forall acc, In x (fold_left (fun acc x => insert_by_deadline x acc) l acc)
                      <-> In x l \/ In x acc) as H.
  { induction l as [|y l IH]; intros acc; simpl; [tauto|].
    rewrite IH, In_insert_by_deadline. intuition congruence. }
  rewrite H. simpl. tauto.
Qed.

Lemma In_due T st j c d :
  commands st !! j = Some c -> c_timeoutId c = Armed d -> (d <= T)%Z ->
  In (d, TTimeout j) (due T st).
Proof.
  intros Hc Hd HT. unfold due. apply in_flat_map. exists j. split.
  - apply in_seq. apply lookup_lt_Some in Hc. lia.
  - apply in_or_app. left. unfold armed_by. simpl. rewrite Hc. simpl.
    rewrite Hd. apply Z.leb_le in HT. rewrite HT. by left.
Qed.

(** Once it has fired, a timer is not armed. *)
Lemma fire_timeout_not_armed j st c d :
  commands (fire (TTimeout j) st) !! j = Some c -> c_timeoutId c <> Armed d.
Proof.
  unfold fire. simpl.
  destruct (commands st !! j) as [c0|] eqn:E; simpl.
  - destruct (c_timeoutId c0) eqn:Et; try (rewrite E; intros [= <-]; congruence).
    intros Hc Hd.
    pose proof (stable_onTimeout _ (stable_evolves _) j _
                  (evolves_refl (upd_cmd j (set_timeoutId Fired) st))) as Hev.
    destruct (ev_commands _ _ Hev j (set_timeoutId Fired c0)) as (c' & Hc' & Hle).
    { simpl. rewrite list_lookup_alter_eq, E. done. }
    rewrite Hc in Hc'. injection Hc' as <-.
    apply (le_timer _ _ Hle) in Hd. simpl in Hd. done.
  - rewrite E. done.
Qed.

Lemma fire_all_not_armed (l : list (Z * tref)) x j st c0 c d :
  In x l -> snd x = TTimeout j ->
  commands st !! j = Some c0 ->
  commands (fold_left (fun st x => fire (snd x) st) l st) !! j = Some c ->
  c_timeoutId c <> Armed d.
Proof.
  intros Hin Hx Hc0. apply in_split in Hin as (l1 & l2 & ->).
  rewrite fold_left_app. simpl. rewrite Hx.
  set (sta := fold_left _ l1 st). intros Hc Hd.
  assert (evolves st (fire (TTimeout j) sta)) as Hev0.
  { apply stable_fire; [apply stable_evolves|].
    apply stable_fire_all; [apply stable_evolves | apply evolves_refl]. }
  destruct (ev_commands _ _ Hev0 j c0 Hc0) as (cb & Eb & _).
  pose proof (stable_fire_all _ (stable_evolves _) l2 _
                (evolves_refl (fire (TTimeout j) sta))) as Hev.
  destruct (ev_commands _ _ Hev j cb Eb) as (c' & Hc' & Hle).
  rewrite Hc in Hc'. injection Hc' as <-.
  apply (le_timer _ _ Hle) in Hd.
  by apply (fire_timeout_not_armed j sta cb d).
Qed.

Lemma timers_future_advance T st : timers_future (advance T st).
Proof.
  intros j c d Hc Hd. rewrite now_advance.
  unfold advance in Hc.
  set (st1 := set_now (Z.max (now st) T) st) in *.
  assert (evolves st1 (fold_left (fun st x => fire (snd x) st)
                         (by_deadline (due (now st1) st1)) st1)) as Hev.
  { apply stable_fire_all; [apply stable_evolves | apply evolves_refl]. }
  destruct (commands st1 !! j) as [c1|] eqn:E1.
  - destruct (ev_commands _ _ Hev j c1 E1) as (c' & Hc' & Hle).
    rewrite Hc in Hc'. injection Hc' as <-.
    pose proof (le_timer _ _ Hle d Hd) as Hd1.
    destruct (Z.le_gt_cases d (now st1)) as [Hle1 | Hgt]; [|simpl in Hgt; lia].
    exfalso.
    eapply (fire_all_not_armed _ (d, TTimeout j) j st1 c1 c d); eauto.
    apply In_by_deadline. by apply (In_due _ _ _ c1).
  - (* no timer callback makes a command *)
    exfalso. clear Hev.
    assert (stable (fun st2 => commands st2 !! j = None)) as Hstable.
    { split; try done.
      intros cid f st3 _. simpl. rewrite list_lookup_alter.
      case_decide; subst; [|done]. by intros ->. }
    rewrite (stable_fire_all _ Hstable _ st1 E1) in Hc. done.
Qed.

Lemma timers_future_run tr st : timers_future st -> timers_future (run st tr).
Proof.
  revert st. induction tr as [|[t e] tr IH]; simpl; [done|].
  intros st H. apply IH, timers_future_handle, timers_future_advance.
Qed.

(** ** The invariant of the adapter *)

Lemma inv_new_adapter t : inv (new_adapter t).
Proof. split; simpl; try done. apply NoDup_nil_2. Qed.

(** *** The updates of one command *)

Lemma cmd_ok_settle o c :
  cmd_ok c ->
  (forall r, o = Resolved r -> exists buf rest,
      c_responseData c = buf ++ rest /\
      includes buf (c_delimiter c) = true /\ r = trim buf) ->
  (forall t h p, o <> RejTimeout t h p) ->
  (connect_failure (Some o) -> c_socket c = None /\ c_awaiting c = None) ->
  cmd_ok (settle o (clear_timeout c)).
Proof.
  intros [H1 H2 H3 H4 H4' H5 H6] Hr Ht Hc. unfold settle, clear_timeout. simpl.
  destruct (c_promise c) as [o'|] eqn:E; split; simpl; rewrite ?E; try done.
  - intros r [= ->]. auto.
  - intros t h p [= ->]. by destruct (Ht t h p).
  - intros Hcf. by destruct (Hc Hcf).
  - intros i Hi. destruct (H6 i Hi) as [Hs _]. split; [done|].
    intros Hcf. destruct (Hc Hcf). congruence.
Qed.

Lemma cmd_ok_fired c :
  cmd_ok c ->
  cmd_ok (settle (RejTimeout (c_timeout c) (c_host c) (c_port c))
            (set_timeoutId Fired c)).
Proof.
  intros [H1 H2 H3 H4 H4' H5 H6]. unfold settle. simpl.
  destruct (c_promise c) as [o'|] eqn:E; split; simpl; rewrite ?E; try done.
  - by intros t h p [= <- <- <-].
  - by intros (? & ? & ? & ? & [=]).
  - intros i Hi. destruct (H6 i Hi) as [Hs _]. split; [done|].
    by intros (? & ? & ? & ? & [=]).
Qed.

Lemma cmd_ok_data chunk c :
  cmd_ok c -> cmd_ok (set_responseData (c_responseData c ++ chunk) c).
Proof.
  intros [H1 H2 H3 H4 H4' H5 H6]. split; simpl; try done.
  intros r Hr. destruct (H4 r Hr) as (buf & rest & -> & Hi & ->).
  exists buf, (rest ++ chunk). by rewrite app_assoc.
Qed.

Lemma cmd_ok_awaiting_None c : cmd_ok c -> cmd_ok (set_awaiting None c).
Proof. intros [H1 H2 H3 H4 H4' H5 H6]. by split. Qed.

Lemma cmd_ok_socket sid c :
  cmd_ok c -> ~ connect_failure (c_promise c) -> c_awaiting c = None ->
  cmd_ok (set_socket (Some sid) c).
Proof.
  intros [H1 H2 H3 H4 H4' H5 H6] Hc Ha. split; simpl; try done.
  intros i Hi. congruence.
Qed.

Lemma cmd_ok_awaiting_Some sid c :
  cmd_ok c -> ~ connect_failure (c_promise c) -> c_socket c = None ->
  cmd_ok (set_awaiting (Some sid) c).
Proof. intros [H1 H2 H3 H4 H4' H5 H6] Hc Ha. by split. Qed.

(** *** The updates of one socket *)

Lemma In_remove_first x y l : x <> y -> In x l -> In x (remove_first y l).
Proof.
  intros Hne. induction l as [|z l IH]; simpl; [done|].
  case_bool_decide; simpl; intuition congruence.
Qed.

Lemma In_remove_last x y l :
  x <> y -> In x l -> In x (rev (remove_first y (rev l))).
Proof.
  intros Hne Hin. apply in_rev. rewrite rev_involutive.
  apply In_remove_first; [done|]. by apply in_rev in Hin.
Qed.

Lemma pres_on ev l : sock_pres (sock_on ev l).
Proof.
  split; try done. intros s [H1 H2]. split; simpl; [done|].
  apply in_or_app. by left.
Qed.

Lemma pres_remove ev l :
  (ev, l) <> (EvClose, PoolClose) -> sock_pres (sock_removeListener ev l).
Proof.
  intros Hne. split; try done. intros s [H1 H2]. split; simpl; [done|].
  apply In_remove_last; [congruence | done].
Qed.

Lemma pres_write d e : sock_pres (sock_write d e).
Proof. split; try done. by intros s [H1 H2]. Qed.

Lemma pres_destroy : sock_pres sock_destroy.
Proof. split; try done. by intros s [H1 H2]. Qed.

Lemma pres_connected : sock_pres sock_connected.
Proof. split; try done. by intros s [H1 H2]. Qed.

Lemma pres_promise p : sock_pres (set_promise p).
Proof. split; try done. by intros s [H1 H2]. Qed.

Create HintDb pres discriminated.
#[local] Hint Resolve pres_on pres_write pres_destroy pres_connected
  pres_promise : pres.
#[local] Hint Extern 1 (sock_pres (sock_removeListener _ _)) =>
  apply pres_remove; discriminate : pres.

(** *** The four kinds of update *)

Lemma inv_upd_sock sid g st : sock_pres g -> inv st -> inv (upd_sock sid g st).
Proof.
  intros [G1 G2 G3] [H1 H2 H3 H4 H5]. split; simpl; try done.
  - intros i s. rewrite list_lookup_alter. case_decide; subst; [|apply H2].
    destruct (sockets st !! i) as [s0|] eqn:E; simpl; [|done].
    intros [= <-]. eauto.
  - intros k i Hin. destruct (H4 k i Hin) as (s & Hs & Hk & Hc).
    rewrite list_lookup_alter. case_decide; subst; [|eauto].
    rewrite Hs. simpl. exists (g s). by rewrite G2, G3.
  - intros j c i Hc Hi. destruct (H5 j c i Hc Hi) as (s & Hs & Hk).
    rewrite list_lookup_alter. case_decide; subst; [|eauto].
    rewrite Hs. simpl. exists (g s). by rewrite G2.
Qed.

Lemma inv_on_socket c g st : sock_pres g -> inv st -> inv (on_socket c g st).
Proof.
  intros Hg H. unfold on_socket. destruct (c_socket c); [|done].
  by apply inv_upd_sock.
Qed.

Lemma inv_upd_cmd cid f st c :
  inv st -> commands st !! cid = Some c ->
  cmd_ok (f c) -> c_host (f c) = c_host c -> c_port (f c) = c_port c ->
  (forall i, c_socket (f c) = Some i \/ c_awaiting (f c) = Some i ->
     (c_socket c = Some i \/ c_awaiting c = Some i) \/
     exists s, sockets st !! i = Some s /\ s_key s = key_of (c_host c) (c_port c)) ->
  inv (upd_cmd cid f st).
Proof.
  intros [H1 H2 H3 H4 H5] Hc Hok Hh Hp Hl. split; simpl; try done.
  - intros j c'. rewrite list_lookup_alter. case_decide; subst; [|apply H1].
    rewrite Hc. simpl. by intros [= <-].
  - intros j c' i. rewrite list_lookup_alter. case_decide; subst; [|apply H5].
    rewrite Hc. simpl. intros [= <-] Hi. rewrite Hh, Hp.
    destruct (Hl i Hi) as [Hi' | Hs]; eauto.
Qed.

Lemma inv_delete k st :
  inv st -> inv (set_connections (JSMap.delete k (connections st)) st).
Proof.
  intros [H1 H2 H3 H4 H5]. split; simpl; try done.
  - by apply JSMapFacts.NoDup_keys_delete.
  - intros k' i [_ Hin]%JSMapFacts.In_delete. eauto.
Qed.

Lemma inv_new_socket key st :
  inv st ->
  inv (set_sockets (sockets st ++ [new_socket key]) st).
Proof.
  intros [H1 H2 H3 H4 H5]. split; simpl; try done.
  - intros i s [Hl | [_ Hl]]%lookup_app_Some; [eauto|].
    apply list_lookup_singleton_Some in Hl as [_ <-].
    split; simpl; [done | auto].
  - intros k i Hin. destruct (H4 k i Hin) as (s & Hs & Hk).
    exists s. split; [by apply lookup_app_l_Some | done].
  - intros j c i Hc Hi. destruct (H5 j c i Hc Hi) as (s & Hs & Hk).
    exists s. split; [by apply lookup_app_l_Some | done].
Qed.

Lemma inv_new_command c st :
  inv st -> cmd_ok c -> c_socket c = None -> c_awaiting c = None ->
  inv (set_commands (commands st ++ [c]) st).
Proof.
  intros [H1 H2 H3 H4 H5] Hok Hs Ha. split; simpl; try done.
  - intros j c' [Hl | [_ Hl]]%lookup_app_Some; [eauto|].
    by apply list_lookup_singleton_Some in Hl as [_ <-].
  - intros j c' i [Hl | [_ Hl]]%lookup_app_Some; [eauto|].
    apply list_lookup_singleton_Some in Hl as [_ <-].
    intros [?|?]; congruence.
Qed.

(** *** The handlers *)

Lemma commands_on_socket c g st : commands (on_socket c g st) = commands st.
Proof. unfold on_socket. by destruct (c_socket c). Qed.

Lemma fire_other_command j cid st :
  j <> cid ->
  commands (fire (TTimeout j) st) !! cid = commands st !! cid.
Proof.
  intros Hne. unfold fire. destruct (timer_of _ _); try done.
  unfold onTimeout. destruct (commands _ !! j); simpl; [|by rewrite list_lookup_alter_ne].
  rewrite list_lookup_alter_ne by done.
  repeat case_match; simpl; by rewrite ?list_lookup_alter_ne.
Qed.

Lemma upd_cmd_upd_cmd cid f g st :
  upd_cmd cid f (upd_cmd cid g st) = upd_cmd cid (f ∘ g) st.
Proof. unfold upd_cmd, set_commands. simpl. by rewrite list_alter_alter_eq. Qed.

Lemma upd_cmd_on_socket cid f c g st :
  upd_cmd cid f (on_socket c g st) = on_socket c g (upd_cmd cid f st).
Proof. unfold on_socket. by destruct (c_socket c). Qed.

Lemma settle_fields o c :
  c_host (settle o c) = c_host c /\ c_port (settle o c) = c_port c /\
  c_socket (settle o c) = c_socket c /\ c_awaiting (settle o c) = c_awaiting c /\
  c_timeoutId (settle o c) = c_timeoutId c /\
  c_responseData (settle o c) = c_responseData c /\
  c_delimiter (settle o c) = c_delimiter c.
Proof. unfold settle. by destruct (c_promise c). Qed.

Ltac fields :=
  repeat match goal with
    | |- context [settle ?o ?c] =>
        let H := fresh in
        pose proof (settle_fields o c) as H; destruct_and! H;
        generalize dependent (settle o c); intros
    end;
  simpl in *; try congruence; try solve [intuition congruence]; eauto.

Lemma inv_onData cid chunk st : inv st -> inv (onData cid chunk st).
Proof.
  intros H. unfold onData. destruct (commands st !! cid) as [c|] eqn:E; [|done].
  pose proof (inv_cmds _ H _ _ E) as Hok.
  destruct (truthy_str _ && includes _ _) eqn:Hcond.
  - rewrite !upd_cmd_on_socket, !upd_cmd_upd_cmd.
    do 2 (apply inv_on_socket; [auto with pres|]).
    apply andb_prop in Hcond as [_ Hinc].
    eapply inv_upd_cmd; [done | exact E | | | |]; unfold compose.
    + apply (cmd_ok_settle _ (set_responseData (c_responseData c ++ chunk) c)).
      * by apply cmd_ok_data.
      * intros r [= <-]. exists (c_responseData c ++ chunk), []. simpl.
        by rewrite app_nil_r.
      * discriminate.
      * intros (? & ? & ? & ? & [=]).
    + fields.
    + fields.
    + intros i. fields.
  - eapply inv_upd_cmd; [done | exact E | by apply cmd_ok_data | done..| ].
    simpl. auto.
Qed.

Lemma inv_onError cid e st : inv st -> inv (onError cid e st).
Proof.
  intros H. unfold onError. destruct (commands st !! cid) as [c|] eqn:E; [|done].
  pose proof (inv_cmds _ H _ _ E) as Hok.
  rewrite !upd_cmd_on_socket, !upd_cmd_upd_cmd.
  apply inv_on_socket; [auto with pres|].
  eapply inv_upd_cmd; [done | exact E | | | |]; unfold compose.
  - apply cmd_ok_settle; [done | discriminate | discriminate |].
    intros (? & ? & ? & ? & [=]).
  - fields.
  - fields.
  - intros i. fields.
Qed.

Lemma inv_fire r st : inv st -> inv (fire r st).
Proof.
  intros H. unfold fire. destruct r as [cid|cid]; simpl.
  - destruct (commands st !! cid) as [c|] eqn:E; simpl; [|done].
    pose proof (inv_cmds _ H _ _ E) as Hok.
    destruct (c_timeoutId c) eqn:Et; try done.
    unfold onTimeout. simpl. rewrite list_lookup_alter_eq, E. simpl.
    assert (forall st1, inv st1 -> commands st1 = commands st ->
              inv (upd_cmd cid
                     (settle (RejTimeout (c_timeout c) (c_host c) (c_port c))
                        ∘ set_timeoutId Fired) st1)) as Hstep.
    { intros st1 H1 Hc1. eapply inv_upd_cmd; [done | by rewrite Hc1 | | | |];
        unfold compose.
      - by apply cmd_ok_fired.
      - fields.
      - fields.
      - intros i. fields. }
    destruct (c_socket c) as [sid|];
      [|rewrite upd_cmd_upd_cmd; by apply Hstep].
    change (sock_is_destroyed sid (upd_cmd cid (set_timeoutId Fired) st))
      with (sock_is_destroyed sid st).
    destruct (negb (sock_is_destroyed sid st)).
    + change (upd_cmd cid ?f (upd_sock sid ?g ?s)) with
        (upd_sock sid g (upd_cmd cid f s)).
      rewrite upd_cmd_upd_cmd.
      apply inv_upd_sock; [auto with pres|]. by apply Hstep.
    + rewrite upd_cmd_upd_cmd. by apply Hstep.
  - destruct (commands st !! cid) as [c|] eqn:E; simpl; [|done].
    by rewrite (ok_grace _ (inv_cmds _ H _ _ E)).
Qed.

Lemma inv_fire_all (l : list (Z * tref)) st :
  inv st -> inv (fold_left (fun st x => fire (snd x) st) l st).
Proof.
  apply (fold_left_keeps inv (fun x => fire (snd x))). auto using inv_fire.
Qed.

Lemma inv_set_now t st : inv st -> inv (set_now t st).
Proof. by intros []. Qed.

Lemma inv_advance T st : inv st -> inv (advance T st).
Proof. intros H. unfold advance. by apply inv_fire_all, inv_set_now. Qed.

Lemma inv_afterConnection cid sid st c s :
  inv st -> commands st !! cid = Some c ->
  ~ connect_failure (c_promise c) -> c_awaiting c = None ->
  sockets st !! sid = Some s -> s_key s = key_of (c_host c) (c_port c) ->
  inv (afterConnection cid sid st).
Proof.
  intros H E Hcf Ha Hs Hk. unfold afterConnection. rewrite E.
  pose proof (inv_cmds _ H _ _ E) as Hok.
  assert (truthy_str (Some (c_delimiter c)) = true) as ->.
  { destruct (c_delimiter c) eqn:Ed; [|done]. by destruct (ok_delimiter _ Hok). }
  simpl. do 3 (apply inv_upd_sock; [auto with pres|]).
  eapply inv_upd_cmd; [done | exact E | by apply cmd_ok_socket | done.. |].
  simpl. intros i [[= <-] | Hi]; eauto.
Qed.

Lemma inv_onCatch cid e st c :
  inv st -> commands st !! cid = Some c ->
  c_socket c = None -> c_awaiting c = None ->
  inv (onCatch cid e st).
Proof.
  intros H E Hs Ha. unfold onCatch. rewrite E.
  pose proof (inv_cmds _ H _ _ E) as Hok.
  rewrite !upd_cmd_upd_cmd.
  eapply inv_upd_cmd; [done | exact E | | | |]; unfold compose.
  - by apply cmd_ok_settle.
  - fields.
  - fields.
  - intros i. fields.
Qed.

(** A command that continues after [await] held no socket and had not
    failed to connect. *)
Lemma inv_resume sid k st :
  (forall cid st1 c s,
      inv st1 -> commands st1 !! cid = Some c ->
      c_socket c = None -> ~ connect_failure (c_promise c) ->
      c_awaiting c = None ->
      sockets st1 !! sid = Some s -> s_key s = key_of (c_host c) (c_port c) ->
      inv (k cid st1)) ->
  inv st -> inv (resume sid k st).
Proof.
  intros Hk H. unfold resume. apply fold_left_keeps; [|done].
  intros cid st1 H1. unfold resume_one.
  destruct (commands st1 !! cid) as [c|] eqn:E; [|done].
  case_bool_decide as Ha; [|done].
  pose proof (inv_cmds _ H1 _ _ E) as Hok.
  destruct (ok_awaiting _ Hok _ Ha) as [Hs Hcf].
  destruct (inv_link _ H1 _ _ sid E (or_intror Ha)) as (s & Es & Hkey).
  apply (Hk cid _ (set_awaiting None c) s); simpl; try done.
  - eapply inv_upd_cmd; [done | exact E | by apply cmd_ok_awaiting_None | done..|].
    simpl. intros i [Hi | [=]]. auto.
  - by rewrite list_lookup_alter_eq, E.
Qed.

Lemma inv_call sid p l st : inv st -> inv (call sid p l st).
Proof.
  intros H. unfold call, reject_acquire.
  repeat case_match; auto using inv_onData, inv_onError, inv_delete.
  apply inv_resume; [|apply inv_upd_sock; auto with pres].
  intros. by eapply inv_onCatch.
Qed.

Lemma inv_emit sid ev p st : inv st -> inv (emit sid ev p st).
Proof.
  intros H. unfold emit. case_match; [|done].
  apply fold_left_keeps; auto using inv_call.
Qed.

Lemma inv_closeAll st : inv st -> inv (closeAll st).
Proof.
  intros H. unfold closeAll.
  assert (inv (fold_left
       (fun st sid =>
          if negb (sock_is_destroyed sid st) then upd_sock sid sock_destroy st
          else st) (JSMap.values (connections st)) st)) as [H1 H2 H3 H4 H5].
  { apply (fold_left_keeps inv (fun sid st =>
          if negb (sock_is_destroyed sid st) then upd_sock sid sock_destroy st
          else st)); [|done].
    intros. case_match; [apply inv_upd_sock; auto with pres | done]. }
  split; simpl; try done. apply NoDup_nil_2.
Qed.

(** What [getConnection] does: it gives the pooled socket of the key when
    that socket is not destroyed and changes nothing; otherwise it makes a
    socket, after deleting the entry of a destroyed one. *)
Lemma getConnection_spec host port st :
  match getConnection host port st with
  | (Existing sid, st') =>
      st' = st /\
      JSMap.get (key_of host port) (connections st) = Some sid /\
      sock_is_destroyed sid st = false
  | (Connecting sid, st') =>
      sid = length (sockets st) /\
      (forall sid0, JSMap.get (key_of host port) (connections st) = Some sid0 ->
                    sock_is_destroyed sid0 st = true) /\
      exists m,
        (m = connections st \/
         m = JSMap.delete (key_of host port) (connections st)) /\
        st' = set_sockets (sockets st ++ [new_socket (key_of host port)])
                (set_connections m st)
  end.
Proof.
  unfold getConnection, createConnection.
  destruct (JSMap.has _ _) eqn:Eh.
  - destruct (JSMap.get _ _) as [sid|] eqn:Eg.
    + destruct (sock_is_destroyed sid st) eqn:Ed; simpl.
      * split; [done|]. split; [by intros ? [= <-]|].
        eexists. split; [by right | done].
      * done.
    + apply JSMapFacts.has_get in Eh as [v Hv]. congruence.
  - split; [done|]. split.
    + intros sid0 Hg. assert (JSMap.has (key_of host port) (connections st) = true).
      { apply JSMapFacts.has_get. eauto. }
      congruence.
    + exists (connections st). split; [by left | by destruct st].
Qed.

Lemma inv_sendTCPCommand host port command opts st :
  inv st -> inv (snd (sendTCPCommand host port command opts st)).
Proof.
  intros H. unfold sendTCPCommand.
  set (c := mkCommand _ _ _ _ _ _ _ _ _ _ _ _).
  set (st1 := set_commands (commands st ++ [c]) st).
  assert (cmd_ok c) as Hok.
  { split; simpl; try done; eauto.
    unfold or_str. by repeat case_match. }
  assert (inv st1) as H1 by by apply inv_new_command.
  assert (commands st1 !! length (commands st) = Some c) as E.
  { simpl. rewrite lookup_app_r by lia. by rewrite Nat.sub_diag. }
  pose proof (getConnection_spec host port st1) as Hg.
  destruct (getConnection host port st1) as [[sid|sid] st2]; simpl.
  - destruct Hg as (-> & Hget & Hd).
    apply JSMapFacts.get_In in Hget.
    destruct (inv_pool _ H1 _ _ Hget) as (s & Hs & Hk & _).
    eapply (inv_afterConnection _ _ _ c s); try done.
    by intros (? & ? & ? & ? & [=]).
  - destruct Hg as (-> & _ & m & Hm & ->).
    assert (inv (set_sockets (sockets st1 ++ [new_socket (key_of host port)])
                   (set_connections m st1))) as H2.
    { apply (inv_new_socket (key_of host port) (set_connections m st1)).
      destruct Hm as [-> | ->]; [by destruct st1 | by apply inv_delete]. }
    eapply inv_upd_cmd; [done | exact E | | done | done |].
    + apply cmd_ok_awaiting_Some; try done. by intros (? & ? & ? & ? & [=]).
    + simpl. intros i [[=] | [= <-]]. right.
      exists (new_socket (key_of host port)). split; [|done].
      rewrite lookup_app_r by lia. by rewrite Nat.sub_diag.
Qed.

Lemma In_listeners_for ev l s :
  In l (listeners_for ev s) <-> In (ev, l) (s_listeners s).
Proof.
  unfold listeners_for. rewrite in_map_iff. split.
  - intros ([ev' l'] & Hl & Hin). simpl in Hl. subst.
    apply filter_In in Hin as [Hin Hev]. simpl in Hev.
    apply bool_decide_eq_true in Hev. by subst.
  - intros Hin. exists (ev, l). split; [done|].
    apply filter_In. split; [done|]. simpl. by apply bool_decide_eq_true.
Qed.

(** The ['close'] event only reaches the close listener of the pool: the
    entry of the key of the socket is deleted, nothing else changes. *)
Lemma emit_close sid st s :
  sockets st !! sid = Some s -> In (EvClose, PoolClose) (s_listeners s) ->
  emit sid EvClose PClose st =
    set_connections (JSMap.delete (s_key s) (connections st)) st.
Proof.
  intros Hs Hin. unfold emit. rewrite Hs.
  apply In_listeners_for in Hin.
  assert (forall l st1, sockets st1 = sockets st ->
            fold_left (fun st l => call sid PClose l st) l st1 =
              if existsb (fun x => bool_decide (x = PoolClose)) l then
                set_connections (JSMap.delete (s_key s) (connections st1)) st1
              else st1) as Hfold.
  { induction l as [|x l IH]; intros st1 Hst1; simpl; [done|].
    destruct x; simpl; rewrite ?Hst1, ?Hs; rewrite IH by done; try done.
    simpl. rewrite JSMapFacts.delete_idem. by case_match. }
  rewrite Hfold by done.
  assert (existsb (fun x => bool_decide (x = PoolClose)) (listeners_for EvClose s)
          = true) as ->; [|done].
  apply existsb_exists. exists PoolClose. split; [done|].
  by apply bool_decide_eq_true.
Qed.

Lemma inv_handle e st : inv st -> inv (handle e st).
Proof.
  intros H. destruct e as [host port command opts|sid|sid chunk|sid e|sid|]; simpl.
  - by apply inv_sendTCPCommand.
  - destruct (sockets st !! sid) as [s|] eqn:Es; [|done].
    destruct (s_connecting s && negb (s_destroyed s)) eqn:Eg; [|done].
    apply andb_prop in Eg as [_ Ed]. apply negb_true_iff in Ed.
    assert (inv (set_connections
                   (JSMap.set (s_key s) sid
                      (connections (upd_sock sid sock_connected st)))
                   (upd_sock sid sock_connected st))) as H2.
    { pose proof (inv_upd_sock sid _ st pres_connected H) as [H1 H2 H3 H4 H5].
      split; simpl; try done.
      - by apply JSMapFacts.NoDup_keys_set.
      - intros k i [[-> ->] | Hin]%JSMapFacts.In_set; [|by apply H4].
        rewrite list_lookup_alter_eq, Es. simpl.
        eexists. split; [done|]. split; [done|]. simpl.
        destruct (s_closed s) eqn:Ec; [|done].
        rewrite (ok_closed _ (inv_socks _ H _ _ Es) Ec) in Ed. done. }
    unfold resolve_acquire. repeat case_match; try done.
    apply inv_resume; [|apply inv_upd_sock; auto with pres].
    intros. by eapply inv_afterConnection.
  - repeat case_match; [|done..]. by apply inv_emit.
  - repeat case_match; [|done..]. apply inv_emit, inv_upd_sock; auto with pres.
  - destruct (sockets st !! sid) as [s|] eqn:Es; [|done].
    destruct (negb (s_closed s)) eqn:Ec; [|done].
    pose proof (inv_socks _ H _ _ Es) as [Hs1 Hs2].
    rewrite (emit_close sid _ (sock_close s));
      [| by simpl; rewrite list_lookup_alter_eq, Es | done].
    destruct H as [H1 H2 H3 H4 H5]. split; simpl; try done.
    + intros i s'. rewrite list_lookup_alter. case_decide; subst; [|apply H2].
      rewrite Es. simpl. intros [= <-]. by split.
    + by apply JSMapFacts.NoDup_keys_delete.
    + intros k i [Hne Hin]%JSMapFacts.In_delete.
      destruct (H4 k i Hin) as (s' & Hs' & Hk & Hc).
      rewrite list_lookup_alter. case_decide; subst; [congruence | eauto].
    + intros j c i Hc Hi. destruct (H5 j c i Hc Hi) as (s' & Hs' & Hk).
      rewrite list_lookup_alter. case_decide; subst; [|eauto].
      rewrite Hs'. simpl. eauto.
  - by apply inv_closeAll.
Qed.

Lemma inv_run tr st : inv st -> inv (run st tr).
Proof.
  revert st. induction tr as [|[t e] tr IH]; simpl; [done|].
  intros st H. by apply IH, inv_handle, inv_advance.
Qed.

Lemma reachable_inv st : reachable st -> inv st /\ timers_future st.
Proof.
  intros [tr ->]. split.
  - apply inv_run, inv_new_adapter.
  - apply timers_future_run. by intros j c d.
Qed.


(** * The claims *)

(** ** Acquiring a connection *)

Lemma sockets_upd_sock sid g st :
  sockets (upd_sock sid g st) = alter g sid (sockets st).
Proof. done. Qed.

Lemma sockets_set_connections m st : sockets (set_connections m st) = sockets st.
Proof. done. Qed.

Lemma connections_upd_sock sid g st :
  connections (upd_sock sid g st) = connections st.
Proof. done. Qed.

Lemma connections_set_connections m st : connections (set_connections m st) = m.
Proof. done. Qed.

(** [closeAll] destroys the sockets of the map only. *)
Lemma orphan_outlives_closeAll sid st :
  orphaned sid st -> sock_is_destroyed sid (closeAll st) = false.
Proof.
  intros (s & Hs & _ & Hd & Hnot). unfold closeAll.
  unfold sock_is_destroyed at 1.
  rewrite sockets_set_connections. revert Hnot.
  generalize (JSMap.values (connections st)). intros l Hnot.
  assert (forall st1, sockets st1 !! sid = Some s ->
            sockets (fold_left
              (fun st i =>
                 if negb (sock_is_destroyed i st) then upd_sock i sock_destroy st
                 else st) l st1) !! sid = Some s) as Hfold.
  { induction l as [|i l IH]; intros st1 H1; simpl; [done|].
    apply IH; [intros Hin; apply Hnot; by right|].
    case_match; [|done]. simpl. rewrite list_lookup_alter_ne; [done|].
    intros ->. apply Hnot. by left. }
  by rewrite (Hfold st Hs).
Qed.

Lemma set_absent {V} k (v : V) m :
  JSMap.has k m = false -> JSMap.set k v m = m ++ [(k, v)].
Proof.
  induction m as [|[k1 v1] m IH]; simpl; [done|].
  case_bool_decide; simpl; [done|]. intros Hh. by rewrite IH.
Qed.

Lemma set_last {V} k (v v' : V) m :
  JSMap.has k m = false -> JSMap.set k v' (m ++ [(k, v)]) = m ++ [(k, v')].
Proof.
  induction m as [|[k1 v1] m IH]; simpl.
  - intros _. by rewrite bool_decide_eq_true_2.
  - case_bool_decide; simpl; [done|]. intros Hh. by rewrite IH.
Qed.

Lemma resume_nobody sid k st :
  (forall cid c, commands st !! cid = Some c -> c_awaiting c <> Some sid) ->
  resume sid k st = st.
Proof.
  intros Hno. unfold resume. generalize (seq 0 (length (commands st))).
  intros l. induction l as [|cid l IH]; simpl; [done|].
  unfold resume_one at 2. destruct (commands st !! cid) as [c|] eqn:E; [|done].
  by rewrite bool_decide_eq_false_2 by eauto.
Qed.

(** The connect callback of a socket that no command awaits. *)
Lemma connect_unawaited sid st s :
  sockets st !! sid = Some s ->
  s_connecting s = true -> s_destroyed s = false -> s_promise s = Pending ->
  (forall cid c, commands st !! cid = Some c -> c_awaiting c <> Some sid) ->
  handle (Connect sid) st =
    upd_sock sid (set_promise Fulfilled)
      (set_connections (JSMap.set (s_key s) sid (connections st))
         (upd_sock sid sock_connected st)).
Proof.
  intros Hs Hc Hd Hp Hno. simpl. rewrite Hs, Hc, Hd. simpl.
  unfold resolve_acquire, promise_of. simpl.
  rewrite list_lookup_alter_eq, Hs. simpl. rewrite Hp.
  by rewrite resume_nobody.
Qed.

(** C9, as the code has it.  In any reachable state, two calls of
    [getConnection] for a key that the map does not hold and a port that
    [net.createConnection] takes, made before either socket has connected,
    each make a socket of their own; each connect callback stores its
    socket under the key, so that the map ends with the socket that
    connected last, whichever it is, and the other one is left connected,
    not destroyed and out of the map. *)
Theorem concurrent_acquires_connect_twice host port st :
  reachable st ->
  valid_port port ->
  JSMap.has (key_of host port) (connections st) = false ->
  let key := key_of host port in
  let n := length (sockets st) in
  exists st1 st2,
    getConnection host port st = (Connecting n, st1) /\
    getConnection host port st1 = (Connecting (S n), st2) /\
    (let st3 := handle (Connect (S n)) (handle (Connect n) st2) in
     connections st3 = connections st ++ [(key, S n)] /\ orphaned n st3) /\
    (let st3 := handle (Connect n) (handle (Connect (S n)) st2) in
     connections st3 = connections st ++ [(key, n)] /\ orphaned (S n) st3).
Proof.
  intros [Hinv _]%reachable_inv _ Hhas key n.
  subst key. set (key := key_of host port) in *.
  set (st1 := set_sockets (sockets st ++ [new_socket key]) st).
  set (st2 := set_sockets (sockets st1 ++ [new_socket key]) st1).
  exists st1, st2.
  assert (getConnection host port st = (Connecting n, st1)) as G1.
  { unfold getConnection. fold key. by rewrite Hhas. }
  assert (getConnection host port st1 = (Connecting (S n), st2)) as G2.
  { unfold getConnection. fold key.
    change (connections st1) with (connections st).
    rewrite Hhas.
    unfold createConnection. f_equal. f_equal.
    change (sockets st1) with (sockets st ++ [new_socket key]).
    rewrite length_app. simpl. lia. }
  do 2 (split; [done|]).
  assert (forall i, sockets st2 !! i = Some (new_socket key) <-> i = n \/ i = S n \/
            sockets st !! i = Some (new_socket key)) as Hnew.
  { intros i. simpl. rewrite <- app_assoc. simpl.
    rewrite lookup_app_Some. fold n. split.
    - intros [H | [Hge H]]; [auto|].
      destruct (i - n) as [|[|k]] eqn:E; simpl in H; try done;
        [left | right; left]; lia.
    - intros [-> | [-> | H]]; [| |auto]; right; (split; [lia|]).
      + by rewrite Nat.sub_diag.
      + by replace (S n - n) with 1 by lia. }
  assert (forall sid cid c, n <= sid -> commands st !! cid = Some c ->
            c_awaiting c <> Some sid) as Hno.
  { intros sid cid c Hge Hc Ha.
    destruct (inv_link _ Hinv cid c sid Hc (or_intror Ha)) as (s & Hs & _).
    apply lookup_lt_Some in Hs. fold n in Hs. lia. }
  assert (forall i, In i (JSMap.values (connections st)) -> i < n) as Hvals.
  { intros i ([k i'] & <- & Hin)%in_map_iff. simpl.
    destruct (inv_pool _ Hinv k i' Hin) as (s & Hs & _).
    by apply lookup_lt_Some in Hs. }
  assert (forall a b, a <> b -> (a = n \/ a = S n) -> (b = n \/ b = S n) ->
    let st3 := handle (Connect b) (handle (Connect a) st2) in
    connections st3 = connections st ++ [(key, b)] /\ orphaned a st3) as Hboth.
  { intros a b Hab Ha Hb.
    rewrite (connect_unawaited a st2 (new_socket key)); try done;
      [| apply Hnew; tauto | intros cid c; apply Hno; lia].
    rewrite (connect_unawaited b _ (new_socket key)); try done; simpl.
    - rewrite (set_absent key a (connections st)), set_last by done.
      split; [done|].
      exists (set_promise Fulfilled (sock_connected (new_socket key))).
      split; [|split; [done|split; [done|]]].
      + repeat rewrite ?sockets_upd_sock, ?sockets_set_connections.
        rewrite !list_lookup_alter_ne by done.
        rewrite list_lookup_alter_eq, list_lookup_alter_eq.
        assert (sockets st2 !! a = Some (new_socket key)) as Hs
          by (apply Hnew; tauto).
        by rewrite Hs.
      + rewrite connections_upd_sock, connections_set_connections.
        unfold JSMap.values. rewrite map_app, in_app_iff. simpl.
        intros [Hin | [<- | []]]; [|done].
        apply Hvals in Hin. lia.
    - rewrite !list_lookup_alter_ne by done. apply Hnew. tauto.
    - intros cid c. apply Hno. lia. }
  split; apply Hboth; auto; lia.
Qed.

Lemma concurrent_acquires_connect_twice_witness :
  exists st1 st2,
    getConnection (js "localhost") 8080 init = (Connecting 0, st1) /\
    getConnection (js "localhost") 8080 st1 = (Connecting 1, st2) /\
    connections (handle (Connect 1) (handle (Connect 0) st2))
      = [(js "localhost:8080", 1)] /\
    orphaned 0 (handle (Connect 1) (handle (Connect 0) st2)).
Proof.
  destruct (concurrent_acquires_connect_twice (js "localhost") 8080 init)
    as (st1 & st2 & H1 & H2 & [H3 H4] & _);
    [by exists [] | unfold valid_port; lia | reflexivity |].
  exists st1, st2. split; [exact H1|]. split; [exact H2|].
  split; [exact H3 | exact H4].
Defined.

(** C9, as the spec has it, fails: the second of two calls of
    [sendTCPCommand] for the same unseen key does not wait for the socket
    of the first but for a second socket, and once both have connected
    the first socket is left out of the map, where [stop()] does not
    destroy it. *)
Lemma acquires_are_not_serialized :
  let st := run init [(0%Z, Call (js "localhost") 8080 (js "A") no_options);
                      (1%Z, Call (js "localhost") 8080 (js "B") no_options)] in
  (c_awaiting <$> commands st !! 0) = Some (Some 0) /\
  (c_awaiting <$> commands st !! 1) = Some (Some 1) /\
  let st' := run st [(2%Z, Connect 0); (3%Z, Connect 1)] in
  connections st' = [(js "localhost:8080", 1)] /\ orphaned 0 st' /\
  sock_is_destroyed 0 (handle Stop st') = false.
Proof.
  split; [reflexivity|]. split; [reflexivity|]. split; [reflexivity|].
  split; [|reflexivity].
  eexists. split; [reflexivity|]. split; [reflexivity|]. split; [reflexivity|].
  simpl. intros [H | []]. discriminate.
Qed.

(** ** Framing *)

(** C7.  The command [HELLO_WORLD] sent with the delimiter CR LF is
    written as the payload followed by the delimiter; the test server
    answers [HELLO_RESPONSE] CR LF to that, and whether this answer comes
    in one chunk or cut in two at any place, the promise resolves to
    exactly [HELLO_RESPONSE]. *)
Theorem roundtrip_hello_world (isoTime : jsstring) (n : nat) :
  let st :=
    run init [(0%Z, Call (js "localhost") 8080 (js "HELLO_WORLD") hello_options);
              (1%Z, Connect 0)] in
  let reply := test_server_response isoTime (js "HELLO_WORLD" ++ [CR; LF]) in
  written 0 st = [(js "HELLO_WORLD" ++ [CR; LF], js "utf8")] /\
  reply = js "HELLO_RESPONSE" ++ [CR; LF] /\
  promise 0 (run st [(2%Z, Data 0 (take n reply)); (3%Z, Data 0 (drop n reply))])
    = Some (Resolved (js "HELLO_RESPONSE")).
Proof.
  intros st reply.
  assert (reply = js "HELLO_RESPONSE" ++ [CR; LF]) as Hreply by reflexivity.
  split; [reflexivity|]. split; [exact Hreply|]. rewrite Hreply.
  do 17 (destruct n as [|n]; [vm_compute; reflexivity|]).
  rewrite take_ge, drop_ge by (simpl; lia). vm_compute. reflexivity.
Qed.

(** ** The empty delimiter *)

(** C1, evaluated.  With [delimiter] set to the empty string the command
    of line 161 takes the default newline instead: the newline is written
    after the payload, the timer of line 218 is not set, the promise is
    still pending after min(timeout, 1000) ms and is rejected by the
    timeout timer at 5000 ms. *)
Theorem empty_delimiter_times_out :
  let opts := mkOptions None None (Some []) in
  let st :=
    run init [(0%Z, Call (js "localhost") 8080 (js "PING") opts);
              (10%Z, Connect 0)] in
  (c_delimiter <$> commands st !! 0) = Some [LF] /\
  written 0 st = [(js "PING" ++ [LF], js "utf8")] /\
  (c_graceId <$> commands st !! 0) = Some Unset /\
  promise 0 (advance (Z.min 5000 1000) st) = None /\
  promise 0 (advance 4999 st) = None /\
  promise 0 (advance 5000 st) = Some (RejTimeout 5000 (js "localhost") 8080).
Proof. vm_compute. repeat split; reflexivity. Qed.

(** The same for every call: the delimiter of a command is never empty and
    its grace timer is never set. *)
Lemma grace_period_is_dead_code st cid c :
  reachable st -> commands st !! cid = Some c ->
  c_delimiter c <> [] /\ c_graceId c = Unset.
Proof.
  intros [Hinv _]%reachable_inv Hc.
  destruct (inv_cmds _ Hinv _ _ Hc). done.
Qed.

(** ** Listeners and timers on the exit paths *)

(** C2, evaluated.  After a delimiter match both listeners of the command
    are off the socket and its timer is cleared.  After a socket error the
    timer is cleared and [onData] is removed, but [onError] is still
    registered; after the timeout the socket is destroyed and both
    listeners are still registered. *)
Theorem listeners_left_after_error_and_timeout :
  let st :=
    run init [(0%Z, Call (js "localhost") 8080 (js "GET_STATUS") no_options);
              (1%Z, Connect 0)] in
  let pool := [(EvError, PoolReject); (EvClose, PoolClose)] in
  listeners 0 st = pool ++ [(EvData, OnData 0); (EvError, OnError 0)] /\
  (let st1 := run st [(2%Z, Data 0 (js "STATUS_OK" ++ [LF]))] in
   promise 0 st1 = Some (Resolved (js "STATUS_OK")) /\
   listeners 0 st1 = pool /\
   (c_timeoutId <$> commands st1 !! 0) = Some Cleared) /\
  (let st2 := run st [(2%Z, Error 0 (mkError (js "read ECONNRESET") (js "ECONNRESET")))] in
   promise 0 st2 = Some (RejTCP (js "read ECONNRESET") (js "ECONNRESET")) /\
   listeners 0 st2 = pool ++ [(EvError, OnError 0)] /\
   (c_timeoutId <$> commands st2 !! 0) = Some Cleared) /\
  (let st3 := advance 5000 st in
   promise 0 st3 = Some (RejTimeout 5000 (js "localhost") 8080) /\
   listeners 0 st3 = pool ++ [(EvData, OnData 0); (EvError, OnError 0)] /\
   sock_is_destroyed 0 st3 = true).
Proof. vm_compute. repeat split; reflexivity. Qed.

(** ** The response *)

Lemma trimStart_ws w y :
  forallb is_ws w = true -> trimStart (w ++ y) = trimStart y.
Proof.
  induction w as [|c w IH]; simpl; [done|].
  intros [Hc Hw]%andb_prop. rewrite Hc. auto.
Qed.

Lemma trimStart_app x y :
  trimStart (x ++ y) =
    if forallb is_ws x then trimStart y else trimStart x ++ y.
Proof.
  induction x as [|c x IH]; simpl; [done|].
  destruct (is_ws c); simpl; done.
Qed.

Lemma trimEnd_ws x w : forallb is_ws w = true -> trimEnd (x ++ w) = trimEnd x.
Proof.
  intros Hw. unfold trimEnd. rewrite rev_app_distr, trimStart_ws; [done|].
  rewrite forallb_forall in *. intros c Hc. apply Hw. by apply in_rev.
Qed.

(** Trimming removes a delimiter made of white space that ends the
    buffer. *)
Lemma trim_ws_suffix body d :
  forallb is_ws d = true -> trim (body ++ d) = trim body.
Proof.
  intros Hd. unfold trim. rewrite trimStart_app.
  destruct (forallb is_ws body) eqn:Hb.
  - pose proof (trimStart_ws d [] Hd) as H1. rewrite app_nil_r in H1.
    pose proof (trimStart_ws body [] Hb) as H2. rewrite app_nil_r in H2.
    rewrite H1, H2. done.
  - by apply trimEnd_ws.
Qed.

(** C3, as the code has it.  A resolved promise holds the buffer trimmed of
    the white space at its two ends, the buffer being what had accumulated
    when the delimiter was found in it: [onData] on a pending command
    resolves with the trimmed buffer that contains the delimiter, and
    resolves with nothing else.  The delimiter is cut out only as far as
    trimming does it, as for a delimiter of white space that ends the
    buffer. *)
Theorem response_is_trimmed_buffer tr cid c r :
  commands (run init tr) !! cid = Some c ->
  c_promise c = Some (Resolved r) ->
  (exists buf rest,
      c_responseData c = buf ++ rest /\
      includes buf (c_delimiter c) = true /\ r = trim buf) /\
  (forall st chunk c0 r0,
      commands st !! cid = Some c0 -> c_promise c0 = None ->
      promise cid (onData cid chunk st) = Some (Resolved r0) ->
      includes (c_responseData c0 ++ chunk) (c_delimiter c0) = true /\
      r0 = trim (c_responseData c0 ++ chunk)) /\
  (forall body d, forallb is_ws d = true -> trim (body ++ d) = trim body).
Proof.
  intros Hc Hr. split; [|split].
  - assert (reachable (run init tr)) as [Hinv _]%reachable_inv by by exists tr.
    by apply (ok_resolved _ (inv_cmds _ Hinv _ _ Hc)).
  - intros st chunk c0 r0 Hc0 Hp0. unfold promise, onData. rewrite Hc0.
    destruct (truthy_str _ && includes _ _) eqn:Hcond.
    + rewrite !upd_cmd_on_socket, !upd_cmd_upd_cmd.
      rewrite !commands_on_socket. simpl. rewrite list_lookup_alter_eq, Hc0. simpl.
      unfold settle. simpl. rewrite Hp0. simpl. intros [= <-].
      by apply andb_prop in Hcond as [_ ->].
    + simpl. rewrite list_lookup_alter_eq, Hc0. simpl. by rewrite Hp0.
  - apply trim_ws_suffix.
Qed.

Lemma response_is_trimmed_buffer_witness :
  exists buf rest,
    js "STATUS_OK" ++ [LF] = buf ++ rest /\
    includes buf [LF] = true /\ js "STATUS_OK" = trim buf.
Proof.
  pose (tr := [(0%Z, Call (js "localhost") 8080 (js "GET_STATUS") no_options);
               (1%Z, Connect 0); (2%Z, Data 0 (js "STATUS_OK" ++ [LF]))]).
  destruct (commands (run init tr) !! 0) as [c|] eqn:E; [|discriminate E].
  assert (c_promise c = Some (Resolved (js "STATUS_OK")) /\
          c_responseData c = js "STATUS_OK" ++ [LF] /\ c_delimiter c = [LF])
    as (Hp & Hd & Hl).
  { vm_compute in E. injection E as <-. repeat split; reflexivity. }
  destruct (response_is_trimmed_buffer tr 0 c (js "STATUS_OK") E Hp)
    as [(buf & rest & H1 & H2 & H3) _].
  exists buf, rest. rewrite <- Hd, <- Hl. split; [exact H1|]. split; [exact H2 | exact H3].
Defined.

(** C3 as the spec has it fails: with the delimiter [;] and the chunk
    [OK;] the promise resolves to [OK;], the delimiter still in it, not to
    [OK]. *)
Lemma delimiter_is_not_stripped :
  let opts := mkOptions None None (Some (js ";")) in
  let st :=
    run init [(0%Z, Call (js "localhost") 8080 (js "GET") opts);
              (1%Z, Connect 0); (2%Z, Data 0 (js "OK;"))] in
  exists c,
    commands st !! 0 = Some c /\
    c_delimiter c = js ";" /\ c_responseData c = js "OK;" /\
    c_promise c = Some (Resolved (js "OK;")) /\
    spec_response (c_delimiter c) (c_responseData c) = js "OK" /\
    c_promise c <> Some (Resolved (spec_response (c_delimiter c) (c_responseData c))).
Proof.
  eexists. split; [reflexivity|]. vm_compute. repeat split; try reflexivity.
  discriminate.
Qed.

(** ** The timeout *)


Lemma destroyed_evolves sid st st' :
  evolves st st' ->
  sock_is_destroyed sid st = true -> sock_is_destroyed sid st' = true.
Proof.
  intros Hev. unfold sock_is_destroyed.
  destruct (sockets st !! sid) as [s|] eqn:E; [|done].
  destruct (ev_sockets _ _ Hev _ _ E) as (s' & -> & Hle). apply Hle.
Qed.

Lemma timing_out_fire cid c d r st :
  timing_out cid c d st -> timing_out cid c d (fire r st).
Proof.
  intros (Hinv & c' & Hc' & Ht & Hh & Hp & Hs & Hcases).
  split; [by apply inv_fire|].
  destruct r as [j|j].
  - destruct (decide (j = cid)) as [->|Hne].
    + unfold fire. simpl. rewrite Hc'. simpl.
      destruct Hcases as [[Hpend Harmed] | (Hrej & Hfired & Hd)].
      * rewrite Harmed. unfold onTimeout. simpl.
        rewrite list_lookup_alter_eq, Hc'. simpl.
        exists (settle (RejTimeout (c_timeout c') (c_host c') (c_port c'))
                  (set_timeoutId Fired c')).
        split.
        { destruct (c_socket c') as [sid|]; [destruct (negb _)|]; simpl;
            by rewrite list_alter_alter_eq, list_lookup_alter_eq, Hc'. }
        unfold settle. simpl. rewrite Hpend. simpl.
        do 4 (split; [done|]). right. rewrite Ht, Hh, Hp.
        do 2 (split; [done|]).
        intros sid Hsid. rewrite <- Hs in Hsid. rewrite Hsid.
        destruct (inv_link _ Hinv _ _ sid Hc' (or_introl Hsid)) as (s & Es & _).
        unfold sock_is_destroyed. simpl. rewrite Es.
        destruct (s_destroyed s) eqn:Ed; simpl; rewrite ?list_lookup_alter_eq, Es;
          simpl; done.
      * rewrite Hfired. exists c'. do 5 (split; [done|]). by right.
    + exists c'. rewrite fire_other_command by done.
      do 5 (split; [done|]).
      destruct Hcases as [? | (Hrej & Hfired & Hd)]; [by left | right].
      do 2 (split; [done|]). intros sid Hsid.
      eapply destroyed_evolves; [apply evolves_fire | by apply Hd].
  - assert (fire (TGrace j) st = st) as ->.
    { unfold fire. simpl. destruct (commands st !! j) as [cj|] eqn:E; [|done].
      simpl. by rewrite (ok_grace _ (inv_cmds _ Hinv _ _ E)). }
    exists c'. done.
Qed.

(** A command that is pending when its deadline comes is rejected with the
    timeout error by the time the loop has run the timers due; the socket
    that it holds, if it holds one, is destroyed. *)
Lemma advance_times_out cid c d T st :
  inv st -> commands st !! cid = Some c ->
  c_promise c = None -> c_timeoutId c = Armed d -> (d <= T)%Z ->
  exists c',
    commands (advance T st) !! cid = Some c' /\
    c_promise c' = Some (RejTimeout (c_timeout c) (c_host c) (c_port c)) /\
    c_timeoutId c' = Fired /\ c_socket c' = c_socket c /\
    forall sid, c_socket c = Some sid -> sock_is_destroyed sid (advance T st) = true.
Proof.
  intros Hinv Hc Hp Ht HT.
  assert (timing_out cid c d (advance T st))
    as (_ & c' & Hc' & _ & _ & _ & Hs & Hcases).
  { unfold advance.
    apply (fold_left_keeps (timing_out cid c d) (fun x => fire (snd x))).
    - intros x st1. apply timing_out_fire.
    - split; [by apply inv_set_now|]. exists c. simpl. eauto 10. }
  exists c'. split; [done|].
  destruct Hcases as [[_ Harmed] | (Hrej & Hfired & Hd)]; [|done].
  pose proof (timers_future_advance T st cid c' d Hc' Harmed) as Hlt.
  rewrite now_advance in Hlt. lia.
Qed.

(** ** The timeout and the registry *)

Lemma close_deletes_key st sid s :
  inv st -> sockets st !! sid = Some s -> s_closed s = false ->
  handle (Close sid) st =
    set_connections (JSMap.delete (s_key s) (connections st))
      (upd_sock sid sock_close st).
Proof.
  intros Hinv Hs Hc. simpl. rewrite Hs, Hc. simpl.
  rewrite (emit_close sid _ (sock_close s)); [done | |].
  - simpl. by rewrite list_lookup_alter_eq, Hs.
  - apply (inv_socks _ Hinv _ _ Hs).
Qed.

(** Once the close notification of a socket has been handled no entry of
    the map holds that socket, and if the socket was not closed before,
    the map has no entry for its key. *)
Lemma close_evicts st sid :
  inv st ->
  (forall k, ~ In (k, sid) (connections (handle (Close sid) st))) /\
  (forall s, sockets st !! sid = Some s -> s_closed s = false ->
     ~ In (s_key s) (listKeys (handle (Close sid) st))).
Proof.
  intros Hinv. split.
  - intros k Hin. destruct (sockets st !! sid) as [s|] eqn:Es.
    + destruct (s_closed s) eqn:Ec.
      * assert (handle (Close sid) st = st) as Hid by (simpl; by rewrite Es, Ec).
        rewrite Hid in Hin.
        destruct (inv_pool _ Hinv _ _ Hin) as (s' & Hs' & _ & Hc). congruence.
      * rewrite (close_deletes_key st sid s) in Hin by done.
        apply JSMapFacts.In_delete in Hin as [Hne Hin].
        destruct (inv_pool _ Hinv _ _ Hin) as (s' & Hs' & Hk & _). congruence.
    + assert (handle (Close sid) st = st) as Hid by (simpl; by rewrite Es).
      rewrite Hid in Hin.
      destruct (inv_pool _ Hinv _ _ Hin) as (s' & Hs' & _). congruence.
  - intros s Hs Hc. rewrite (close_deletes_key st sid s) by done.
    apply JSMapFacts.not_In_keys_delete.
Qed.

(** C6, as the code has it.  A command that is pending at its deadline is
    rejected with the timeout error.  If it holds a socket by then, that
    socket is destroyed, and once the close notification of the socket has
    been handled, whenever that is, no entry of the map holds the socket;
    if the socket had not closed before, the key of the command is not
    among the keys right after that notification. *)
Theorem timeout_destroys_the_acquired_connection tr cid c d T :
  commands (run init tr) !! cid = Some c ->
  c_promise c = None -> c_timeoutId c = Armed d -> (d <= T)%Z ->
  let st1 := advance T (run init tr) in
  promise cid st1 = Some (RejTimeout (c_timeout c) (c_host c) (c_port c)) /\
  forall sid, c_socket c = Some sid ->
    sock_is_destroyed sid st1 = true /\
    forall tr2,
      let st2 := run st1 tr2 in
      (forall k, ~ In (k, sid) (connections (handle (Close sid) st2))) /\
      (forall s, sockets st2 !! sid = Some s -> s_closed s = false ->
         ~ In (key_of (c_host c) (c_port c)) (listKeys (handle (Close sid) st2))).
Proof.
  intros Hc Hp Hd HT st1.
  assert (inv (run init tr)) as Hinv by apply inv_run, inv_new_adapter.
  destruct (advance_times_out cid c d T _ Hinv Hc Hp Hd HT)
    as (c' & Hc' & Hp' & _ & Hs' & Hdestroyed).
  fold st1 in Hc', Hdestroyed.
  split; [unfold promise; by rewrite Hc'|].
  intros sid Hsid. split; [by apply Hdestroyed|].
  intros tr2 st2.
  assert (inv st1) as Hinv1 by by apply inv_advance.
  assert (inv st2) as Hinv2 by by apply inv_run.
  destruct (close_evicts st2 sid Hinv2) as [Hnone Hkey].
  split; [done|]. intros s Hs Hclosed.
  rewrite Hsid in Hs'.
  destruct (inv_link _ Hinv1 cid c' sid Hc' (or_introl Hs')) as (s1 & Hs1 & Hk1).
  destruct (ev_sockets _ _ (evolves_run tr2 st1) _ _ Hs1) as (s2 & Hs2 & Hle).
  fold st2 in Hs2. rewrite Hs in Hs2. injection Hs2 as <-.
  pose proof (Hkey s Hs Hclosed) as Hnot.
  rewrite (le_key _ _ Hle), Hk1 in Hnot.
  destruct (ev_commands _ _ (evolves_advance T (run init tr)) _ _ Hc)
    as (c2 & Hc2 & Hle2).
  fold st1 in Hc2. rewrite Hc' in Hc2. injection Hc2 as <-.
  by rewrite (le_host _ _ Hle2), (le_port _ _ Hle2) in Hnot.
Qed.

Lemma timeout_destroys_the_acquired_connection_witness :
  let tr := [(0%Z, Call (js "localhost") 8080 (js "GET_STATUS") no_options);
             (1%Z, Connect 0)] in
  let st1 := advance 5000 (run init tr) in
  promise 0 st1 = Some (RejTimeout 5000 (js "localhost") 8080) /\
  sock_is_destroyed 0 st1 = true /\
  listKeys st1 = [js "localhost:8080"] /\
  ~ In (js "localhost:8080") (listKeys (handle (Close 0) (run st1 []))).
Proof.
  intros tr st1.
  destruct (commands (run init tr) !! 0) as [c|] eqn:E; [|discriminate E].
  assert (c_promise c = None /\ c_timeoutId c = Armed 5000 /\
          c_socket c = Some 0 /\ c_timeout c = 5000%Z /\
          c_host c = js "localhost" /\ c_port c = 8080%Z)
    as (Hp & Hd & Hs & Ht & Hh & Hport).
  { vm_compute in E. injection E as <-. repeat split; reflexivity. }
  destruct (timeout_destroys_the_acquired_connection tr 0 c 5000 5000 E Hp Hd)
    as [Hrej Hsock]; [lia|].
  destruct (Hsock 0 Hs) as [Hdes Hlater].
  destruct (Hlater []) as [_ Hkey].
  rewrite Ht, Hh, Hport in *.
  split; [exact Hrej|]. split; [exact Hdes|]. split; [reflexivity|].
  eapply Hkey; reflexivity.
Defined.

(** C6 as the spec has it fails when the timer fires while the socket is
    still connecting: the promise is rejected with the timeout error, no
    socket is destroyed, and the socket that connects afterwards is stored
    under the key and stays there, open. *)
Lemma timeout_while_connecting_keeps_the_connection :
  let st :=
    run init [(0%Z, Call (js "localhost") 8080 (js "GET_STATUS") no_options);
              (6000%Z, Connect 0)] in
  promise 0 st = Some (RejTimeout 5000 (js "localhost") 8080) /\
  sock_is_destroyed 0 st = false /\
  In (js "localhost:8080") (listKeys st) /\
  forall T, (6000 <= T)%Z ->
    sock_is_destroyed 0 (advance T st) = false /\
    In (js "localhost:8080") (listKeys (advance T st)).
Proof.
  intros st. split; [reflexivity|]. split; [reflexivity|].
  split; [left; reflexivity|].
  intros T HT.
  assert (advance T st = set_now T st) as ->.
  { unfold advance. replace (Z.max (now st) T) with T
      by (change (now st) with 6000%Z; lia).
    reflexivity. }
  split; [reflexivity | left; reflexivity].
Qed.

(** C8, as the code has it.  In every reachable state the map has one
    entry per key at most, and an entry holds a socket made for its key
    that has not closed; the close notification of a socket deletes,
    within its handling, the entry of the key of that socket, so that no
    entry holds the socket afterwards. *)
Theorem registry_has_one_open_entry_per_key tr :
  let st := run init tr in
  NoDup (listKeys st) /\
  (forall k sid, In (k, sid) (connections st) ->
     exists s, sockets st !! sid = Some s /\ s_key s = k /\ s_closed s = false) /\
  (forall sid s, sockets st !! sid = Some s -> s_closed s = false ->
     ~ In (s_key s) (listKeys (handle (Close sid) st))) /\
  (forall sid k, ~ In (k, sid) (connections (handle (Close sid) st))).
Proof.
  intros st.
  assert (inv st) as Hinv by apply inv_run, inv_new_adapter.
  split; [apply Hinv|]. split; [apply Hinv|].
  split.
  - intros sid. by apply close_evicts.
  - intros sid. by apply close_evicts.
Qed.

Lemma registry_has_one_open_entry_per_key_witness :
  let st :=
    run init [(0%Z, Call (js "localhost") 8080 (js "GET_STATUS") no_options);
              (1%Z, Connect 0)] in
  In (js "localhost:8080") (listKeys st) /\
  ~ In (js "localhost:8080") (listKeys (handle (Close 0) st)).
Proof.
  intros st. split; [left; reflexivity|].
  destruct (registry_has_one_open_entry_per_key
              [(0%Z, Call (js "localhost") 8080 (js "GET_STATUS") no_options);
               (1%Z, Connect 0)]) as (_ & _ & Hclose & _).
  destruct (sockets st !! 0) as [s|] eqn:E; [|discriminate E].
  assert (s_closed s = false /\ s_key s = js "localhost:8080") as [Hc Hk].
  { vm_compute in E. injection E as <-. split; reflexivity. }
  rewrite <- Hk. exact (Hclose 0 s E Hc).
Defined.

(** C8 as the spec has it fails for the error notification: when it has
    been handled the socket is destroyed and its entry is still in the
    map; the entry goes with the close notification. *)
Lemma error_notification_keeps_the_entry :
  let e := mkError (js "read ECONNRESET") (js "ECONNRESET") in
  let st :=
    run init [(0%Z, Call (js "localhost") 8080 (js "GET_STATUS") no_options);
              (1%Z, Connect 0); (2%Z, Error 0 e)] in
  sock_is_destroyed 0 st = true /\
  connections st = [(js "localhost:8080", 0)] /\
  connections (handle (Close 0) st) = [].
Proof. vm_compute. repeat split; reflexivity. Qed.

(** ** The timer and the connection *)

Lemma untouched_upd_sock i w b j g st :
  (forall s, s_written (g s) = s_written s /\ s_connecting (g s) = s_connecting s) ->
  socket_untouched i w b st -> socket_untouched i w b (upd_sock j g st).
Proof.
  intros Hg (s & Hs & Hw & Hb). unfold socket_untouched. simpl.
  rewrite list_lookup_alter. case_decide; subst; [|eauto].
  rewrite Hs. simpl. exists (g s). destruct (Hg s) as [-> ->]. done.
Qed.

Lemma untouched_fire i w b r st :
  socket_untouched i w b st -> socket_untouched i w b (fire r st).
Proof.
  intros H. unfold fire, onTimeout, onGrace, on_socket.
  repeat case_match; try done;
    repeat first [ apply untouched_upd_sock; [done|] | exact H
                 | match goal with
                   | |- socket_untouched _ _ _ (upd_cmd _ _ ?s) =>
                       change (socket_untouched i w b s)
                   end ].
Qed.

(** C10.  A call of [sendTCPCommand] that the runtime takes, its port one
    that [net.createConnection] takes and its encoding one that
    [socket.write] takes, arms the timeout timer for the time of the call
    plus the timeout, whether a pooled socket is at hand or not, and the
    timer is armed still when control returns to the event loop.  When the
    key is not in the map the call leaves the command suspended on a
    socket that is connecting and to which nothing has been written; if
    time then reaches the deadline, the promise is rejected with the
    timeout error while that socket is still connecting and nothing has
    been written to it. *)
Theorem timeout_is_armed_before_the_connection tr host port command opts T :
  valid_port port ->
  known_encoding (or_str (o_encoding opts) (js "utf8")) = true ->
  let st := run init tr in
  let timeout := or_num (o_timeout opts) (adapter_timeout st) in
  let deadline := (now st + timer_delay timeout)%Z in
  let cid := length (commands st) in
  let sid := length (sockets st) in
  let st1 := handle (Call host port command opts) st in
  (exists c, commands st1 !! cid = Some c /\
             c_timeoutId c = Armed deadline /\ c_promise c = None) /\
  (JSMap.has (key_of host port) (connections st) = false ->
   (exists c, commands st1 !! cid = Some c /\
              c_socket c = None /\ c_awaiting c = Some sid) /\
   socket_untouched sid [] true st1 /\
   ((deadline <= T)%Z ->
    promise cid (advance T st1) = Some (RejTimeout timeout host port) /\
    socket_untouched sid [] true (advance T st1))).
Proof.
  intros _ _ st timeout deadline cid sid st1.
  assert (inv st) as Hinv by apply inv_run, inv_new_adapter.
  set (c0 := mkCommand host port command timeout
               (or_str (o_encoding opts) (js "utf8"))
               (or_str (o_delimiter opts) [LF]) None (Armed deadline) Unset []
               None None).
  set (st0 := set_commands (commands st ++ [c0]) st).
  assert (commands st0 !! cid = Some c0) as E0.
  { simpl. rewrite lookup_app_r by (unfold cid; lia). by rewrite Nat.sub_diag. }
  assert (st1 = snd (match getConnection host port st0 with
                     | (Existing i, st2) => (cid, afterConnection cid i st2)
                     | (Connecting i, st2) =>
                         (cid, upd_cmd cid (set_awaiting (Some i)) st2)
                     end)) as Hst1 by reflexivity.
  pose proof (getConnection_spec host port st0) as Hg.
  split.
  - destruct (getConnection host port st0) as [[i|i] st2]; simpl in Hst1.
    + destruct Hg as (-> & _). rewrite Hst1. unfold afterConnection. rewrite E0.
      case_match; simpl; rewrite ?list_alter_alter_eq, list_lookup_alter_eq;
        change (commands st ++ [c0]) with (commands st0); rewrite E0; simpl;
        eauto.
    + destruct Hg as (-> & _ & m & _ & ->). rewrite Hst1. simpl.
      rewrite list_lookup_alter_eq.
      change (commands st ++ [c0]) with (commands st0). rewrite E0. simpl. eauto.
  - intros Hhas.
    assert (getConnection host port st0 =
            (Connecting sid,
             set_sockets (sockets st ++ [new_socket (key_of host port)]) st0))
      as Hget.
    { unfold getConnection. change (connections st0) with (connections st).
      by rewrite Hhas. }
    rewrite Hget in Hst1. simpl in Hst1.
    assert (commands st1 !! cid =
            Some (set_awaiting (Some sid) c0)) as E1.
    { rewrite Hst1. simpl. rewrite list_lookup_alter_eq.
      change (commands st ++ [c0]) with (commands st0). by rewrite E0. }
    assert (socket_untouched sid [] true st1) as Hs1.
    { exists (new_socket (key_of host port)). rewrite Hst1. simpl.
      rewrite lookup_app_r by (unfold sid; lia). by rewrite Nat.sub_diag. }
    split; [eauto|]. split; [done|]. intros HT.
    assert (inv st1) as Hinv1 by by apply inv_handle.
    destruct (advance_times_out cid _ deadline T st1 Hinv1 E1) as
      (c' & Hc' & Hp' & _); try done.
    split; [unfold promise; by rewrite Hc'|].
    unfold advance.
    apply (fold_left_keeps (socket_untouched sid [] true) (fun x => fire (snd x)));
      [intros; by apply untouched_fire | done].
Qed.

Lemma timeout_is_armed_before_the_connection_witness :
  let st1 := handle (Call (js "localhost") 8080 (js "GET_STATUS") no_options)
               (run init []) in
  (c_timeoutId <$> commands st1 !! 0) = Some (Armed 5000) /\
  promise 0 (advance 5000 st1) = Some (RejTimeout 5000 (js "localhost") 8080) /\
  socket_untouched 0 [] true (advance 5000 st1).
Proof.
  intros st1.
  destruct (timeout_is_armed_before_the_connection []
              (js "localhost") 8080 (js "GET_STATUS") no_options 5000)
    as [_ Hmiss]; [unfold valid_port; lia | reflexivity |].
  destruct Hmiss as (_ & _ & Hfire); [reflexivity|].
  destruct Hfire as [Hrej Hsock]; [vm_compute; discriminate|].
  split; [reflexivity|]. split; [exact Hrej | exact Hsock].
Defined.

(** * Further properties *)

(** ** Predicates kept by the updates of a handler

    Each handler is a sequence of updates of one command, of one socket, of
    the map, and of the two stores.  A predicate that the updates of a
    handler keep is kept by the handler; the lemmas of this section ask, for
    each handler, for the updates that it makes and for no other. *)

Section Kept.
Variable P : state -> Prop.
Variable okc : (command -> command) -> Prop.
Variable oks : (socket -> socket) -> Prop.
Hypothesis K_cmd : forall cid f st, okc f -> P st -> P (upd_cmd cid f st).
Hypothesis K_sock : forall sid g st, oks g -> P st -> P (upd_sock sid g st).
Hypothesis K_conn : forall m st, P st -> P (set_connections m st).
Hypothesis K_new_sock :
  forall key st, P st -> P (set_sockets (sockets st ++ [new_socket key]) st).
Hypothesis K_new_cmd :
  forall host port text opts st,
    P st ->
    P (set_commands (commands st ++ [fresh_command host port text opts st]) st).
Hypothesis kc_data : forall d, okc (set_responseData d).
Hypothesis kc_clear : okc clear_timeout.
Hypothesis kc_resolved : forall r, okc (settle (Resolved r)).
Hypothesis kc_tcp : forall m k, okc (settle (RejTCP m k)).
Hypothesis kc_connect : forall h p m k, okc (settle (RejConnect h p m k)).
Hypothesis kc_timeout : forall t h p, okc (settle (RejTimeout t h p)).
Hypothesis kc_socket : forall sid, okc (set_socket (Some sid)).
Hypothesis kc_grace : forall t, okc (set_graceId t).
Hypothesis kc_fired : okc (set_timeoutId Fired).
Hypothesis kc_resumed : okc (set_awaiting None).
Hypothesis kc_awaiting : forall sid, okc (set_awaiting (Some sid)).
Hypothesis ks_on : forall ev l, oks (sock_on ev l).
Hypothesis ks_remove_data : forall cid, oks (sock_removeListener EvData (OnData cid)).
Hypothesis ks_remove_error :
  forall cid, oks (sock_removeListener EvError (OnError cid)).
Hypothesis ks_write : forall d e, oks (sock_write d e).
Hypothesis ks_destroy : oks sock_destroy.
Hypothesis ks_close : oks sock_close.
Hypothesis ks_connected : oks sock_connected.
Hypothesis ks_promise : forall p, oks (set_promise p).

Lemma kept_on_socket c g st : oks g -> P st -> P (on_socket c g st).
Proof.
  intros Hg H. unfold on_socket. destruct (c_socket c); [|done]. by apply K_sock.
Qed.

Ltac kept :=
  repeat first
    [ assumption
    | apply K_cmd; [solve [auto] |]
    | apply K_sock; [solve [auto] |]
    | apply kept_on_socket; [solve [auto] |]
    | case_match ].

Lemma kept_onData cid chunk st : P st -> P (onData cid chunk st).
Proof. intros. unfold onData. kept. Qed.

Lemma kept_onError cid e st : P st -> P (onError cid e st).
Proof. intros. unfold onError. kept. Qed.

Lemma kept_onTimeout cid st : P st -> P (onTimeout cid st).
Proof. intros. unfold onTimeout. kept. Qed.

Lemma kept_onGrace cid st : P st -> P (onGrace cid st).
Proof. intros. unfold onGrace. kept. Qed.

Lemma kept_afterConnection cid sid st : P st -> P (afterConnection cid sid st).
Proof. intros. unfold afterConnection. kept. Qed.

Lemma kept_onCatch cid e st : P st -> P (onCatch cid e st).
Proof. intros. unfold onCatch. kept. Qed.

Lemma kept_resume sid k st :
  (forall cid st1, P st1 -> P (k cid st1)) -> P st -> P (resume sid k st).
Proof.
  intros Hk H. unfold resume. apply fold_left_keeps; [|done].
  intros cid st1 H1. unfold resume_one. repeat case_match; auto.
Qed.

Lemma kept_resolve_acquire sid st : P st -> P (resolve_acquire sid st).
Proof.
  intros H. unfold resolve_acquire. repeat case_match; try done.
  apply kept_resume; [auto using kept_afterConnection | by kept].
Qed.

Lemma kept_reject_acquire sid e st : P st -> P (reject_acquire sid e st).
Proof.
  intros H. unfold reject_acquire. repeat case_match; try done.
  apply kept_resume; [auto using kept_onCatch | by kept].
Qed.

Lemma kept_emit_data sid chunk st : P st -> P (emit sid EvData (PData chunk) st).
Proof.
  intros H. unfold emit. case_match; [|done].
  apply fold_left_keeps; [|done]. intros l st1 H1. unfold call.
  repeat case_match; auto using kept_onData.
Qed.

Lemma kept_emit_error sid e st : P st -> P (emit sid EvError (PError e) st).
Proof.
  intros H. unfold emit. case_match; [|done].
  apply fold_left_keeps; [|done]. intros l st1 H1. unfold call.
  repeat case_match; auto using kept_onError, kept_reject_acquire.
Qed.

Lemma kept_emit_close sid st : P st -> P (emit sid EvClose PClose st).
Proof.
  intros H. unfold emit. case_match; [|done].
  apply fold_left_keeps; [|done]. intros l st1 H1. unfold call.
  repeat case_match; auto.
Qed.

Lemma kept_getConnection host port st :
  P st -> P (snd (getConnection host port st)).
Proof.
  intros. unfold getConnection, createConnection.
  repeat case_match; cbn [snd]; auto.
Qed.

Lemma kept_sendTCPCommand host port command opts st :
  P st -> P (snd (sendTCPCommand host port command opts st)).
Proof.
  intros H. unfold sendTCPCommand.
  change (mkCommand _ _ _ _ _ _ _ _ _ _ _ _)
    with (fresh_command host port command opts st).
  set (c := fresh_command host port command opts st).
  pose proof (kept_getConnection host port
                (set_commands (commands st ++ [c]) st)) as Hg.
  destruct (getConnection _ _ _) as [[sid|sid] st2]; simpl in *.
  - apply kept_afterConnection, Hg. by apply K_new_cmd.
  - apply K_cmd; [auto|]. apply Hg. by apply K_new_cmd.
Qed.

Lemma kept_closeAll st : P st -> P (closeAll st).
Proof.
  intros H. unfold closeAll. apply K_conn.
  apply fold_left_keeps; [|done]. intros. by kept.
Qed.

Lemma kept_connect sid st : P st -> P (handle (Connect sid) st).
Proof.
  intros H. simpl. repeat case_match; [|done..].
  apply kept_resolve_acquire, K_conn. by kept.
Qed.

Lemma kept_data sid chunk st : P st -> P (handle (Data sid chunk) st).
Proof.
  intros H. simpl. repeat case_match; [|done..]. by apply kept_emit_data.
Qed.

Lemma kept_error sid e st : P st -> P (handle (Error sid e) st).
Proof.
  intros H. simpl. repeat case_match; [|done..]. apply kept_emit_error. by kept.
Qed.

Lemma kept_close sid st : P st -> P (handle (Close sid) st).
Proof.
  intros H. simpl. repeat case_match; [|done..]. apply kept_emit_close. by kept.
Qed.

Lemma kept_handle e st : P st -> P (handle e st).
Proof.
  intros H. destruct e.
  - by apply kept_sendTCPCommand.
  - by apply kept_connect.
  - by apply kept_data.
  - by apply kept_error.
  - by apply kept_close.
  - by apply kept_closeAll.
Qed.

Lemma kept_fire r st : P st -> P (fire r st).
Proof.
  intros H. unfold fire. repeat case_match; auto.
  - apply kept_onTimeout. by kept.
  - apply kept_onGrace. by kept.
Qed.

Hypothesis K_now : forall t st, P st -> P (set_now t st).

Lemma kept_advance T st : P st -> P (advance T st).
Proof.
  intros H. unfold advance.
  apply (fold_left_keeps P (fun x => fire (snd x))); auto using kept_fire.
Qed.

Lemma kept_run tr st : P st -> P (run st tr).
Proof.
  revert st. induction tr as [|[t e] tr IH]; simpl; [done|].
  intros st H. by apply IH, kept_handle, kept_advance.
Qed.

End Kept.

(** ** Who writes to a socket *)

Lemma written_upd_sock sid i g st :
  (forall s, s_written (g s) = s_written s) ->
  written sid (upd_sock i g st) = written sid st.
Proof.
  intros Hg. unfold written. simpl. rewrite list_lookup_alter.
  case_decide; subst; [|done]. destruct (sockets st !! sid); simpl; auto.
Qed.

Lemma written_new_socket sid key st :
  written sid (set_sockets (sockets st ++ [new_socket key]) st) = written sid st.
Proof.
  unfold written. simpl.
  destruct (sockets st !! sid) as [s|] eqn:E.
  - by rewrite (lookup_app_l_Some _ _ _ _ E).
  - apply lookup_ge_None in E. rewrite lookup_app_r by done.
    by destruct (sid - length (sockets st)) as [|[|k]].
Qed.

(** X1.  The events of a socket that bring data, an error or the close,
    [stop()] and the passing of time with the timers that it fires never
    write to a socket: whatever is written is written when a command gets
    its socket, at the call or in the connect callback. *)
Theorem only_a_command_getting_its_socket_writes st sid :
  (forall i chunk, written sid (handle (Data i chunk) st) = written sid st) /\
  (forall i e, written sid (handle (Error i e) st) = written sid st) /\
  (forall i, written sid (handle (Close i) st) = written sid st) /\
  written sid (handle Stop st) = written sid st /\
  (forall T, written sid (advance T st) = written sid st).
Proof.
  set (P := fun st' => written sid st' = written sid st).
  set (okc := fun _ : command -> command => True).
  set (oks := fun g : socket -> socket => forall s, s_written (g s) = s_written s).
  assert (forall cid f st1, okc f -> P st1 -> P (upd_cmd cid f st1)) as K1 by done.
  assert (forall i g st1, oks g -> P st1 -> P (upd_sock i g st1)) as K2.
  { intros i g st1 Hg H1. unfold P. by rewrite written_upd_sock. }
  assert (forall m st1, P st1 -> P (set_connections m st1)) as K3 by done.
  repeat split.
  - intros i chunk. by apply (kept_data P okc oks).
  - intros i e. by apply (kept_error P okc oks).
  - intros i. by apply (kept_close P oks).
  - by apply (kept_closeAll P oks).
  - intros T. by apply (kept_advance P okc oks).
Qed.

(** ** The timeout error and the deadline *)

Lemma In_due_inv T st d r :
  In (d, r) (due T st) -> timer_of r st = Armed d /\ (d <= T)%Z.
Proof.
  unfold due. intros (cid & _ & Hin)%in_flat_map.
  apply in_app_or in Hin.
  assert (forall r0, In (d, r) (armed_by T r0 st) ->
            timer_of r st = Armed d /\ (d <= T)%Z) as Harmed.
  { intros r0. unfold armed_by. destruct (timer_of r0 st) eqn:E; try done.
    destruct (deadline <=? T)%Z eqn:El; [|done].
    intros [[= <- <-] | []]. split; [done | by apply Z.leb_le]. }
  destruct Hin; eauto.
Qed.

Lemma not_timed_out_kept_cmd cid j f st :
  (forall c t h p, c_promise c <> Some (RejTimeout t h p) ->
                   c_promise (f c) <> Some (RejTimeout t h p)) ->
  not_timed_out cid st -> not_timed_out cid (upd_cmd j f st).
Proof.
  intros Hf H c t h p. simpl. rewrite list_lookup_alter.
  case_decide; subst; [|apply H].
  destruct (commands st !! cid) as [c0|] eqn:E; simpl; [|done].
  intros [= <-]. apply Hf. by apply (H c0).
Qed.

Lemma settle_not_timeout o c t h p :
  o <> RejTimeout t h p ->
  c_promise c <> Some (RejTimeout t h p) ->
  c_promise (settle o c) <> Some (RejTimeout t h p).
Proof.
  intros Ho Hc. unfold settle. destruct (c_promise c) eqn:E; simpl; congruence.
Qed.

(** No event rejects a promise with the timeout error: the callback of the
    timer does. *)
Lemma not_timed_out_handle cid e st :
  not_timed_out cid st -> not_timed_out cid (handle e st).
Proof.
  set (okc := fun f : command -> command =>
    forall c t h p, c_promise c <> Some (RejTimeout t h p) ->
                    c_promise (f c) <> Some (RejTimeout t h p)).
  set (oks := fun _ : socket -> socket => True).
  assert (forall j f st1, okc f -> not_timed_out cid st1 ->
            not_timed_out cid (upd_cmd j f st1)) as K1.
  { intros j f st1 Hf. by apply not_timed_out_kept_cmd. }
  assert (forall host port text opts st1, not_timed_out cid st1 ->
            not_timed_out cid
              (set_commands
                 (commands st1 ++ [fresh_command host port text opts st1]) st1))
    as K2.
  { intros host port text opts st1 H c t h p. simpl.
    intros [Hl | [_ Hl]]%lookup_app_Some; [by apply (H c)|].
    by apply list_lookup_singleton_Some in Hl as [_ <-]. }
  apply (kept_handle (not_timed_out cid) okc oks); try done;
    intros; intros ? ? ? ? ?; simpl;
    first [assumption | by apply settle_not_timeout].
Qed.

Lemma not_timed_out_grace cid j st :
  not_timed_out cid st -> not_timed_out cid (fire (TGrace j) st).
Proof.
  intros H. unfold fire. destruct (timer_of _ _); try done.
  set (okc := fun f : command -> command =>
    forall c t h p, c_promise c <> Some (RejTimeout t h p) ->
                    c_promise (f c) <> Some (RejTimeout t h p)).
  set (oks := fun _ : socket -> socket => True).
  assert (forall j f st1, okc f -> not_timed_out cid st1 ->
            not_timed_out cid (upd_cmd j f st1)) as K1.
  { intros i f st1 Hf. by apply not_timed_out_kept_cmd. }
  apply (kept_onGrace (not_timed_out cid) okc oks); try done;
    try (intros; intros ? ? ? ? ?; simpl;
         first [assumption | by apply settle_not_timeout]).
  apply K1; [|done]. by intros ? ? ? ? ?.
Qed.

(** X2.  A command that is pending with its timer armed for [d] is not
    rejected with the timeout error as long as the clock has not reached
    [d], whatever events come. *)
Theorem no_timeout_error_before_the_deadline st cid c d tr :
  commands st !! cid = Some c ->
  c_promise c = None -> c_timeoutId c = Armed d ->
  (now (run st tr) < d)%Z ->
  not_timed_out cid (run st tr).
Proof.
  intros Hc Hp Hd.
  assert (forall st', evolves st st' ->
            ((d <= now st')%Z \/ not_timed_out cid st') ->
            (d <= now (run st' tr))%Z \/ not_timed_out cid (run st' tr)) as Hrun.
  { induction tr as [|[T e] tr IH]; intros st' Hev HQ; simpl; [done|].
    apply IH.
    { eapply evolves_trans; [exact Hev|].
      eapply evolves_trans; [apply evolves_advance | apply evolves_handle]. }
    rewrite now_handle, now_advance.
    destruct (Z.le_gt_cases d (Z.max (now st') T)) as [Hle | Hgt]; [by left|].
    right. apply not_timed_out_handle.
    destruct HQ as [Hnow | HQ]; [lia|].
    unfold advance.
    set (st1 := set_now (Z.max (now st') T) st').
    assert (not_timed_out cid st1) as H1 by done.
    assert (evolves st st1) as Hev1.
    { eapply evolves_trans; [exact Hev|].
      split; simpl; [lia | done | |]; eauto using cmd_le_refl, sock_le_refl. }
    assert (forall x, In x (by_deadline (due (now st1) st1)) ->
              snd x <> TTimeout cid) as Hnot.
    { intros [d' r] Hin Hr. apply (proj1 (In_by_deadline _ _)) in Hin.
      simpl in Hr. subst r.
      apply In_due_inv in Hin as [Harmed Hle]. simpl in Harmed, Hle.
      destruct (ev_commands _ _ Hev1 _ _ Hc) as (c1 & Hc1 & Hle1).
      change (commands st1) with (commands st') in Hc1.
      rewrite Hc1 in Harmed. simpl in Harmed.
      apply (le_timer _ _ Hle1) in Harmed. rewrite Hd in Harmed.
      injection Harmed as <-. lia. }
    revert Hnot H1. generalize (by_deadline (due (now st1) st1)).
    clearbody st1. clear.
    intros l. revert st1. induction l as [|[d' r] l IH]; intros st1 Hnot H1;
      simpl; [done|].
    apply IH; [intros x Hx; apply Hnot; by right|].
    destruct r as [j|j]; [|by apply not_timed_out_grace].
    intros c t h p. rewrite fire_other_command; [apply H1|].
    intros ->. by apply (Hnot (d', TTimeout cid)); [left|]. }
  intros Hnow.
  destruct (Hrun st (evolves_refl st)) as [Hle | H]; [|lia | done].
  right. intros c0 t h p Hc0. rewrite Hc in Hc0. injection Hc0 as <-.
  by rewrite Hp.
Qed.

Lemma no_timeout_error_before_the_deadline_witness :
  let st := run init [(0%Z, Call (js "localhost") 8080 (js "GET_STATUS") no_options)] in
  not_timed_out 0
    (run st [(1%Z, Connect 0); (4999%Z, Close 0); (4999%Z, Stop)]).
Proof.
  intros st.
  destruct (commands st !! 0) as [c|] eqn:E; [|discriminate E].
  assert (c_promise c = None /\ c_timeoutId c = Armed 5000) as [Hp Hd].
  { vm_compute in E. injection E as <-. split; reflexivity. }
  apply (no_timeout_error_before_the_deadline st 0 c 5000 _ E Hp Hd).
  vm_compute. reflexivity.
Defined.

(** ** The timeout 0 *)

(** The command that a call makes, as it is when control returns to the
    event loop. *)
Lemma sendTCPCommand_new_command host port text opts st :
  exists c,
    commands (snd (sendTCPCommand host port text opts st)) !! length (commands st)
      = Some c /\
    c_promise c = None /\
    c_timeoutId c =
      Armed (now st + timer_delay (or_num (o_timeout opts) (adapter_timeout st))) /\
    c_timeout c = or_num (o_timeout opts) (adapter_timeout st) /\
    c_host c = host /\ c_port c = port.
Proof.
  set (P := fun st' : state =>
    exists c,
      commands st' !! length (commands st) = Some c /\
      c_promise c = None /\
      c_timeoutId c =
        Armed (now st + timer_delay (or_num (o_timeout opts) (adapter_timeout st))) /\
      c_timeout c = or_num (o_timeout opts) (adapter_timeout st) /\
      c_host c = host /\ c_port c = port).
  set (okc := fun f : command -> command =>
    forall c, c_promise (f c) = c_promise c /\
              c_timeoutId (f c) = c_timeoutId c /\
              c_timeout (f c) = c_timeout c /\
              c_host (f c) = c_host c /\ c_port (f c) = c_port c).
  set (oks := fun _ : socket -> socket => True).
  assert (forall cid f st1, okc f -> P st1 -> P (upd_cmd cid f st1)) as K1.
  { intros cid f st1 Hf (c & Hc & H1 & H2 & H3 & H4 & H5). unfold P. simpl.
    rewrite list_lookup_alter.
    destruct (decide (cid = length (commands st))) as [->|Hne]; [|eauto 10].
    rewrite Hc. simpl. exists (f c). destruct (Hf c) as (-> & -> & -> & -> & ->).
    done. }
  assert (forall sid g st1, oks g -> P st1 -> P (upd_sock sid g st1)) as K2 by done.
  change (P (snd (sendTCPCommand host port text opts st))).
  unfold sendTCPCommand.
  set (c := mkCommand _ _ _ _ _ _ _ _ _ _ _ _).
  set (st1 := set_commands (commands st ++ [c]) st).
  assert (P st1) as H1.
  { exists c. split; [|done]. simpl. rewrite lookup_app_r by done.
    by rewrite Nat.sub_diag. }
  pose proof (getConnection_spec host port st1) as Hg.
  destruct (getConnection host port st1) as [[sid|sid] st2]; cbn [snd].
  - destruct Hg as (-> & _). by apply (kept_afterConnection P okc oks).
  - destruct Hg as (_ & _ & m & _ & ->). apply K1; [done|]. exact H1.
Qed.

(** X3.  A timeout of 0 is no timeout of the adapter nor of a command: the
    adapter made with it, or with none, has the default 5000, and in
    every state of every adapter no command has the timeout 0.  A call
    whose options give the timeout 0, or none, takes the timeout of the
    adapter, whatever that is: it is the timeout that the timeout error
    of the command quotes whenever the command gets that error, and, for
    a call that the runtime takes, the timer of the command is armed for
    the time of the call plus that timeout. *)
Theorem timeout_zero_selects_the_default t tr host port text opts :
  let st := run (new_adapter t) tr in
  let cid := length (commands st) in
  let st1 := handle (Call host port text opts) st in
  adapter_timeout st = or_num t 5000 /\
  timeouts_nonzero st /\
  new_adapter (Some 0%Z) = new_adapter None /\
  (o_timeout opts = Some 0%Z \/ o_timeout opts = None ->
   (c_timeout <$> commands st1 !! cid) = Some (adapter_timeout st) /\
   (forall tr' t' h p,
      promise cid (run st1 tr') = Some (RejTimeout t' h p) ->
      t' = adapter_timeout st) /\
   (valid_port port ->
    known_encoding (or_str (o_encoding opts) (js "utf8")) = true ->
    (c_timeoutId <$> commands st1 !! cid)
      = Some (Armed (now st + timer_delay (adapter_timeout st))))).
Proof.
  intros st cid st1.
  assert (or_num t 5000 <> 0%Z) as Hnz.
  { unfold or_num. destruct t as [v|]; [|done].
    destruct (v =? 0)%Z eqn:E; [done|]. by apply Z.eqb_neq. }
  split; [|split; [|split; [reflexivity|]]].
  - apply (ev_adapter _ _ (evolves_run tr (new_adapter t))).
  - set (okc := fun f : command -> command => forall c, c_timeout (f c) = c_timeout c).
    set (oks := fun _ : socket -> socket => True).
    apply (kept_run timeouts_nonzero okc oks); try done.
    + intros j f st2 Hf [H1 H2]. split; [done|]. intros i c. simpl.
      rewrite list_lookup_alter. case_decide; subst; [|apply H2].
      destruct (commands st2 !! i) as [c0|] eqn:E; simpl; [|done].
      intros [= <-]. rewrite Hf. by apply (H2 i).
    + intros host0 port0 text0 opts0 st2 [H1 H2]. split; [done|]. intros j c.
      simpl. intros [Hl | [_ Hl]]%lookup_app_Some; [by apply (H2 j)|].
      apply list_lookup_singleton_Some in Hl as [_ <-]. simpl.
      unfold or_num. destruct (o_timeout opts0) as [v|]; [|done].
      destruct (v =? 0)%Z eqn:E; [done|]. by apply Z.eqb_neq.
    + intros r c. unfold settle. by destruct (c_promise c).
    + intros m k c. unfold settle. by destruct (c_promise c).
    + intros h p m k c. unfold settle. by destruct (c_promise c).
    + intros t0 h p c. unfold settle. by destruct (c_promise c).
  - intros Hopt. unfold cid.
    destruct (sendTCPCommand_new_command host port text opts st)
      as (c & Hc & Hp & Hd & Hto & _).
    assert (or_num (o_timeout opts) (adapter_timeout st) = adapter_timeout st)
      as Hnum by (by destruct Hopt as [-> | ->]).
    rewrite Hnum in Hd, Hto.
    change (snd (sendTCPCommand host port text opts st)) with st1 in Hc.
    split; [by rewrite Hc; simpl; rewrite Hto|].
    split; [|by intros _ _; rewrite Hc; simpl; rewrite Hd].
    intros tr' t' h p Hrej.
    assert (inv (run st1 tr')) as Hinv.
    { apply inv_run, inv_handle, inv_run, inv_new_adapter. }
    destruct (ev_commands _ _ (evolves_run tr' st1) _ _ Hc) as (c' & Hc' & Hle).
    unfold promise in Hrej. rewrite Hc' in Hrej. simpl in Hrej.
    destruct (ok_timeout _ (inv_cmds _ Hinv _ _ Hc') _ _ _ Hrej) as (-> & _).
    by rewrite (le_timeout _ _ Hle).
Qed.

Lemma timeout_zero_selects_the_default_witness :
  let st := new_adapter (Some 3000%Z) in
  let st1 :=
    handle (Call (js "localhost") 8080 (js "GET_STATUS")
              (mkOptions (Some 0%Z) None None)) st in
  (c_timeout <$> commands st1 !! 0) = Some 3000%Z /\
  (c_timeoutId <$> commands st1 !! 0) = Some (Armed 3000) /\
  promise 0 (run st1 [(3000%Z, Stop)])
    = Some (RejTimeout 3000 (js "localhost") 8080).
Proof.
  intros st st1.
  destruct (timeout_zero_selects_the_default (Some 3000%Z) []
              (js "localhost") 8080 (js "GET_STATUS")
              (mkOptions (Some 0%Z) None None))
    as (_ & _ & _ & Hcall).
  destruct Hcall as (H1 & _ & H3); [by left|].
  split; [exact H1|]. split; [|reflexivity].
  apply H3; [unfold valid_port; lia | reflexivity].
Defined.

(** ** stop() and closeAll() *)

Lemma closeAll_fold_evolves (l : list nat) st :
  evolves st
    (fold_left
       (fun st sid =>
          if negb (sock_is_destroyed sid st) then upd_sock sid sock_destroy st
          else st) l st).
Proof.
  apply (fold_left_keeps (evolves st)
           (fun sid st =>
              if negb (sock_is_destroyed sid st) then upd_sock sid sock_destroy st
              else st)); [|apply evolves_refl].
  intros i st1 H1. case_match; [|done].
  apply (st_upd_sock _ (stable_evolves st)); [apply sock_mono_destroy | done].
Qed.

Lemma closeAll_fold_destroys (l : list nat) i st :
  In i l -> is_Some (sockets st !! i) ->
  sock_is_destroyed i
    (fold_left
       (fun st sid =>
          if negb (sock_is_destroyed sid st) then upd_sock sid sock_destroy st
          else st) l st) = true.
Proof.
  revert st. induction l as [|i0 l IH]; intros st Hin [s Hs]; [done|]. simpl.
  set (st1 := if negb (sock_is_destroyed i0 st) then upd_sock i0 sock_destroy st
              else st).
  assert (evolves st st1) as Hev.
  { unfold st1. case_match; [|apply evolves_refl].
    apply (st_upd_sock _ (stable_evolves st));
      [apply sock_mono_destroy | apply evolves_refl]. }
  destruct (ev_sockets _ _ Hev _ _ Hs) as (s1 & Hs1 & _).
  destruct (decide (i = i0)) as [->|Hne].
  - eapply destroyed_evolves; [apply closeAll_fold_evolves|].
    unfold st1, sock_is_destroyed. rewrite Hs.
    destruct (s_destroyed s) eqn:Ed; simpl; [by rewrite Hs|].
    by rewrite list_lookup_alter_eq, Hs.
  - apply IH; [|eauto]. by destruct Hin as [->|].
Qed.

Lemma closeAll_fold_spares (l : list nat) i st :
  ~ In i l ->
  sockets
    (fold_left
       (fun st sid =>
          if negb (sock_is_destroyed sid st) then upd_sock sid sock_destroy st
          else st) l st) !! i = sockets st !! i.
Proof.
  revert st. induction l as [|i0 l IH]; intros st Hnot; simpl; [done|].
  rewrite IH by (intros Hin; apply Hnot; by right).
  case_match; [|done]. simpl. apply list_lookup_alter_ne.
  intros ->. apply Hnot. by left.
Qed.

(** X4.  [closeAll()], and so [stop()], leaves the map empty and every
    socket that the map held destroyed; it settles no promise and changes
    no command, so that a command that was pending is pending still; done
    twice it does what it does once. *)
Theorem closeAll_releases_the_pool st :
  reachable st ->
  count (closeAll st) = 0 /\
  (forall k sid, In (k, sid) (connections st) ->
     sock_is_destroyed sid (closeAll st) = true) /\
  commands (closeAll st) = commands st /\
  closeAll (closeAll st) = closeAll st.
Proof.
  intros [Hinv _]%reachable_inv. split; [done|]. split; [|split].
  - intros k sid Hin. destruct (inv_pool _ Hinv _ _ Hin) as (s & Hs & _).
    unfold closeAll.
    change (sock_is_destroyed sid (set_connections [] ?x))
      with (sock_is_destroyed sid x).
    apply closeAll_fold_destroys; [|eauto].
    apply in_map_iff. by exists (k, sid).
  - unfold closeAll. simpl.
    apply (fold_left_keeps (fun st1 => commands st1 = commands st)
             (fun sid st =>
                if negb (sock_is_destroyed sid st)
                then upd_sock sid sock_destroy st else st)); [|done].
    intros i st1 H1. by case_match.
  - reflexivity.
Qed.

Lemma closeAll_releases_the_pool_witness :
  let st :=
    run init [(0%Z, Call (js "localhost") 8080 (js "GET_STATUS") no_options);
              (1%Z, Connect 0)] in
  count st = 1 /\ promise 0 st = None /\
  count (closeAll st) = 0 /\ sock_is_destroyed 0 (closeAll st) = true /\
  promise 0 (closeAll st) = None.
Proof.
  intros st.
  destruct (closeAll_releases_the_pool st) as (H1 & H2 & H3 & _);
    [by exists [(0%Z, Call (js "localhost") 8080 (js "GET_STATUS") no_options);
                (1%Z, Connect 0)]|].
  split; [reflexivity|]. split; [reflexivity|]. split; [exact H1|].
  split; [apply (H2 (js "localhost:8080")); left; reflexivity|].
  unfold promise. rewrite H3. reflexivity.
Defined.

(** X5.  [closeAll()] touches the sockets of the map only: a socket that
    is still connecting is left as it is, and when it connects after
    [stop()] its connect callback stores it in the map that [stop()] had
    emptied. *)
Theorem a_connect_after_stop_is_pooled st sid s :
  sockets st !! sid = Some s ->
  s_connecting s = true -> s_destroyed s = false ->
  ~ In sid (JSMap.values (connections st)) ->
  sockets (handle Stop st) !! sid = Some s /\
  connections (handle (Connect sid) (handle Stop st)) = [(s_key s, sid)] /\
  sock_is_destroyed sid (handle (Connect sid) (handle Stop st)) = false.
Proof.
  intros Hs Hc Hd Hnot.
  assert (sockets (handle Stop st) !! sid = Some s) as Hs'.
  { change (handle Stop st) with (closeAll st). unfold closeAll.
    change (sockets (set_connections [] ?x)) with (sockets x).
    by rewrite closeAll_fold_spares. }
  split; [done|].
  set (st1 := handle Stop st) in *.
  assert (connections st1 = []) as Hempty by reflexivity.
  change (handle (Connect sid) st1) with
    (match sockets st1 !! sid with
     | Some s =>
         if s_connecting s && negb (s_destroyed s) then
           resolve_acquire sid
             (set_connections
                (JSMap.set (s_key s) sid
                   (connections (upd_sock sid sock_connected st1)))
                (upd_sock sid sock_connected st1))
         else st1
     | None => st1
     end).
  rewrite Hs', Hc, Hd. simpl andb. cbv iota.
  rewrite connections_upd_sock, Hempty. simpl JSMap.set.
  clearbody st1.
  set (st2 := set_connections _ _).
  split.
  - apply (kept_resolve_acquire (fun st' => connections st' = [(s_key s, sid)])
             (fun _ => True) (fun _ => True)); done.
  - apply (kept_resolve_acquire (fun st' => sock_is_destroyed sid st' = false)
             (fun _ => True)
             (fun g => forall s0, s_destroyed (g s0) = s_destroyed s0)); try done.
    + intros i g st' Hg H. unfold sock_is_destroyed in *. simpl.
      rewrite list_lookup_alter. case_decide; subst; [|done].
      destruct (sockets st' !! sid); simpl; [by rewrite Hg | done].
    + unfold st2, sock_is_destroyed. simpl.
      rewrite list_lookup_alter_eq, Hs'. simpl. done.
Qed.

Lemma a_connect_after_stop_is_pooled_witness :
  let st := run init [(0%Z, Call (js "localhost") 8080 (js "GET_STATUS") no_options)] in
  count (handle Stop st) = 0 /\
  connections (handle (Connect 0) (handle Stop st)) = [(js "localhost:8080", 0)] /\
  sock_is_destroyed 0 (handle (Connect 0) (handle Stop st)) = false.
Proof.
  intros st.
  destruct (a_connect_after_stop_is_pooled st 0 (new_socket (js "localhost:8080")))
    as (_ & H2 & H3); [reflexivity | reflexivity | reflexivity | simpl; tauto |].
  split; [reflexivity|]. split; [exact H2 | exact H3].
Defined.

(** ** Entries of the map that outlive their socket *)

Lemma get_set_eq {V} k (v : V) m : JSMap.get k (JSMap.set k v m) = Some v.
Proof.
  induction m as [|[k1 v1] m IH]; simpl.
  - by rewrite bool_decide_eq_true_2.
  - case_bool_decide as Hk; simpl.
    + by rewrite bool_decide_eq_true_2.
    + by rewrite bool_decide_eq_false_2.
Qed.

Lemma connect_new_socket sid st key :
  sockets st !! sid = Some (new_socket key) ->
  handle (Connect sid) st =
    resolve_acquire sid
      (set_connections (JSMap.set key sid (connections st))
         (upd_sock sid sock_connected st)).
Proof. intros Hs. simpl. by rewrite Hs. Qed.

(** X6.  When the socket of the entry of a key is destroyed,
    [getConnection] deletes the entry and makes a new socket, which is not
    in the map while it connects; once that socket connects the key maps
    to it. *)
Theorem a_destroyed_entry_is_replaced host port st sid0 :
  JSMap.get (key_of host port) (connections st) = Some sid0 ->
  sock_is_destroyed sid0 st = true ->
  let n := length (sockets st) in
  let st1 := snd (getConnection host port st) in
  fst (getConnection host port st) = Connecting n /\
  ~ In (key_of host port) (listKeys st1) /\
  sockets st1 = sockets st ++ [new_socket (key_of host port)] /\
  JSMap.get (key_of host port) (connections (handle (Connect n) st1)) = Some n.
Proof.
  intros Hget Hd n st1.
  assert (JSMap.has (key_of host port) (connections st) = true) as Hhas
    by (apply JSMapFacts.has_get; eauto).
  assert (getConnection host port st =
            (Connecting n,
             set_sockets (sockets st ++ [new_socket (key_of host port)])
               (set_connections
                  (JSMap.delete (key_of host port) (connections st)) st))) as Hg.
  { unfold getConnection. cbv zeta. rewrite Hhas, Hget, Hd. reflexivity. }
  unfold st1. rewrite Hg. cbn [fst snd].
  split; [done|]. split; [apply JSMapFacts.not_In_keys_delete|].
  split; [done|].
  rewrite (connect_new_socket n _ (key_of host port)).
  - apply (kept_resolve_acquire
             (fun st' => JSMap.get (key_of host port) (connections st') = Some n)
             (fun _ => True) (fun _ => True)); try done.
    simpl. apply get_set_eq.
  - simpl. rewrite lookup_app_r by done.
    by replace (n - length (sockets st)) with 0 by (unfold n; lia).
Qed.

Lemma a_destroyed_entry_is_replaced_witness :
  let st :=
    run init [(0%Z, Call (js "localhost") 8080 (js "GET_STATUS") no_options);
              (1%Z, Connect 0);
              (2%Z, Error 0 (mkError (js "read ECONNRESET") (js "ECONNRESET")))] in
  listKeys st = [js "localhost:8080"] /\
  fst (getConnection (js "localhost") 8080 st) = Connecting 1 /\
  listKeys (snd (getConnection (js "localhost") 8080 st)) = [] /\
  JSMap.get (js "localhost:8080")
    (connections (handle (Connect 1) (snd (getConnection (js "localhost") 8080 st))))
    = Some 1.
Proof.
  intros st.
  destruct (a_destroyed_entry_is_replaced (js "localhost") 8080 st 0)
    as (H1 & _ & _ & H4); [reflexivity | reflexivity |].
  split; [reflexivity|]. split; [exact H1|]. split; [reflexivity | exact H4].
Defined.

(** X7.  The close listener of the pool deletes by key, not by socket:
    when a socket closes while the entry of its key holds another socket,
    made for the same key, that entry goes too, and the other socket, if
    it is connected and not destroyed, is left outside the map. *)
Theorem close_of_a_socket_evicts_the_holder_of_its_key st sid sid' s s' :
  reachable st ->
  sockets st !! sid = Some s -> s_closed s = false ->
  sid' <> sid -> In (s_key s, sid') (connections st) ->
  sockets st !! sid' = Some s' ->
  s_connecting s' = false -> s_destroyed s' = false ->
  ~ In (s_key s) (listKeys (handle (Close sid) st)) /\
  orphaned sid' (handle (Close sid) st).
Proof.
  intros [Hinv _]%reachable_inv Hs Hc Hne Hin Hs' Hcon Hd.
  rewrite (close_deletes_key st sid s) by done.
  split; [apply JSMapFacts.not_In_keys_delete|].
  exists s'. split; [|split; [done|split; [done|]]].
  - simpl. by rewrite list_lookup_alter_ne by done.
  - simpl. intros ([k i] & Hi & Hin')%in_map_iff. simpl in Hi. subst i.
    apply JSMapFacts.In_delete in Hin' as [Hk Hin'].
    destruct (inv_pool _ Hinv _ _ Hin) as (s1 & Hs1 & Hk1 & _).
    destruct (inv_pool _ Hinv _ _ Hin') as (s2 & Hs2 & Hk2 & _).
    congruence.
Qed.

Lemma close_of_a_socket_evicts_the_holder_of_its_key_witness :
  let st :=
    run init [(0%Z, Call (js "localhost") 8080 (js "GET_STATUS") no_options);
              (0%Z, Call (js "localhost") 8080 (js "GET_TIME") no_options);
              (1%Z, Connect 0);
              (2%Z, Connect 1)] in
  connections st = [(js "localhost:8080", 1)] /\
  listKeys (handle (Close 0) st) = [] /\
  orphaned 1 (handle (Close 0) st).
Proof.
  intros st.
  split; [reflexivity|]. split; [reflexivity|].
  refine (proj2 (close_of_a_socket_evicts_the_holder_of_its_key st 0 1
                   (mkSocket (js "localhost:8080") false false false Fulfilled
                      [(EvError, PoolReject); (EvClose, PoolClose);
                       (EvData, OnData 0); (EvError, OnError 0)]
                      [(js "GET_STATUS" ++ [LF], js "utf8")])
                   (mkSocket (js "localhost:8080") false false false Fulfilled
                      [(EvError, PoolReject); (EvClose, PoolClose);
                       (EvData, OnData 1); (EvError, OnError 1)]
                      [(js "GET_TIME" ++ [LF], js "utf8")])
                   _ _ _ _ _ _ _ _)).
  - by eexists.
  - reflexivity.
  - reflexivity.
  - lia.
  - vm_compute. left. reflexivity.
  - reflexivity.
  - reflexivity.
  - reflexivity.
Defined.

(** ** The listeners of a pending command *)

Lemma In_removeListener x ev l s :
  x <> (ev, l) -> In x (s_listeners s) ->
  In x (s_listeners (sock_removeListener ev l s)).
Proof.
  intros Hne Hin. simpl. apply in_rev. rewrite rev_involutive.
  apply In_remove_first; [done|]. by apply in_rev in Hin.
Qed.

Lemma settle_settled o c : c_promise (settle o c) <> None.
Proof. unfold settle. by destruct (c_promise c) eqn:E; simpl; rewrite ?E. Qed.

Lemma keeps_pending_settle o : keeps_pending (settle o).
Proof.
  intros c. unfold settle. destruct (c_promise c) eqn:E; simpl; split; congruence.
Qed.

Lemma attached_upd_cmd cid f st :
  keeps_pending f -> attached st -> attached (upd_cmd cid f st).
Proof.
  intros Hf H j c sid. simpl. rewrite list_lookup_alter.
  destruct (decide (cid = j)) as [->|Hne]; [|apply H].
  destruct (commands st !! j) as [c0|] eqn:E; simpl; [|done].
  intros [= <-] Hs Hp. destruct (Hf c0) as [H1 H2].
  apply (H j c0 sid); [done | congruence | auto].
Qed.

Lemma attached_upd_sock i g st :
  keeps_listeners g -> attached st -> attached (upd_sock i g st).
Proof.
  intros Hg H j c sid Hc Hs Hp.
  destruct (H j c sid Hc Hs Hp) as (s & Hl & Hd & He).
  simpl. rewrite list_lookup_alter.
  destruct (decide (i = sid)) as [->|Hne].
  - rewrite Hl. simpl. exists (g s). auto.
  - eauto.
Qed.

Lemma attached_remove c0 ev l cid st :
  l = OnData cid \/ l = OnError cid ->
  (forall c, commands st !! cid = Some c -> c_promise c <> None) ->
  attached st -> attached (on_socket c0 (sock_removeListener ev l) st).
Proof.
  intros Hl Hset H. unfold on_socket. destruct (c_socket c0) as [i|]; [|done].
  intros j c sid Hc Hs Hp.
  destruct (H j c sid Hc Hs Hp) as (s & Hs' & Hd & He).
  assert (j <> cid) as Hne by (intros ->; by apply (Hset c)).
  simpl. rewrite list_lookup_alter.
  destruct (decide (i = sid)) as [->|Hi]; [|eauto].
  rewrite Hs'. simpl. eexists. split; [done|].
  split; apply In_removeListener; try done; destruct Hl; congruence.
Qed.

Lemma attached_set_socket cid sid st s :
  sockets st !! sid = Some s ->
  In (EvData, OnData cid) (s_listeners s) ->
  In (EvError, OnError cid) (s_listeners s) ->
  attached st -> attached (upd_cmd cid (set_socket (Some sid)) st).
Proof.
  intros Hs Hd He H j c i. simpl. rewrite list_lookup_alter.
  destruct (decide (cid = j)) as [<-|Hne]; [|apply H].
  destruct (commands st !! cid) as [c0|] eqn:E; simpl; [|done].
  intros [= <-]. simpl. intros [= <-] _. eauto.
Qed.

Ltac att :=
  first
    [ assumption
    | exact attached_upd_cmd | exact attached_upd_sock
    | by (intros; apply keeps_pending_settle)
    | by (intros; intros ?; simpl; auto)
    | by (intros; intros ? ? ?; simpl; rewrite ?in_app_iff; auto)
    | by (intros; intros ? ? ? ? ?; simpl; eauto) ].

Lemma attached_onData cid chunk st : attached st -> attached (onData cid chunk st).
Proof.
  intros H. unfold onData. destruct (commands st !! cid) as [c|] eqn:E; [|done].
  destruct (_ && _).
  - rewrite !upd_cmd_on_socket, !upd_cmd_upd_cmd.
    assert (forall st1 c1, commands st1 = commands
                (upd_cmd cid
                   (settle (Resolved (trim (c_responseData c ++ chunk)))
                      ∘ clear_timeout
                      ∘ set_responseData (c_responseData c ++ chunk)) st) ->
              commands st1 !! cid = Some c1 -> c_promise c1 <> None) as Hset.
    { intros st1 c1 ->. simpl. rewrite list_lookup_alter_eq, E. simpl.
      intros [= <-]. apply settle_settled. }
    apply (attached_remove _ _ _ cid); [auto | |].
    { intros c1. apply Hset. by rewrite commands_on_socket. }
    apply (attached_remove _ _ _ cid); [auto | by intros c1; apply Hset |].
    apply attached_upd_cmd; [|done]. intros c1. unfold compose.
    destruct (keeps_pending_settle
                (Resolved (trim (c_responseData c ++ chunk)))
                (clear_timeout (set_responseData (c_responseData c ++ chunk) c1)))
      as [H1 H2].
    split; [by rewrite H1 | intros Hp; by apply H2 in Hp].
  - apply attached_upd_cmd; [|done]. by intros c1.
Qed.

Lemma attached_onError cid e st : attached st -> attached (onError cid e st).
Proof.
  intros H. unfold onError. destruct (commands st !! cid) as [c|] eqn:E; [|done].
  rewrite !upd_cmd_on_socket, !upd_cmd_upd_cmd.
  apply (attached_remove _ _ _ cid); [auto | |].
  { intros c1. simpl. rewrite list_lookup_alter_eq, E. simpl.
    intros [= <-]. apply settle_settled. }
  apply attached_upd_cmd; [|done]. intros c1. unfold compose.
  destruct (keeps_pending_settle (RejTCP (e_message e) (e_code e))
              (clear_timeout c1)) as [H1 H2].
  split; [by rewrite H1 | intros Hp; by apply H2 in Hp].
Qed.

Lemma attached_onGrace cid st : attached st -> attached (onGrace cid st).
Proof.
  intros H. unfold onGrace. destruct (commands st !! cid) as [c|] eqn:E; [|done].
  rewrite !upd_cmd_on_socket, !upd_cmd_upd_cmd.
  assert (forall st1 c1, commands st1 = commands
              (upd_cmd cid (settle (Resolved (c_responseData c)) ∘ clear_timeout) st) ->
            commands st1 !! cid = Some c1 -> c_promise c1 <> None) as Hset.
  { intros st1 c1 ->. simpl. rewrite list_lookup_alter_eq, E. simpl.
    intros [= <-]. apply settle_settled. }
  apply (attached_remove _ _ _ cid); [auto | |].
  { intros c1. apply Hset. by rewrite commands_on_socket. }
  apply (attached_remove _ _ _ cid); [auto | by intros c1; apply Hset |].
  apply attached_upd_cmd; [|done]. intros c1. unfold compose.
  destruct (keeps_pending_settle (Resolved (c_responseData c)) (clear_timeout c1))
    as [H1 H2].
  split; [by rewrite H1 | intros Hp; by apply H2 in Hp].
Qed.

Lemma attached_afterConnection cid sid st :
  is_Some (sockets st !! sid) ->
  attached st -> attached (afterConnection cid sid st).
Proof.
  intros [s Hs] H. unfold afterConnection.
  destruct (commands st !! cid) as [c|] eqn:E; [|done].
  set (w := sock_write _ _).
  assert (attached
            (upd_sock sid w
               (upd_sock sid (sock_on EvError (OnError cid))
                  (upd_sock sid (sock_on EvData (OnData cid))
                     (upd_cmd cid (set_socket (Some sid)) st))))) as H4.
  { change (attached
              (upd_cmd cid (set_socket (Some sid))
                 (upd_sock sid w
                    (upd_sock sid (sock_on EvError (OnError cid))
                       (upd_sock sid (sock_on EvData (OnData cid)) st))))).
    eapply attached_set_socket.
    - simpl. rewrite !list_lookup_alter_eq, Hs. reflexivity.
    - simpl. rewrite !in_app_iff. simpl. auto.
    - simpl. rewrite !in_app_iff. simpl. auto.
    - do 3 (apply attached_upd_sock; [att|]). done. }
  case_match; [|done]. apply attached_upd_cmd; [att | done].
Qed.

Lemma attached_new_command c st :
  c_socket c = None -> attached st ->
  attached (set_commands (commands st ++ [c]) st).
Proof.
  intros Hc H j c1 sid. simpl.
  intros [Hl | [_ Hl]]%lookup_app_Some; [by apply H|].
  apply list_lookup_singleton_Some in Hl as [_ <-]. congruence.
Qed.

Lemma attached_new_socket key st :
  attached st -> attached (set_sockets (sockets st ++ [new_socket key]) st).
Proof.
  intros H j c sid Hc Hs Hp. destruct (H j c sid Hc Hs Hp) as (s & Hl & Hd & He).
  exists s. simpl. by rewrite (lookup_app_l_Some _ _ _ _ Hl).
Qed.

Lemma attached_sendTCPCommand host port text opts st :
  inv st -> attached st ->
  attached (snd (sendTCPCommand host port text opts st)).
Proof.
  intros Hinv H. unfold sendTCPCommand.
  set (c := mkCommand _ _ _ _ _ _ _ _ _ _ _ _).
  set (st1 := set_commands (commands st ++ [c]) st).
  assert (attached st1) as H1 by by apply attached_new_command.
  pose proof (getConnection_spec host port st1) as Hg.
  destruct (getConnection host port st1) as [[sid|sid] st2]; cbn [snd].
  - destruct Hg as (-> & Hget & _). apply attached_afterConnection; [|done].
    apply JSMapFacts.get_In in Hget.
    destruct (inv_pool _ Hinv _ _ Hget) as (s & Hs & _). by exists s.
  - destruct Hg as (_ & _ & m & _ & ->).
    apply attached_upd_cmd; [att|].
    apply (attached_new_socket _ (set_connections m st1)). exact H1.
Qed.

Lemma attached_resolve_acquire sid st :
  attached st -> attached (resolve_acquire sid st).
Proof.
  intros H. unfold resolve_acquire, promise_of.
  destruct (sockets st !! sid) as [s|] eqn:Hs; simpl; [|done].
  destruct (s_promise s); try done.
  apply (kept_resume (fun st => attached st /\ is_Some (sockets st !! sid))
           keeps_pending).
  - intros j f st1 Hf [H1 H2]. split; [by apply attached_upd_cmd | done].
  - att.
  - intros j st1 [H1 H2]. split; [by apply attached_afterConnection|].
    apply (kept_afterConnection (fun st => is_Some (sockets st !! sid))
             (fun _ => True) (fun _ => True)); try done.
    intros i g st2 _ [s2 Hs2]. simpl. rewrite list_lookup_alter.
    destruct (decide (i = sid)) as [->|Hne]; rewrite ?Hs2; simpl; eauto.
  - split; [apply attached_upd_sock; [att | done]|].
    simpl. rewrite list_lookup_alter_eq, Hs. simpl. eauto.
Qed.

Lemma attached_call sid p l st : attached st -> attached (call sid p l st).
Proof.
  intros H. unfold call. destruct l, p; try done.
  - apply (kept_reject_acquire attached keeps_pending keeps_listeners); att.
  - by case_match.
  - by case_match.
  - by case_match.
  - by apply attached_onData.
  - by apply attached_onError.
Qed.

Lemma attached_emit sid ev p st : attached st -> attached (emit sid ev p st).
Proof.
  intros H. unfold emit. case_match; [|done].
  apply fold_left_keeps; [|done]. intros. by apply attached_call.
Qed.

Lemma attached_handle e st : inv st -> attached st -> attached (handle e st).
Proof.
  intros Hinv H. destruct e.
  - by apply attached_sendTCPCommand.
  - simpl. repeat case_match; try done.
    apply attached_resolve_acquire. apply attached_upd_sock; [att | done].
  - simpl. repeat case_match; try done. by apply attached_emit.
  - simpl. repeat case_match; try done.
    apply attached_emit, attached_upd_sock; [att | done].
  - simpl. repeat case_match; try done.
    apply attached_emit, attached_upd_sock; [att | done].
  - apply (kept_closeAll attached keeps_listeners); att.
Qed.

Lemma attached_fire r st : attached st -> attached (fire r st).
Proof.
  intros H. unfold fire. destruct (timer_of r st); try done. destruct r.
  - apply (kept_onTimeout attached keeps_pending keeps_listeners); try att.
    apply attached_upd_cmd; [att | done].
  - apply attached_onGrace, attached_upd_cmd; [att | done].
Qed.

Lemma attached_advance T st : attached st -> attached (advance T st).
Proof.
  intros H. unfold advance.
  apply (fold_left_keeps attached (fun x => fire (snd x))); [|done].
  intros. by apply attached_fire.
Qed.

Lemma attached_run tr st :
  inv st -> attached st -> attached (run st tr).
Proof.
  revert st. induction tr as [|[t e] tr IH]; simpl; [done|].
  intros st Hinv H. apply IH.
  - by apply inv_handle, inv_advance.
  - apply attached_handle; [by apply inv_advance | by apply attached_advance].
Qed.

Lemma reachable_attached st : reachable st -> attached st.
Proof.
  intros [tr ->]. apply attached_run; [apply inv_new_adapter|].
  by intros j c sid.
Qed.

(** ** What the events of its socket do to a pending command *)

Lemma onData_other j cid chunk st :
  j <> cid -> commands (onData j chunk st) !! cid = commands st !! cid.
Proof.
  intros Hne. unfold onData. repeat case_match;
    rewrite ?upd_cmd_on_socket, ?commands_on_socket; simpl;
    by rewrite ?list_lookup_alter_ne by done.
Qed.

Lemma onError_other j cid e st :
  j <> cid -> commands (onError j e st) !! cid = commands st !! cid.
Proof.
  intros Hne. unfold onError. repeat case_match;
    rewrite ?upd_cmd_on_socket, ?commands_on_socket; simpl;
    by rewrite ?list_lookup_alter_ne by done.
Qed.

Lemma onCatch_other j cid e st :
  j <> cid -> commands (onCatch j e st) !! cid = commands st !! cid.
Proof.
  intros Hne. unfold onCatch. repeat case_match; simpl;
    by rewrite ?list_lookup_alter_ne by done.
Qed.

Lemma reject_acquire_other sid e st cid c :
  commands st !! cid = Some c -> c_awaiting c <> Some sid ->
  commands (reject_acquire sid e st) !! cid = Some c.
Proof.
  intros Hc Ha. unfold reject_acquire. repeat case_match; try done.
  unfold resume. generalize (seq 0 (length (commands (upd_sock sid (set_promise Rejected) st)))).
  assert (commands (upd_sock sid (set_promise Rejected) st) !! cid = Some c) as H1
    by done.
  revert H1. generalize (upd_sock sid (set_promise Rejected) st).
  intros st1 H1 l. revert st1 H1.
  induction l as [|j l IH]; intros st1 H1; simpl; [done|].
  apply IH. unfold resume_one.
  destruct (commands st1 !! j) as [cj|] eqn:Ej; [|done].
  case_bool_decide as Hj; [|done].
  assert (j <> cid) as Hne by (intros ->; congruence).
  rewrite onCatch_other by done. simpl. by rewrite list_lookup_alter_ne.
Qed.

Lemma settled_stays cid o st st' :
  evolves st st' -> promise cid st = Some o -> promise cid st' = Some o.
Proof.
  intros Hev. unfold promise.
  destruct (commands st !! cid) as [c|] eqn:E; simpl; [|done].
  destruct (ev_commands _ _ Hev _ _ E) as (c' & -> & Hle). simpl.
  apply (le_promise _ _ Hle).
Qed.

Lemma settled_stays_calls sid p cid o (l : list listener) st :
  promise cid st = Some o ->
  promise cid (fold_left (fun st l => call sid p l st) l st) = Some o.
Proof.
  apply settled_stays.
  apply (fold_left_keeps (evolves st) (call sid p)); [|apply evolves_refl].
  intros a st1. apply stable_call, stable_evolves.
Qed.

Lemma onData_resolves cid chunk st c :
  commands st !! cid = Some c -> c_promise c = None -> c_delimiter c <> [] ->
  includes (c_responseData c ++ chunk) (c_delimiter c) = true ->
  promise cid (onData cid chunk st)
    = Some (Resolved (trim (c_responseData c ++ chunk))).
Proof.
  intros Hc Hp Hd Hinc. unfold onData. rewrite Hc. cbv zeta. rewrite Hinc.
  destruct (c_delimiter c) eqn:Ed; [done|]. simpl andb. cbv iota.
  rewrite !upd_cmd_on_socket, !upd_cmd_upd_cmd. unfold promise.
  rewrite !commands_on_socket. simpl.
  rewrite list_lookup_alter_eq, Hc. simpl. unfold settle. simpl. by rewrite Hp.
Qed.

Lemma onError_rejects cid e st c :
  commands st !! cid = Some c -> c_promise c = None ->
  promise cid (onError cid e st) = Some (RejTCP (e_message e) (e_code e)).
Proof.
  intros Hc Hp. unfold onError. rewrite Hc. cbv zeta.
  rewrite !upd_cmd_on_socket, !upd_cmd_upd_cmd. unfold promise.
  rewrite !commands_on_socket. simpl.
  rewrite list_lookup_alter_eq, Hc. simpl. unfold settle. simpl. by rewrite Hp.
Qed.

Lemma data_resolves st sid s chunk cid c :
  inv st -> attached st ->
  sockets st !! sid = Some s -> s_connecting s = false -> s_destroyed s = false ->
  commands st !! cid = Some c -> c_socket c = Some sid -> c_promise c = None ->
  includes (c_responseData c ++ chunk) (c_delimiter c) = true ->
  promise cid (handle (Data sid chunk) st)
    = Some (Resolved (trim (c_responseData c ++ chunk))).
Proof.
  intros Hinv Hatt Hs Hcon Hd Hc Hsock Hp Hinc.
  pose proof (ok_delimiter _ (inv_cmds _ Hinv _ _ Hc)) as Hdel.
  destruct (Hatt _ _ _ Hc Hsock Hp) as (s' & Hs' & Hin & _).
  assert (s' = s) as -> by congruence.
  simpl. rewrite Hs, Hcon, Hd. simpl. unfold emit. rewrite Hs.
  apply In_listeners_for in Hin. revert Hin Hc.
  generalize (listeners_for EvData s). clear Hs Hs' Hatt Hinv. revert st.
  intros st l. revert st. induction l as [|a l IH]; intros st Hin Hc; [done|].
  simpl. destruct (decide (a = OnData cid)) as [->|Hne].
  - apply settled_stays_calls. simpl. by apply (onData_resolves cid chunk st c).
  - destruct Hin as [->|Hin]; [done|]. apply IH; [done|].
    destruct a as [| |j|j]; simpl; try done.
    + by case_match.
    + rewrite onData_other; [done|]. congruence.
Qed.



(** X10.  An error of the socket rejects every pending command that holds
    the socket with the transport error, which carries the message and the
    code of the error. *)
Theorem a_socket_error_rejects_the_commands_of_the_socket st sid s e cid c :
  reachable st ->
  sockets st !! sid = Some s -> s_destroyed s = false ->
  commands st !! cid = Some c -> c_socket c = Some sid -> c_promise c = None ->
  promise cid (handle (Error sid e) st)
    = Some (RejTCP (e_message e) (e_code e)).
Proof.
  intros Hr Hs Hd Hc Hsock Hp.
  destruct (reachable_inv _ Hr) as [Hinv _].
  assert (c_awaiting c <> Some sid) as Ha.
  { intros Ha. destruct (ok_awaiting _ (inv_cmds _ Hinv _ _ Hc) _ Ha). congruence. }
  destruct (reachable_attached _ Hr _ _ _ Hc Hsock Hp) as (s' & Hs' & _ & Hin).
  assert (s' = s) as -> by congruence.
  simpl. rewrite Hs, Hd. simpl. unfold emit. simpl.
  rewrite list_lookup_alter_eq, Hs. simpl.
  change (listeners_for EvError (sock_destroy s)) with (listeners_for EvError s).
  apply In_listeners_for in Hin.
  assert (commands (upd_sock sid sock_destroy st) !! cid = Some c) as Hc' by done.
  revert Hin Hc'. generalize (upd_sock sid sock_destroy st).
  generalize (listeners_for EvError s). clear Hs Hs' Hr Hinv Hc.
  intros l. induction l as [|a l IH]; intros st1 Hin Hc; [done|].
  simpl. destruct (decide (a = OnError cid)) as [->|Hne].
  - apply settled_stays_calls. simpl. by apply (onError_rejects cid e st1 c).
  - destruct Hin as [->|Hin]; [done|]. apply IH; [done|].
    destruct a as [| |j|j]; simpl; try done.
    + by apply reject_acquire_other.
    + by case_match.
    + rewrite onError_other; [done|]. congruence.
Qed.

Lemma a_socket_error_rejects_the_commands_of_the_socket_witness :
  let st :=
    run init [(0%Z, Call (js "localhost") 8080 (js "GET_STATUS") no_options);
              (1%Z, Connect 0);
              (2%Z, Call (js "localhost") 8080 (js "GET_TIME") no_options)] in
  let e := mkError (js "read ECONNRESET") (js "ECONNRESET") in
  promise 1 (handle (Error 0 e) st)
    = Some (RejTCP (js "read ECONNRESET") (js "ECONNRESET")).
Proof.
  intros st e.
  assert (exists s, sockets st !! 0 = Some s /\ s_destroyed s = false)
    as (s & Hs & Hd) by (eexists; split; [vm_compute; reflexivity | reflexivity]).
  assert (exists c, commands st !! 1 = Some c /\ c_socket c = Some 0 /\
                    c_promise c = None) as (c & Hc & Hsock & Hp)
    by (eexists; split; [vm_compute; reflexivity | split; reflexivity]).
  apply (a_socket_error_rejects_the_commands_of_the_socket st 0 s e 1 c);
    try done.
  by eexists.
Defined.

(** ** The close of a socket *)

(** X11.  The close of a socket settles no promise: the pool deletes the
    entry of the key and the commands are left as they are.  A command
    that is pending when its socket closes has its timeout timer armed
    still, and is rejected by that timer and by nothing before it, with
    the timeout error. *)
Theorem a_close_leaves_the_command_to_its_timeout st sid cid c :
  reachable st ->
  commands st !! cid = Some c -> c_promise c = None ->
  commands (handle (Close sid) st) = commands st /\
  exists d, c_timeoutId c = Armed d /\
    forall T, (d <= T)%Z ->
      promise cid (advance T (handle (Close sid) st))
        = Some (RejTimeout (c_timeout c) (c_host c) (c_port c)).
Proof.
  intros [Hinv _]%reachable_inv Hc Hp.
  assert (commands (handle (Close sid) st) = commands st) as Hsame.
  { destruct (sockets st !! sid) as [s|] eqn:Hs; [|by simpl; rewrite Hs].
    destruct (s_closed s) eqn:Hcl; [by simpl; rewrite Hs, Hcl|].
    by rewrite (close_deletes_key st sid s). }
  split; [done|].
  destruct (ok_pending _ (inv_cmds _ Hinv _ _ Hc) Hp) as [d Hd].
  exists d. split; [done|]. intros T HT.
  destruct (advance_times_out cid c d T (handle (Close sid) st))
    as (c' & Hc' & Hp' & _); try done.
  - by apply inv_handle.
  - by rewrite Hsame.
  - unfold promise. by rewrite Hc'.
Qed.

Lemma a_close_leaves_the_command_to_its_timeout_witness :
  let st :=
    run init [(0%Z, Call (js "localhost") 8080 (js "GET_STATUS") no_options);
              (1%Z, Connect 0)] in
  promise 0 (handle (Close 0) st) = None /\
  promise 0 (advance 5000 (handle (Close 0) st))
    = Some (RejTimeout 5000 (js "localhost") 8080).
Proof.
  intros st. split; [vm_compute; reflexivity|].
  assert (exists c, commands st !! 0 = Some c /\ c_promise c = None /\
                    c_timeoutId c = Armed 5000 /\ c_timeout c = 5000%Z /\
                    c_host c = js "localhost" /\ c_port c = 8080%Z)
    as (c & Hc & Hp & Ht & H1 & H2 & H3)
    by (eexists; split; [vm_compute; reflexivity | repeat split; reflexivity]).
  destruct (a_close_leaves_the_command_to_its_timeout st 0 0 c)
    as (_ & d & Hd & Hout); [by eexists | done | done |].
  rewrite <- H1, <- H2, <- H3. apply Hout.
  rewrite Ht in Hd. injection Hd as <-. lia.
Defined.

(** ** A command on a pooled socket *)

Lemma alter_last {A} (f : A -> A) (l : list A) x :
  alter f (length l) (l ++ [x]) = l ++ [f x].
Proof. induction l as [|a l IH]; [done|]. cbn. f_equal. exact IH. Qed.

Lemma or_str_self d : or_str (Some d) [] = d.
Proof. by destruct d. Qed.

Lemma or_str_truthy x d : d <> [] -> truthy_str (Some (or_str x d)) = true.
Proof. intros Hd. destruct x as [[|a r]|]; simpl; by destruct d. Qed.

(** What [sendTCPCommand] does when [getConnection] finds the socket. *)
Lemma sendTCPCommand_pooled st host port text opts sid :
  JSMap.get (key_of host port) (connections st) = Some sid ->
  sock_is_destroyed sid st = false ->
  let cid := length (commands st) in
  let c := fresh_command host port text opts st in
  sendTCPCommand host port text opts st =
    (cid,
     upd_sock sid (sock_write (text ++ c_delimiter c) (c_encoding c))
       (upd_sock sid (sock_on EvError (OnError cid))
          (upd_sock sid (sock_on EvData (OnData cid))
             (upd_cmd cid (set_socket (Some sid))
                (set_commands (commands st ++ [c]) st))))).
Proof.
  intros Hget Hd cid c.
  assert (JSMap.has (key_of host port) (connections st) = true) as Hhas
    by (apply JSMapFacts.has_get; eauto).
  set (st1 := set_commands (commands st ++ [c]) st).
  assert (sendTCPCommand host port text opts st
            = (cid, afterConnection cid sid st1)) as ->.
  { unfold sendTCPCommand. cbv zeta.
    change (mkCommand _ _ _ _ _ _ _ _ _ _ _ _) with c.
    change (set_commands (commands st ++ [c]) st) with st1. fold cid.
    assert (getConnection host port st1 = (Existing sid, st1)) as ->; [|done].
    unfold getConnection. cbv zeta.
    change (connections st1) with (connections st).
    rewrite Hhas, Hget.
    change (sock_is_destroyed sid st1) with (sock_is_destroyed sid st).
    by rewrite Hd. }
  assert (commands st1 !! cid = Some c) as Hc.
  { simpl. rewrite lookup_app_r by done. unfold cid.
    by rewrite Nat.sub_diag. }
  unfold afterConnection. rewrite Hc. cbv zeta.
  rewrite or_str_self.
  assert (truthy_str (Some (c_delimiter c)) = true) as ->
    by (by apply or_str_truthy).
  done.
Qed.

(** X12.  A call of [sendTCPCommand] for a key whose entry holds a socket
    that is not destroyed takes that socket: no socket is made and the map
    is left as it is; before control returns to the event loop the two
    listeners of the command are registered after those that the socket
    has, and, the encoding of the call being one that [socket.write]
    takes, the command followed by the delimiter is written to the socket
    in that encoding, the delimiter being a line feed and the encoding
    utf8 when the options give none. *)
Theorem a_command_on_a_pooled_socket_is_written_at_once
    st host port text opts sid :
  reachable st ->
  JSMap.get (key_of host port) (connections st) = Some sid ->
  sock_is_destroyed sid st = false ->
  known_encoding (or_str (o_encoding opts) (js "utf8")) = true ->
  let cid := length (commands st) in
  let st' := snd (sendTCPCommand host port text opts st) in
  fst (sendTCPCommand host port text opts st) = cid /\
  connections st' = connections st /\
  length (sockets st') = length (sockets st) /\
  written sid st' =
    written sid st ++ [(text ++ or_str (o_delimiter opts) [LF],
                        or_str (o_encoding opts) (js "utf8"))] /\
  listeners sid st' =
    listeners sid st ++ [(EvData, OnData cid); (EvError, OnError cid)] /\
  commands st' =
    commands st ++ [set_socket (Some sid) (fresh_command host port text opts st)].
Proof.
  intros [Hinv _]%reachable_inv Hget Hd _ cid st'.
  destruct (inv_pool _ Hinv _ _ (JSMapFacts.get_In _ _ _ Hget)) as (s & Hs & _).
  unfold st'. rewrite (sendTCPCommand_pooled st host port text opts sid) by done.
  cbn [fst snd]. fold cid.
  split; [done|]. split; [done|].
  split; [by simpl; rewrite !length_alter|].
  split; [|split].
  - unfold written. simpl. by rewrite !list_lookup_alter_eq, Hs.
  - unfold listeners. simpl. rewrite !list_lookup_alter_eq, Hs. simpl.
    by rewrite <- app_assoc.
  - exact (alter_last (set_socket (Some sid)) (commands st)
             (fresh_command host port text opts st)).
Qed.

Lemma a_command_on_a_pooled_socket_is_written_at_once_witness :
  let st :=
    run init [(0%Z, Call (js "localhost") 8080 (js "GET_STATUS") no_options);
              (1%Z, Connect 0)] in
  let st' := snd (sendTCPCommand (js "localhost") 8080 (js "GET_TIME") no_options st) in
  length (sockets st') = 1 /\
  written 0 st' = [(js "GET_STATUS" ++ [LF], js "utf8");
                   (js "GET_TIME" ++ [LF], js "utf8")].
Proof.
  intros st st'.
  destruct (a_command_on_a_pooled_socket_is_written_at_once st
              (js "localhost") 8080 (js "GET_TIME") no_options 0)
    as (_ & _ & H3 & H4 & _);
    [by eexists | reflexivity | reflexivity | reflexivity |].
  split; [exact H3 | exact H4].
Defined.

(** ** The sockets of the pool *)

Lemma remove_first_snoc x l h :
  h <> x -> remove_first x (l ++ [h]) = remove_first x l ++ [h].
Proof.
  intros Hne. induction l as [|a l IH]; simpl.
  - by rewrite bool_decide_eq_false_2.
  - case_bool_decide; [done|]. by rewrite IH.
Qed.

Lemma head_removeListener ev l s h :
  h <> (ev, l) -> head (s_listeners s) = Some h ->
  head (s_listeners (sock_removeListener ev l s)) = Some h.
Proof.
  intros Hne. simpl. destruct (s_listeners s) as [|a t]; [done|].
  intros [= ->]. simpl. rewrite remove_first_snoc by done.
  by rewrite rev_unit.
Qed.

Lemma keeps_wired_on ev l : keeps_wired (sock_on ev l).
Proof.
  intros s [H1 H2]. split; [|done]. simpl.
  by destruct (s_listeners s).
Qed.

Lemma keeps_wired_remove_data cid :
  keeps_wired (sock_removeListener EvData (OnData cid)).
Proof. intros s [H1 H2]. split; [|done]. by apply head_removeListener. Qed.

Lemma keeps_wired_remove_error cid :
  keeps_wired (sock_removeListener EvError (OnError cid)).
Proof. intros s [H1 H2]. split; [|done]. by apply head_removeListener. Qed.

Lemma keeps_wired_write d e : keeps_wired (sock_write d e).
Proof. by intros s [H1 H2]. Qed.

Lemma keeps_wired_destroy : keeps_wired sock_destroy.
Proof. by intros s [H1 H2]. Qed.

Lemma keeps_wired_close : keeps_wired sock_close.
Proof. by intros s [H1 H2]. Qed.

Lemma keeps_wired_connected : keeps_wired sock_connected.
Proof. by intros s [H1 H2]. Qed.

Lemma wired_upd_sock i g st :
  keeps_wired g -> sockets_wired st -> sockets_wired (upd_sock i g st).
Proof.
  intros Hg H j s. simpl. rewrite list_lookup_alter.
  destruct (decide (i = j)) as [->|Hne]; [|apply H].
  destruct (sockets st !! j) as [s0|] eqn:E; simpl; [|done].
  intros [= <-]. apply Hg, (H j s0 E).
Qed.

Lemma wired_set_promise i p st :
  (forall s, sockets st !! i = Some s ->
             s_connecting s = false \/ s_destroyed s = true) ->
  sockets_wired st -> sockets_wired (upd_sock i (set_promise p) st).
Proof.
  intros Hi H j s. simpl. rewrite list_lookup_alter.
  destruct (decide (i = j)) as [->|Hne]; [|apply H].
  destruct (sockets st !! j) as [s0|] eqn:E; simpl; [|done].
  intros [= <-]. destruct (H j s0 E) as [H1 H2]. split; [done|]. simpl.
  destruct (Hi s0 eq_refl); congruence.
Qed.

Lemma wired_new_socket key st :
  sockets_wired st ->
  sockets_wired (set_sockets (sockets st ++ [new_socket key]) st).
Proof.
  intros H j s. simpl. intros [Hl | [_ Hl]]%lookup_app_Some; [by apply (H j)|].
  apply list_lookup_singleton_Some in Hl as [_ <-]. by split.
Qed.

Ltac wired :=
  first
    [ assumption
    | exact wired_upd_sock | exact wired_new_socket
    | exact keeps_wired_write | exact keeps_wired_on
    | exact keeps_wired_remove_data | exact keeps_wired_remove_error
    | exact keeps_wired_destroy | exact keeps_wired_close
    | exact keeps_wired_connected
    | done ].

Lemma wired_resolve_acquire sid st :
  (forall s, sockets st !! sid = Some s -> s_connecting s = false) ->
  sockets_wired st -> sockets_wired (resolve_acquire sid st).
Proof.
  intros Hc H. unfold resolve_acquire. repeat case_match; try done.
  apply (kept_resume sockets_wired (fun _ => True)); try done.
  - intros j st1 Hst1.
    apply (kept_afterConnection sockets_wired (fun _ => True) keeps_wired);
      wired.
  - apply wired_set_promise; [|done]. intros s Hs. left. by apply Hc.
Qed.

Lemma wired_reject_acquire sid e st :
  sock_is_destroyed sid st = true ->
  sockets_wired st -> sockets_wired (reject_acquire sid e st).
Proof.
  intros Hd H. unfold reject_acquire. repeat case_match; try done.
  apply (kept_resume sockets_wired (fun _ => True)); try done.
  - intros j st1 Hst1.
    apply (kept_onCatch sockets_wired (fun _ => True)); wired.
  - apply wired_set_promise; [|done]. intros s Hs. right.
    unfold sock_is_destroyed in Hd. by rewrite Hs in Hd.
Qed.

Lemma wired_call sid p l st :
  (forall e, p = PError e -> sock_is_destroyed sid st = true) ->
  sockets_wired st -> sockets_wired (call sid p l st).
Proof.
  intros Hd H. unfold call. destruct l, p; try done.
  - apply wired_reject_acquire; eauto.
  - by case_match.
  - by case_match.
  - by case_match.
  - apply (kept_onData sockets_wired (fun _ => True) keeps_wired); wired.
  - apply (kept_onError sockets_wired (fun _ => True) keeps_wired); wired.
Qed.

Lemma wired_emit sid ev p st :
  (forall e, p = PError e -> sock_is_destroyed sid st = true) ->
  sockets_wired st -> sockets_wired (emit sid ev p st).
Proof.
  intros Hd H. unfold emit. case_match; [|done].
  apply (fold_left_keeps (fun st1 => sockets_wired st1 /\ evolves st st1)
           (call sid p)); [|split; [done | apply evolves_refl]].
  intros l st1 [H1 H2]. split.
  - apply wired_call; [|done]. intros e He.
    eapply destroyed_evolves; eauto.
  - by apply stable_call; [apply stable_evolves|].
Qed.

Lemma wired_sendTCPCommand host port text opts st :
  sockets_wired st -> sockets_wired (snd (sendTCPCommand host port text opts st)).
Proof.
  intros H.
  apply (kept_sendTCPCommand sockets_wired (fun _ => True) keeps_wired); wired.
Qed.

Lemma wired_handle e st : sockets_wired st -> sockets_wired (handle e st).
Proof.
  intros H. destruct e.
  - by apply wired_sendTCPCommand.
  - simpl. destruct (sockets st !! sid) as [s|] eqn:Hs; [|done].
    case_match; [|done]. apply wired_resolve_acquire.
    + simpl. rewrite list_lookup_alter_eq, Hs. simpl. by intros s1 [= <-].
    + apply wired_upd_sock; wired.
  - simpl. repeat case_match; try done. by apply wired_emit.
  - simpl. destruct (sockets st !! sid) as [s|] eqn:Hs; [|done].
    case_match; [|done]. apply wired_emit.
    + intros _ _. unfold sock_is_destroyed. simpl.
      by rewrite list_lookup_alter_eq, Hs.
    + apply wired_upd_sock; wired.
  - simpl. repeat case_match; try done.
    apply wired_emit; [done|]. apply wired_upd_sock; wired.
  - apply (kept_closeAll sockets_wired keeps_wired); wired.
Qed.

Lemma wired_advance T st : sockets_wired st -> sockets_wired (advance T st).
Proof.
  intros H.
  apply (kept_advance sockets_wired (fun _ => True) keeps_wired); wired.
Qed.

Lemma reachable_wired st : reachable st -> sockets_wired st.
Proof.
  intros [tr ->]. assert (sockets_wired init) as H by by intros i s.
  revert H. generalize init. induction tr as [|[t e] tr IH]; simpl; [done|].
  intros st H. by apply IH, wired_handle, wired_advance.
Qed.

(** ** The commands that await a connection *)

Lemma afterConnection_other j cid sid st :
  j <> cid -> commands (afterConnection j sid st) !! cid = commands st !! cid.
Proof.
  intros Hne. unfold afterConnection. repeat case_match; simpl;
    by rewrite ?list_lookup_alter_ne by done.
Qed.

Lemma resume_others sid k cid (l : list nat) st :
  (forall j st1, j <> cid -> commands (k j st1) !! cid = commands st1 !! cid) ->
  ~ In cid l ->
  commands (fold_left (fun st j => resume_one sid k j st) l st) !! cid
    = commands st !! cid.
Proof.
  intros Hk. revert st. induction l as [|j l IH]; intros st Hnot; [done|].
  simpl. rewrite IH by (intros Hin; apply Hnot; by right).
  assert (j <> cid) as Hne by (intros ->; apply Hnot; by left).
  unfold resume_one. repeat case_match; try done.
  rewrite Hk by done. simpl. by rewrite list_lookup_alter_ne.
Qed.

(** The continuation of a command that awaits the socket runs once, on
    the command with its wait ended, and the continuations of the other
    commands leave the command as it is. *)
Lemma resume_at sid k cid c c' st :
  (forall j st1, j <> cid -> commands (k j st1) !! cid = commands st1 !! cid) ->
  (forall st1, commands st1 !! cid = Some (set_awaiting None c) ->
               commands (k cid st1) !! cid = Some c') ->
  commands st !! cid = Some c -> c_awaiting c = Some sid ->
  commands (resume sid k st) !! cid = Some c'.
Proof.
  intros Hk Hat Hc Ha. unfold resume.
  assert (In cid (seq 0 (length (commands st)))) as Hin.
  { apply in_seq. apply lookup_lt_Some in Hc. lia. }
  pose proof (List.seq_NoDup (length (commands st)) 0) as Hnd.
  revert Hin Hnd Hc. generalize (seq 0 (length (commands st))). intros l.
  revert st. induction l as [|j l IH]; intros st Hin Hnd Hc; [done|].
  apply List.NoDup_cons_iff in Hnd as [Hnot Hnd]. simpl.
  destruct (decide (j = cid)) as [->|Hne].
  - rewrite resume_others by done. unfold resume_one.
    rewrite Hc, bool_decide_eq_true_2 by done.
    apply Hat. simpl. by rewrite list_lookup_alter_eq, Hc.
  - destruct Hin as [?|Hin]; [done|]. apply IH; try done.
    unfold resume_one. repeat case_match; try done.
    rewrite Hk by done. simpl. by rewrite list_lookup_alter_ne.
Qed.

Lemma afterConnection_writes cid sid st c :
  commands st !! cid = Some c -> is_Some (sockets st !! sid) ->
  In (c_command c ++ c_delimiter c, c_encoding c)
    (written sid (afterConnection cid sid st)).
Proof.
  intros Hc [s Hs]. unfold afterConnection. rewrite Hc. cbv zeta.
  rewrite or_str_self.
  assert (forall st1,
            written sid st1 = written sid
              (upd_sock sid (sock_write (c_command c ++ c_delimiter c) (c_encoding c))
                 (upd_sock sid (sock_on EvError (OnError cid))
                    (upd_sock sid (sock_on EvData (OnData cid))
                       (upd_cmd cid (set_socket (Some sid)) st)))) ->
            In (c_command c ++ c_delimiter c, c_encoding c) (written sid st1)) as H.
  { intros st1 ->. unfold written. simpl. rewrite !list_lookup_alter_eq, Hs.
    simpl. apply in_or_app. right. by left. }
  case_match; by apply H.
Qed.

Lemma written_grows x sid : forall i g st,
  (forall s, In x (s_written s) -> In x (s_written (g s))) ->
  In x (written sid st) -> In x (written sid (upd_sock i g st)).
Proof.
  intros i g st Hg. unfold written. simpl. rewrite list_lookup_alter.
  destruct (decide (i = sid)) as [->|Hne]; [|done].
  destruct (sockets st !! sid); simpl; auto.
Qed.

Lemma socket_stays sid : forall i g st,
  is_Some (sockets st !! sid) -> is_Some (sockets (upd_sock i g st) !! sid).
Proof.
  intros i g st [s Hs]. simpl. rewrite list_lookup_alter.
  destruct (decide (i = sid)) as [->|Hne]; rewrite ?Hs; simpl; eauto.
Qed.

Lemma resume_writes sid cid c (l : list nat) st :
  In cid l -> commands st !! cid = Some c -> c_awaiting c = Some sid ->
  is_Some (sockets st !! sid) ->
  In (c_command c ++ c_delimiter c, c_encoding c)
    (written sid
       (fold_left
          (fun st j => resume_one sid (fun cid => afterConnection cid sid) j st)
          l st)).
Proof.
  set (k := fun cid => afterConnection cid sid).
  set (x := (c_command c ++ c_delimiter c, c_encoding c)).
  assert (forall j st1, In x (written sid st1) ->
            In x (written sid (resume_one sid k j st1))) as Hkeep.
  { intros j st1 H1. unfold resume_one. repeat case_match; try done.
    apply (kept_afterConnection (fun st => In x (written sid st))
             (fun _ => True)
             (fun g => forall s, In x (s_written s) -> In x (s_written (g s))));
      try done.
    - intros i g st2 Hg. by apply written_grows.
    - intros d e s. simpl. rewrite in_app_iff. auto. }
  assert (forall j st1, is_Some (sockets st1 !! sid) ->
            is_Some (sockets (resume_one sid k j st1) !! sid)) as Hsock.
  { intros j st1 H1. unfold resume_one. repeat case_match; try done.
    apply (kept_afterConnection (fun st => is_Some (sockets st !! sid))
             (fun _ => True) (fun _ => True)); try done.
    intros i g st2 _. apply socket_stays. }
  revert st. induction l as [|j l IH]; intros st Hin Hc Ha Hs; [done|].
  simpl. destruct (decide (j = cid)) as [->|Hne].
  - apply (fold_left_keeps (fun st => In x (written sid st))
             (resume_one sid k)); [by auto|].
    unfold resume_one. rewrite Hc, bool_decide_eq_true_2 by done.
    apply (afterConnection_writes cid sid _ (set_awaiting None c)).
    + simpl. by rewrite list_lookup_alter_eq, Hc.
    + done.
  - destruct Hin as [?|Hin]; [done|]. apply IH; auto.
    unfold resume_one. repeat case_match; try done. unfold k.
    rewrite afterConnection_other by done. simpl.
    by rewrite list_lookup_alter_ne.
Qed.

(** X13.  When a socket connects, every command that awaits it goes on
    from its [await]: it takes the socket and, its encoding being one
    that [socket.write] takes, its text followed by the delimiter is
    written to the socket, whether its promise is pending or the timeout
    has rejected it in the meantime; the socket is stored in the map
    under its key. *)
Theorem the_connect_callback_resumes_the_awaiting_commands st sid s cid c :
  reachable st ->
  sockets st !! sid = Some s -> s_connecting s = true -> s_destroyed s = false ->
  commands st !! cid = Some c -> c_awaiting c = Some sid ->
  known_encoding (c_encoding c) = true ->
  commands (handle (Connect sid) st) !! cid
    = Some (set_socket (Some sid) (set_awaiting None c)) /\
  In (c_command c ++ c_delimiter c, c_encoding c)
    (written sid (handle (Connect sid) st)) /\
  JSMap.get (s_key s) (connections (handle (Connect sid) st)) = Some sid.
Proof.
  intros Hr Hs Hcon Hd Hc Ha _.
  destruct (reachable_inv _ Hr) as [Hinv _].
  pose proof (sw_pending _ (reachable_wired _ Hr _ _ Hs) Hcon Hd) as Hp.
  pose proof (ok_delimiter _ (inv_cmds _ Hinv _ _ Hc)) as Hdel.
  set (st2 := set_connections (JSMap.set (s_key s) sid (connections st))
                (upd_sock sid sock_connected st)).
  assert (handle (Connect sid) st =
            resume sid (fun cid => afterConnection cid sid)
              (upd_sock sid (set_promise Fulfilled) st2)) as ->.
  { simpl. rewrite Hs, Hcon, Hd. simpl.
    unfold resolve_acquire, promise_of. simpl.
    rewrite list_lookup_alter_eq, Hs. simpl. by rewrite Hp. }
  split; [|split].
  - apply (resume_at sid _ cid c); try done.
    + intros j st1 Hne. by apply afterConnection_other.
    + intros st1 Hc1. unfold afterConnection. rewrite Hc1. cbv zeta.
      destruct (c_delimiter c) eqn:Ed; [done|]. simpl. rewrite Ed. simpl.
      by rewrite list_lookup_alter_eq, Hc1.
  - unfold resume. apply (resume_writes sid cid c); try done.
    + apply in_seq. apply lookup_lt_Some in Hc. simpl. lia.
    + simpl. rewrite !list_lookup_alter_eq, Hs. simpl. eauto.
  - apply (kept_resume
             (fun st' => JSMap.get (s_key s) (connections st') = Some sid)
             (fun _ => True)); try done.
    + intros j st1 H1.
      by apply (kept_afterConnection
                  (fun st' => JSMap.get (s_key s) (connections st') = Some sid)
                  (fun _ => True) (fun _ => True)).
    + simpl. apply get_set_eq.
Qed.

Lemma the_connect_callback_resumes_the_awaiting_commands_witness :
  let st :=
    run init [(0%Z, Call (js "localhost") 8080 (js "GET_STATUS") no_options)] in
  promise 0 (advance 5000 st) = Some (RejTimeout 5000 (js "localhost") 8080) /\
  written 0 (advance 5000 st) = [] /\
  In (js "GET_STATUS" ++ [LF], js "utf8")
    (written 0 (handle (Connect 0) (advance 5000 st))).
Proof.
  intros st. split; [vm_compute; reflexivity|]. split; [reflexivity|].
  assert (exists s, sockets (advance 5000 st) !! 0 = Some s /\
                    s_connecting s = true /\ s_destroyed s = false)
    as (s & Hs & Hcon & Hd)
    by (eexists; split; [vm_compute; reflexivity | split; reflexivity]).
  assert (exists c, commands (advance 5000 st) !! 0 = Some c /\
                    c_awaiting c = Some 0 /\ c_command c = js "GET_STATUS" /\
                    c_delimiter c = [LF] /\ c_encoding c = js "utf8")
    as (c & Hc & Ha & H1 & H2 & H3)
    by (eexists; split; [vm_compute; reflexivity | repeat split; reflexivity]).
  destruct (the_connect_callback_resumes_the_awaiting_commands
              (advance 5000 st) 0 s 0 c) as (_ & Hw & _);
    [ | exact Hs | exact Hcon | exact Hd | exact Hc | exact Ha
      | by rewrite H3 | by rewrite H1, H2, H3 in Hw].
  exists [(0%Z, Call (js "localhost") 8080 (js "GET_STATUS") no_options);
          (5000%Z, Stop)].
  vm_compute. reflexivity.
Defined.

(** X14.  When a socket fails while it connects, every pending command
    that awaits it is rejected by the [catch] block, with the error of
    the failed connection: the host and the port of the command and the
    message and the code of the error. *)
Theorem a_failed_connect_rejects_the_awaiting_commands st sid s e cid c :
  reachable st ->
  sockets st !! sid = Some s -> s_connecting s = true -> s_destroyed s = false ->
  commands st !! cid = Some c -> c_awaiting c = Some sid -> c_promise c = None ->
  promise cid (handle (Error sid e) st)
    = Some (RejConnect (c_host c) (c_port c) (e_message e) (e_code e)).
Proof.
  intros Hr Hs Hcon Hd Hc Ha Hp.
  destruct (reachable_wired _ Hr _ _ Hs) as [Hfirst Hpend].
  specialize (Hpend Hcon Hd).
  simpl. rewrite Hs, Hd. simpl. unfold emit. simpl.
  rewrite list_lookup_alter_eq, Hs. simpl.
  change (listeners_for EvError (sock_destroy s)) with (listeners_for EvError s).
  unfold listeners_for. destruct (s_listeners s) as [|a t]; [done|].
  injection Hfirst as ->. simpl.
  apply settled_stays_calls.
  unfold reject_acquire, promise_of. simpl.
  rewrite list_lookup_alter_eq, Hs. simpl. rewrite Hpend.
  unfold promise.
  rewrite (resume_at sid _ cid c
             (settle (RejConnect (c_host c) (c_port c) (e_message e) (e_code e))
                (clear_timeout (set_awaiting None c)))); try done.
  - simpl. unfold settle. simpl. by rewrite Hp.
  - intros j st1 Hne. by apply onCatch_other.
  - intros st1 Hc1. unfold onCatch. rewrite Hc1. simpl.
    rewrite list_lookup_alter_eq. simpl.
    by rewrite list_lookup_alter_eq, Hc1.
Qed.

Lemma a_failed_connect_rejects_the_awaiting_commands_witness :
  let st :=
    run init [(0%Z, Call (js "10.0.0.1") 9 (js "PING") no_options);
              (0%Z, Call (js "10.0.0.1") 9 (js "PONG") no_options)] in
  let e := mkError (js "connect ECONNREFUSED") (js "ECONNREFUSED") in
  promise 1 (handle (Error 1 e) st)
    = Some (RejConnect (js "10.0.0.1") 9 (js "connect ECONNREFUSED")
              (js "ECONNREFUSED")) /\
  promise 0 (handle (Error 1 e) st) = None.
Proof.
  intros st e. split; [|vm_compute; reflexivity].
  assert (exists s, sockets st !! 1 = Some s /\
                    s_connecting s = true /\ s_destroyed s = false)
    as (s & Hs & Hcon & Hd)
    by (eexists; split; [vm_compute; reflexivity | split; reflexivity]).
  assert (exists c, commands st !! 1 = Some c /\
                    c_awaiting c = Some 1 /\ c_promise c = None /\
                    c_host c = js "10.0.0.1" /\ c_port c = 9%Z)
    as (c & Hc & Ha & Hp & H1 & H2)
    by (eexists; split; [vm_compute; reflexivity | repeat split; reflexivity]).
  rewrite <- H1, <- H2.
  apply (a_failed_connect_rejects_the_awaiting_commands st 1 s e 1 c); try done.
  by eexists.
Defined.

(** ** The adapter and the test server *)

Lemma startsWith_refl d : startsWith d d = true.
Proof. induction d as [|a d IH]; simpl; [done|]. by rewrite N.eqb_refl. Qed.

Lemma includes_suffix x d : includes (x ++ d) d = true.
Proof.
  induction x as [|a x IH]; simpl.
  - destruct d; simpl; [done|]. by rewrite N.eqb_refl, startsWith_refl.
  - by rewrite IH, orb_true_r.
Qed.

Lemma trimStart_idem s : trimStart (trimStart s) = trimStart s.
Proof.
  induction s as [|c s IH]; simpl; [done|].
  destruct (is_ws c) eqn:E; [done|]. simpl. by rewrite E.
Qed.

Lemma trimEnd_idem s : trimEnd (trimEnd s) = trimEnd s.
Proof. unfold trimEnd. by rewrite rev_involutive, trimStart_idem. Qed.

Lemma trimEnd_app_keep x t : trimEnd t = t -> t <> [] -> trimEnd (x ++ t) = x ++ t.
Proof.
  intros Ht Hne. unfold trimEnd in *. rewrite rev_app_distr, trimStart_app.
  assert (trimStart (rev t) = rev t) as Hrt.
  { by rewrite <- Ht at 2; rewrite rev_involutive. }
  destruct (forallb is_ws (rev t)) eqn:Hw.
  - pose proof (trimStart_ws (rev t) [] Hw) as H1. rewrite app_nil_r in H1.
    simpl in H1. rewrite Hrt in H1.
    assert (t = []) by (by rewrite <- (rev_involutive t), H1). done.
  - by rewrite Hrt, rev_app_distr, !rev_involutive.
Qed.

(** X15.  The adapter against the test server of [src/test-client.js],
    for a command sent in utf8 with the line feed delimiter on a pooled
    socket, the text of the command and the time of the server being
    texts that UTF-8 carries as they are, every command made before
    having an encoding that the runtime knows, the command reaching the
    server in one piece and the answer coming in one chunk: the server
    trims what it receives, so the delimiter does not
    reach its [switch]; its answer ends with a line feed, so the promise
    of the command is resolved by it, with the answer trimmed: the
    status, the greeting or the time for the three commands the server
    knows, and for any other command the echo of the trimmed command
    after the prefix, which loses its last blank when the command is
    blank. *)
Theorem the_test_server_answers_every_command
    st host port text opts sid s isoTime :
  reachable st ->
  JSMap.get (key_of host port) (connections st) = Some sid ->
  sockets st !! sid = Some s -> s_connecting s = false -> s_destroyed s = false ->
  or_str (o_delimiter opts) [LF] = [LF] ->
  or_str (o_encoding opts) (js "utf8") = js "utf8" ->
  no_surrogate text -> no_surrogate isoTime -> encodings_known st ->
  let cid := length (commands st) in
  let st1 := handle (Call host port text opts) st in
  let reply := test_server_response isoTime (text ++ [LF]) in
  promise cid (handle (Data sid reply) st1) = Some (Resolved (trim reply)) /\
  (trim text = js "GET_STATUS" -> trim reply = js "STATUS_OK") /\
  (trim text = js "HELLO_WORLD" -> trim reply = js "HELLO_RESPONSE") /\
  (trim text = js "GET_TIME" -> trim reply = trim isoTime) /\
  (trim text <> js "GET_STATUS" -> trim text <> js "HELLO_WORLD" ->
   trim text <> js "GET_TIME" -> trim text <> [] ->
   trim reply = js "Wa: " ++ trim text) /\
  (trim text = [] -> trim reply = js "Wa:").
Proof.
  intros Hr Hget Hs Hcon Hd Hdel _ _ _ _ cid st1 reply.
  assert (trim (text ++ [LF]) = trim text) as Htrim by by apply trim_ws_suffix.
  split.
  - destruct (reachable_inv _ Hr) as [Hinv _].
    assert (sock_is_destroyed sid st = false) as Hd'
      by (unfold sock_is_destroyed; by rewrite Hs).
    assert (inv st1) as Hinv1 by by apply inv_handle.
    assert (attached st1) as Hatt1
      by (apply attached_handle; [done | by apply reachable_attached]).
    pose proof (sendTCPCommand_pooled st host port text opts sid Hget Hd') as Hsend.
    cbv zeta in Hsend. fold cid in Hsend.
    set (c := fresh_command host port text opts st) in *.
    assert (includes reply [LF] = true) as Hinc.
    { unfold reply, test_server_response. cbv zeta.
      repeat case_bool_decide;
        rewrite ?app_assoc; first [apply includes_suffix | reflexivity]. }
    apply (data_resolves st1 sid
             (sock_write (text ++ c_delimiter c) (c_encoding c)
                (sock_on EvError (OnError cid) (sock_on EvData (OnData cid) s)))
             reply cid (set_socket (Some sid) c)).
    + exact Hinv1.
    + exact Hatt1.
    + unfold st1. simpl. rewrite Hsend. simpl.
      rewrite !list_lookup_alter_eq, Hs. reflexivity.
    + exact Hcon.
    + exact Hd.
    + unfold st1. simpl handle. rewrite Hsend. cbn [snd].
      change (alter (set_socket (Some sid)) (length (commands st))
                (commands st ++ [c]) !! length (commands st)
              = Some (set_socket (Some sid) c)).
      rewrite alter_last, lookup_app_r by done. by rewrite Nat.sub_diag.
    + reflexivity.
    + reflexivity.
    + simpl. by rewrite Hdel.
  - unfold reply, test_server_response. cbv zeta. rewrite Htrim.
    repeat split.
    + intros ->. reflexivity.
    + intros ->. reflexivity.
    + intros ->. simpl. by apply trim_ws_suffix.
    + intros H1 H2 H3 H4. rewrite !bool_decide_eq_false_2 by done.
      rewrite app_assoc, trim_ws_suffix by done.
      unfold trim at 1. change (trimStart (js "Wa: " ++ trim text))
        with (js "Wa: " ++ trim text).
      apply trimEnd_app_keep; [|done]. apply trimEnd_idem.
    + intros ->. reflexivity.
Qed.

Lemma the_test_server_answers_every_command_witness :
  let st :=
    run init [(0%Z, Call (js "localhost") 8080 (js "GET_STATUS") no_options);
              (1%Z, Connect 0);
              (2%Z, Data 0 (js "STATUS_OK" ++ [LF]))] in
  let st1 := handle (Call (js "localhost") 8080 (js " uptime ") no_options) st in
  promise 1 (handle (Data 0 (js "Wa: uptime" ++ [LF])) st1)
    = Some (Resolved (js "Wa: uptime")).
Proof.
  intros st st1.
  assert (exists s, sockets st !! 0 = Some s /\ s_connecting s = false /\
                    s_destroyed s = false) as (s & Hs & Hcon & Hd)
    by (eexists; split; [vm_compute; reflexivity | split; reflexivity]).
  assert (reachable st) as Hr by by eexists.
  assert (trim (js " uptime ") = js "uptime") as Ht by reflexivity.
  assert (no_surrogate (js " uptime ")) as Htext
    by (repeat constructor; left; reflexivity).
  assert (encodings_known st) as Henc.
  { intros [|j] c; vm_compute; [intros [= <-]; reflexivity | discriminate]. }
  destruct (the_test_server_answers_every_command st (js "localhost") 8080
              (js " uptime ") no_options 0 s [] Hr eq_refl Hs Hcon Hd eq_refl
              eq_refl Htext (Forall_nil_2 _) Henc)
    as (H1 & _ & _ & _ & H5 & _).
  rewrite H5 in H1 by (by rewrite Ht).
  rewrite Ht in H1. exact H1.
Defined.

(** ** An event of a socket and the rest of the adapter *)

Lemma In_remove_first_inv x y l : In x (remove_first y l) -> In x l.
Proof.
  induction l as [|a l IH]; simpl; [done|].
  case_bool_decide; simpl; intuition.
Qed.

Lemma adds_no_listener_remove ev l : adds_no_listener (sock_removeListener ev l).
Proof.
  intros s x. simpl. intros Hin%in_rev%In_remove_first_inv. by apply in_rev.
Qed.




















Lemma afterConnection_sockets j i st k :
  k <> i -> sockets (afterConnection j i st) !! k = sockets st !! k.
Proof.
  intros Hne. unfold afterConnection. repeat case_match; try done;
    simpl; by rewrite !list_lookup_alter_ne by done.
Qed.








Lemma apart_from_connections i m st0 st :
  apart_from i st0 st -> apart_from i st0 (set_connections m st).
Proof. by intros [A1 A2 A3]. Qed.





(** ** The sockets that no pending command holds *)

Lemma armed_upd_cmd cid f st :
  keeps_armed f -> armed_pending st -> armed_pending (upd_cmd cid f st).
Proof.
  intros Hf H j c d. simpl. rewrite list_lookup_alter.
  destruct (decide (cid = j)) as [->|Hne]; [|apply H].
  destruct (commands st !! j) as [c0|] eqn:E; simpl; [|done].
  intros [= <-] Ht. destruct (Hf c0 d Ht) as [H1 ->]. by apply (H j c0 d).
Qed.

Lemma keeps_armed_cleared o f : keeps_armed (settle o ∘ clear_timeout ∘ f).
Proof.
  intros c d. unfold compose.
  destruct (settle_fields o (clear_timeout (f c))) as (_ & _ & _ & _ & -> & _).
  simpl. by destruct (c_timeoutId (f c)).
Qed.

Lemma keeps_armed_fired o : keeps_armed (settle o ∘ set_timeoutId Fired).
Proof.
  intros c d. unfold compose.
  by destruct (settle_fields o (set_timeoutId Fired c)) as (_ & _ & _ & _ & -> & _).
Qed.

Lemma armed_on_socket c g st : armed_pending st -> armed_pending (on_socket c g st).
Proof. intros H. unfold on_socket. by destruct (c_socket c). Qed.

Lemma armed_onData cid chunk st : armed_pending st -> armed_pending (onData cid chunk st).
Proof.
  intros H. unfold onData. destruct (commands st !! cid) as [c|]; [|done].
  case_match.
  - rewrite !upd_cmd_on_socket, !upd_cmd_upd_cmd.
    do 2 apply armed_on_socket. apply armed_upd_cmd; [|done].
    apply keeps_armed_cleared.
  - apply armed_upd_cmd; [|done]. by intros c0 d.
Qed.

Lemma armed_onError cid e st : armed_pending st -> armed_pending (onError cid e st).
Proof.
  intros H. unfold onError. destruct (commands st !! cid) as [c|]; [|done].
  rewrite !upd_cmd_on_socket, !upd_cmd_upd_cmd.
  apply armed_on_socket. apply armed_upd_cmd; [|done].
  apply (keeps_armed_cleared _ id).
Qed.

Lemma armed_onGrace cid st : armed_pending st -> armed_pending (onGrace cid st).
Proof.
  intros H. unfold onGrace. destruct (commands st !! cid) as [c|]; [|done].
  rewrite !upd_cmd_on_socket, !upd_cmd_upd_cmd.
  do 2 apply armed_on_socket. apply armed_upd_cmd; [|done].
  apply (keeps_armed_cleared _ id).
Qed.

Lemma armed_onCatch cid e st : armed_pending st -> armed_pending (onCatch cid e st).
Proof.
  intros H. unfold onCatch. destruct (commands st !! cid) as [c|]; [|done].
  rewrite !upd_cmd_upd_cmd. apply armed_upd_cmd; [|done].
  apply (keeps_armed_cleared _ id).
Qed.

Lemma armed_fire r st : armed_pending st -> armed_pending (fire r st).
Proof.
  intros H. unfold fire. destruct (timer_of r st); try done. destruct r.
  - unfold onTimeout. simpl.
    destruct (alter (set_timeoutId Fired) cid (commands st) !! cid) as [c|];
      [|by apply armed_upd_cmd; [intros c0 d|]].
    assert (forall st1, commands st1 = commands st ->
              armed_pending
                (upd_cmd cid
                   (settle (RejTimeout (c_timeout c) (c_host c) (c_port c)))
                   (set_commands (alter (set_timeoutId Fired) cid (commands st1))
                      st1))) as Hstep.
    { intros st1 Hst1.
      change (armed_pending
                (upd_cmd cid
                   (settle (RejTimeout (c_timeout c) (c_host c) (c_port c)))
                   (upd_cmd cid (set_timeoutId Fired) st1))).
      rewrite upd_cmd_upd_cmd. apply armed_upd_cmd; [apply keeps_armed_fired|].
      intros j c0 d. rewrite Hst1. apply H. }
    repeat case_match; first [by apply (Hstep st) | by apply (Hstep (upd_sock _ _ st))].
  - apply armed_onGrace, armed_upd_cmd; [by intros c0 d | done].
Qed.

Ltac armed :=
  first
    [ assumption
    | exact armed_upd_cmd
    | by (intros; intros ? ?; simpl; auto)
    | done ].

Lemma armed_call sid p l st : armed_pending st -> armed_pending (call sid p l st).
Proof.
  intros H. unfold call. destruct l, p; try done.
  - unfold reject_acquire. repeat case_match; try done.
    apply (kept_resume armed_pending keeps_armed); try armed.
    intros j st1. apply armed_onCatch.
  - by case_match.
  - by case_match.
  - by case_match.
  - by apply armed_onData.
  - by apply armed_onError.
Qed.

Lemma armed_emit sid ev p st : armed_pending st -> armed_pending (emit sid ev p st).
Proof.
  intros H. unfold emit. case_match; [|done].
  apply fold_left_keeps; [|done]. intros. by apply armed_call.
Qed.

Lemma armed_handle e st : armed_pending st -> armed_pending (handle e st).
Proof.
  intros H. destruct e.
  - apply (kept_sendTCPCommand armed_pending keeps_armed (fun _ => True));
      try armed.
    intros host0 port0 text opts0 st1 H1 j c d. simpl.
    intros [Hl | [_ Hl]]%lookup_app_Some; [by apply (H1 j)|].
    by apply list_lookup_singleton_Some in Hl as [_ <-].
  - apply (kept_connect armed_pending keeps_armed (fun _ => True)); armed.
  - simpl. repeat case_match; try done. by apply armed_emit.
  - simpl. repeat case_match; try done. by apply armed_emit.
  - simpl. repeat case_match; try done. by apply armed_emit.
  - apply (kept_closeAll armed_pending (fun _ => True)); armed.
Qed.

Lemma armed_advance T st : armed_pending st -> armed_pending (advance T st).
Proof.
  intros H. unfold advance.
  apply (fold_left_keeps armed_pending (fun x => fire (snd x))); [|done].
  intros. by apply armed_fire.
Qed.

Lemma reachable_armed st : reachable st -> armed_pending st.
Proof.
  intros [tr ->]. assert (armed_pending init) as H by by intros j c d.
  revert H. generalize init. induction tr as [|[t e] tr IH]; simpl; [done|].
  intros st H. by apply IH, armed_handle, armed_advance.
Qed.

Lemma fire_timeout_sockets j st k :
  (forall c d, commands st !! j = Some c -> c_timeoutId c = Armed d ->
               c_socket c <> Some k) ->
  sockets (fire (TTimeout j) st) !! k = sockets st !! k.
Proof.
  intros Hj. unfold fire. simpl.
  destruct (commands st !! j) as [c|] eqn:E; simpl; [|done].
  destruct (c_timeoutId c) as [|d| |] eqn:Et; try done.
  specialize (Hj c d eq_refl Et).
  unfold onTimeout. simpl. rewrite list_lookup_alter_eq, E. simpl.
  destruct (c_socket c) as [i|]; [|done].
  case_match; [|done]. simpl. rewrite list_lookup_alter_ne; [done|]. congruence.
Qed.

(** X17.  The pool has no idle timeout: a socket that no pending command
    holds is left as it is by the passing of time, whatever timers fire,
    for a timer is armed for a pending command only and its callback
    destroys the socket of its own command; and a call for another key
    leaves the socket as it is too. *)
Theorem time_leaves_an_idle_socket st sid s :
  reachable st ->
  sockets st !! sid = Some s ->
  (forall j c, commands st !! j = Some c -> c_socket c = Some sid ->
               c_promise c <> None) ->
  (forall T, sockets (advance T st) !! sid = Some s) /\
  (forall host port text opts,
     key_of host port <> s_key s ->
     sockets (handle (Call host port text opts) st) !! sid = Some s).
Proof.
  intros Hr Hs Hidle. destruct (reachable_inv _ Hr) as [Hinv _].
  pose proof (reachable_armed _ Hr) as Harmed. split.
  - intros T. unfold advance.
    set (idle := fun st1 : state =>
      forall j c, commands st1 !! j = Some c -> c_socket c = Some sid ->
                  c_promise c <> None).
    set (okc := fun f : command -> command =>
      forall c, c_socket (f c) = c_socket c /\
                (c_promise c <> None -> c_promise (f c) <> None)).
    assert (forall cid f st1, okc f -> idle st1 -> idle (upd_cmd cid f st1))
      as K1.
    { intros cid f st1 Hf H1 j c. simpl. rewrite list_lookup_alter.
      destruct (decide (cid = j)) as [->|Hne]; [|apply H1].
      destruct (commands st1 !! j) as [c0|] eqn:E; simpl; [|done].
      intros [= <-] Hsock. destruct (Hf c0) as [F1 F2].
      apply F2, (H1 j c0 E). congruence. }
    assert (forall o, okc (settle o)) as Ks.
    { intros o c. unfold settle. destruct (c_promise c) eqn:E; simpl; [|done].
      by rewrite E. }
    apply (fold_left_keeps
             (fun st1 => inv st1 /\ armed_pending st1 /\ idle st1 /\
                         sockets st1 !! sid = Some s)
             (fun x => fire (snd x)));
      [|split; [by apply inv_set_now|]; split; [exact Harmed|];
        split; [exact Hidle | exact Hs]].
    intros [d r] st1 (I1 & I2 & I3 & I4). simpl.
    split; [by apply inv_fire|]. split; [by apply armed_fire|]. split.
    + apply (kept_fire idle okc (fun _ => True)); try done.
    + destruct r as [j|j].
      * rewrite fire_timeout_sockets; [done|]. intros c d0 Hc Et Hsock.
        by apply (I3 j c Hc Hsock), (I2 j c d0).
      * unfold fire. simpl.
        destruct (commands st1 !! j) as [c|] eqn:E; simpl; [|done].
        by rewrite (ok_grace _ (inv_cmds _ I1 _ _ E)).
  - intros host port text opts Hkey. simpl. unfold sendTCPCommand.
    set (c := mkCommand _ _ _ _ _ _ _ _ _ _ _ _).
    set (st1 := set_commands (commands st ++ [c]) st).
    pose proof (getConnection_spec host port st1) as Hg.
    destruct (getConnection host port st1) as [[i|i] st2]; cbn [snd].
    + destruct Hg as (-> & Hget & _). rewrite afterConnection_sockets; [done|].
      intros <-. apply JSMapFacts.get_In in Hget.
      destruct (inv_pool _ Hinv _ _ Hget) as (s' & Hs' & Hk & _). congruence.
    + destruct Hg as (_ & _ & m & _ & ->). simpl.
      by rewrite (lookup_app_l_Some _ _ _ _ Hs).
Qed.

Lemma time_leaves_an_idle_socket_witness :
  let st :=
    run init [(0%Z, Call (js "localhost") 8080 (js "GET_STATUS") no_options);
              (1%Z, Connect 0);
              (2%Z, Data 0 (js "STATUS_OK" ++ [LF]))] in
  promise 0 st = Some (Resolved (js "STATUS_OK")) /\
  listKeys (advance 86400000 st) = [js "localhost:8080"] /\
  sock_is_destroyed 0 (advance 86400000 st) = false.
Proof.
  intros st. split; [vm_compute; reflexivity|]. split; [vm_compute; reflexivity|].
  assert (exists s, sockets st !! 0 = Some s /\ s_destroyed s = false)
    as (s & Hs & Hd) by (eexists; split; [vm_compute; reflexivity | reflexivity]).
  destruct (time_leaves_an_idle_socket st 0 s) as [Htime _].
  - by eexists.
  - exact Hs.
  - intros [|j] c; vm_compute; [intros [= <-] _; discriminate | discriminate].
  - unfold sock_is_destroyed. by rewrite Htime.
Defined.

(** ** Timeouts out of the range of a timer *)

(** X18.  A timeout that a timer cannot take, negative or above 2^31-1,
    is taken as it is by [options.timeout || this.timeout] and given to
    [setTimeout], which runs the callback after 1 ms: the command of a
    call that the runtime takes is rejected with the timeout error, which
    quotes the timeout of the call, as soon as the clock has moved by
    1 ms, unless an event settles it before. *)
Theorem a_timeout_out_of_range_fires_after_1ms st host port text opts t T :
  reachable st ->
  valid_port port ->
  known_encoding (or_str (o_encoding opts) (js "utf8")) = true ->
  o_timeout opts = Some t -> (t < 0 \/ 2147483647 < t)%Z ->
  (now st + 1 <= T)%Z ->
  promise (length (commands st)) (advance T (handle (Call host port text opts) st))
    = Some (RejTimeout t host port).
Proof.
  intros [Hinv _]%reachable_inv _ _ Hopt Ht HT.
  destruct (sendTCPCommand_new_command host port text opts st)
    as (c & Hc & Hp & Hd & Hto & Hh & Hpo).
  assert (or_num (o_timeout opts) (adapter_timeout st) = t) as Hnum.
  { rewrite Hopt. simpl. destruct (t =? 0)%Z eqn:E; [|done].
    apply Z.eqb_eq in E. lia. }
  rewrite Hnum in Hd, Hto.
  assert (timer_delay t = 1%Z) as Hdelay.
  { unfold timer_delay. destruct Ht as [Ht | Ht].
    - assert ((t <? 1)%Z = true) as -> by (apply Z.ltb_lt; lia). done.
    - assert ((2147483647 <? t)%Z = true) as -> by (by apply Z.ltb_lt).
      by rewrite orb_true_r. }
  rewrite Hdelay in Hd.
  destruct (advance_times_out (length (commands st)) c (now st + 1) T
              (handle (Call host port text opts) st))
    as (c' & Hc' & Hp' & _); try done.
  - by apply inv_handle.
  - unfold promise. rewrite Hc'. simpl. by rewrite Hp', Hto, Hh, Hpo.
Qed.

Lemma a_timeout_out_of_range_fires_after_1ms_witness :
  promise 0
    (advance 1
       (handle (Call (js "localhost") 8080 (js "GET_STATUS")
                  (mkOptions (Some 4294967296%Z) None None)) init))
    = Some (RejTimeout 4294967296 (js "localhost") 8080).
Proof.
  apply (a_timeout_out_of_range_fires_after_1ms init (js "localhost") 8080
           (js "GET_STATUS") (mkOptions (Some 4294967296%Z) None None)
           4294967296 1).
  - by exists [].
  - unfold valid_port. lia.
  - reflexivity.
  - reflexivity.
  - right. lia.
  - simpl. lia.
Defined.

(** * The entry of a key and the outcome of a command *)

(** ** The events that a listener is registered for *)

Lemma kinds_upd_sock i g st :
  adds_no_listener g -> kinds st -> kinds (upd_sock i g st).
Proof.
  intros Hg H k s ev l. simpl. rewrite list_lookup_alter.
  destruct (decide (i = k)) as [->|Hne]; [|apply H].
  destruct (sockets st !! k) as [s0|] eqn:E; simpl; [|done].
  intros [= <-] Hin%Hg. by apply (H k s0).
Qed.

Lemma kinds_on i l st :
  kinds st -> kinds (upd_sock i (sock_on (listener_event l) l) st).
Proof.
  intros H k s ev l'. simpl. rewrite list_lookup_alter.
  destruct (decide (i = k)) as [->|Hne]; [|apply H].
  destruct (sockets st !! k) as [s0|] eqn:E; simpl; [|done].
  intros [= <-]. simpl. rewrite in_app_iff. simpl.
  intros [Hin | [[= <- <-] | []]]; [by apply (H k s0) | done].
Qed.

Lemma kinds_new_socket key st :
  kinds st -> kinds (set_sockets (sockets st ++ [new_socket key]) st).
Proof.
  intros H i s ev l. simpl.
  intros [Hl | [_ Hl]]%lookup_app_Some; [by apply (H i)|].
  apply list_lookup_singleton_Some in Hl as [_ <-]. simpl.
  by intros [[= <- <-] | [[= <- <-] | []]].
Qed.

Lemma kinds_afterConnection cid sid st :
  kinds st -> kinds (afterConnection cid sid st).
Proof.
  intros H. unfold afterConnection.
  destruct (commands st !! cid) as [c|]; [|done].
  set (w := sock_write _ _).
  assert (kinds
            (upd_sock sid w
               (upd_sock sid (sock_on EvError (OnError cid))
                  (upd_sock sid (sock_on EvData (OnData cid))
                     (upd_cmd cid (set_socket (Some sid)) st))))) as H4.
  { apply kinds_upd_sock; [by intros s x|].
    apply (kinds_on sid (OnError cid)), (kinds_on sid (OnData cid)). exact H. }
  case_match; exact H4.
Qed.

Ltac kin :=
  first
    [ assumption
    | exact kinds_upd_sock
    | exact adds_no_listener_remove
    | by (intros; apply adds_no_listener_remove)
    | by (intros; intros ? ?; simpl; auto)
    | by (intros; assumption)
    | done ].

Lemma kinds_resolve_acquire sid st :
  kinds st -> kinds (resolve_acquire sid st).
Proof.
  intros H. unfold resolve_acquire. repeat case_match; try done.
  unfold resume. apply fold_left_keeps; [|apply kinds_upd_sock; kin].
  intros cid st1 Hst1. unfold resume_one. repeat case_match; try done.
  apply kinds_afterConnection. exact Hst1.
Qed.

Lemma kinds_sendTCPCommand host port text opts st :
  kinds st -> kinds (snd (sendTCPCommand host port text opts st)).
Proof.
  intros H. unfold sendTCPCommand.
  set (c := mkCommand _ _ _ _ _ _ _ _ _ _ _ _).
  set (st1 := set_commands (commands st ++ [c]) st).
  pose proof (getConnection_spec host port st1) as Hg.
  destruct (getConnection host port st1) as [[sid|sid] st2]; cbn [snd].
  - destruct Hg as (-> & _). by apply kinds_afterConnection.
  - destruct Hg as (_ & _ & m & _ & ->).
    exact (kinds_new_socket (key_of host port) st H).
Qed.

Lemma kinds_handle e st : kinds st -> kinds (handle e st).
Proof.
  intros H. destruct e.
  - by apply kinds_sendTCPCommand.
  - simpl. repeat case_match; try done.
    apply kinds_resolve_acquire.
    exact (kinds_upd_sock sid sock_connected st ltac:(by intros ? ?) H).
  - apply (kept_data kinds (fun _ => True) adds_no_listener); kin.
  - apply (kept_error kinds (fun _ => True) adds_no_listener); kin.
  - apply (kept_close kinds adds_no_listener); kin.
  - apply (kept_closeAll kinds adds_no_listener); kin.
Qed.

Lemma kinds_advance T st : kinds st -> kinds (advance T st).
Proof.
  intros H. apply (kept_advance kinds (fun _ => True) adds_no_listener); kin.
Qed.

Lemma reachable_kinds st : reachable st -> kinds st.
Proof.
  intros [tr ->]. assert (kinds init) as H by done.
  revert H. generalize init. induction tr as [|[t e] tr IH]; simpl; [done|].
  intros st H. by apply IH, kinds_handle, kinds_advance.
Qed.

(** ** The entry of a key over the events *)

Lemma get_delete_ne {V} k k' (m : list (jsstring * V)) :
  k' <> k -> JSMap.get k (JSMap.delete k' m) = JSMap.get k m.
Proof.
  intros Hne. induction m as [|[k1 v1] m IH]; simpl; [done|].
  destruct (decide (k1 = k')) as [->|Hk].
  - rewrite bool_decide_eq_true_2 by done.
    by rewrite (bool_decide_eq_false_2 (k' = k)).
  - rewrite (bool_decide_eq_false_2 (k1 = k')) by done. simpl. by rewrite IH.
Qed.

Lemma get_set_ne {V} k k' (v : V) (m : list (jsstring * V)) :
  k' <> k -> JSMap.get k (JSMap.set k' v m) = JSMap.get k m.
Proof.
  intros Hne. induction m as [|[k1 v1] m IH]; simpl.
  - by rewrite bool_decide_eq_false_2.
  - destruct (decide (k1 = k')) as [->|Hk].
    + rewrite bool_decide_eq_true_2 by done. simpl.
      by rewrite (bool_decide_eq_false_2 (k' = k)).
    + rewrite (bool_decide_eq_false_2 (k1 = k')) by done. simpl. by rewrite IH.
Qed.

(** The handlers of a command and the timers leave the map alone. *)
Lemma connections_afterConnection m cid sid st :
  connections st = m -> connections (afterConnection cid sid st) = m.
Proof.
  intros H.
  by apply (kept_afterConnection (fun st1 => connections st1 = m)
              (fun _ => True) (fun _ => True)).
Qed.

Lemma connections_resolve_acquire m sid st :
  connections st = m -> connections (resolve_acquire sid st) = m.
Proof.
  intros H.
  by apply (kept_resolve_acquire (fun st1 => connections st1 = m)
              (fun _ => True) (fun _ => True)).
Qed.

Lemma connections_reject_acquire m sid e st :
  connections st = m -> connections (reject_acquire sid e st) = m.
Proof.
  intros H.
  by apply (kept_reject_acquire (fun st1 => connections st1 = m)
              (fun _ => True) (fun _ => True)).
Qed.

Lemma connections_onData m cid chunk st :
  connections st = m -> connections (onData cid chunk st) = m.
Proof.
  intros H.
  by apply (kept_onData (fun st1 => connections st1 = m)
              (fun _ => True) (fun _ => True)).
Qed.

Lemma connections_onError m cid e st :
  connections st = m -> connections (onError cid e st) = m.
Proof.
  intros H.
  by apply (kept_onError (fun st1 => connections st1 = m)
              (fun _ => True) (fun _ => True)).
Qed.

Lemma connections_advance m T st :
  connections st = m -> connections (advance T st) = m.
Proof.
  intros H.
  by apply (kept_advance (fun st1 => connections st1 = m)
              (fun _ => True) (fun _ => True)).
Qed.

Lemma calls_connections i p (L : list listener) st :
  (forall l, In l L -> l <> PoolClose) ->
  connections (fold_left (fun st l => call i p l st) L st) = connections st.
Proof.
  revert st. induction L as [|l L IH]; intros st HL; simpl; [done|].
  rewrite IH by (intros l' Hin; apply HL; by right).
  assert (l <> PoolClose) as Hl by (apply HL; by left).
  destruct l, p; simpl; try done.
  - by apply connections_reject_acquire.
  - by apply connections_onData.
  - by apply connections_onError.
Qed.

Lemma emit_data_connections i chunk st :
  kinds st -> connections (emit i EvData (PData chunk) st) = connections st.
Proof.
  intros Hk. unfold emit. destruct (sockets st !! i) as [s|] eqn:Es; [|done].
  apply calls_connections.
  intros l Hin%In_listeners_for ->. by pose proof (Hk i s _ _ Es Hin).
Qed.

Lemma emit_error_connections i e st :
  kinds st -> connections (emit i EvError (PError e) st) = connections st.
Proof.
  intros Hk. unfold emit. destruct (sockets st !! i) as [s|] eqn:Es; [|done].
  apply calls_connections.
  intros l Hin%In_listeners_for ->. by pose proof (Hk i s _ _ Es Hin).
Qed.

(** An event that spares the entry of a key, and that does not leave the
    socket of the entry destroyed, leaves the entry as it is. *)
Lemma handle_keeps_entry k sid e st :
  inv st -> kinds st ->
  JSMap.get k (connections st) = Some sid ->
  spares k sid e st ->
  sock_is_destroyed sid (handle e st) = false ->
  JSMap.get k (connections (handle e st)) = Some sid.
Proof.
  intros Hinv Hk Hget Hsp Hfin.
  assert (sock_is_destroyed sid st = false) as Hd.
  { destruct (sock_is_destroyed sid st) eqn:E; [|done].
    by rewrite (destroyed_evolves _ _ _ (evolves_handle e st) E) in Hfin. }
  destruct e as [host port text opts|i|i chunk|i err|i|].
  - simpl. unfold sendTCPCommand.
    set (c := mkCommand _ _ _ _ _ _ _ _ _ _ _ _).
    set (st1 := set_commands (commands st ++ [c]) st).
    pose proof (getConnection_spec host port st1) as Hg.
    destruct (getConnection host port st1) as [[j|j] st2]; cbn [snd].
    + destruct Hg as (-> & _).
      by rewrite (connections_afterConnection (connections st)).
    + destruct Hg as (_ & Hdead & m & Hm & ->). simpl.
      destruct Hm as [-> | ->]; [done|]. simpl.
      destruct (decide (key_of host port = k)) as [<-|Hne];
        [|by rewrite get_delete_ne].
      specialize (Hdead sid Hget). change (sock_is_destroyed sid st = true) in Hdead.
      congruence.
  - simpl. destruct (sockets st !! i) as [s|] eqn:Es; [|done].
    case_match; [|done].
    rewrite (connections_resolve_acquire
               (JSMap.set (s_key s) i (connections st))) by done.
    destruct Hsp as [-> | Hsp].
    + pose proof (JSMapFacts.get_In _ _ _ Hget) as Hin.
      destruct (inv_pool _ Hinv _ _ Hin) as (s' & Hs' & Hkey & _).
      rewrite Es in Hs'. injection Hs' as <-. rewrite Hkey. apply get_set_eq.
    + rewrite get_set_ne; [done|]. by apply Hsp.
  - simpl. destruct (sockets st !! i) as [s|] eqn:Es; [|done].
    case_match; [|done]. by rewrite emit_data_connections.
  - simpl. destruct (sockets st !! i) as [s|] eqn:Es; [|done].
    case_match; [|done].
    rewrite emit_error_connections; [done|].
    apply kinds_upd_sock; [by intros ? ?|done].
  - destruct (sockets st !! i) as [s|] eqn:Es; [|by simpl; rewrite Es].
    destruct (s_closed s) eqn:Ec; [by simpl; rewrite Es, Ec|].
    rewrite (close_deletes_key st i s) in * by done. simpl.
    destruct Hsp as [-> | Hsp].
    + unfold sock_is_destroyed in Hfin. simpl in Hfin.
      by rewrite list_lookup_alter_eq, Es in Hfin.
    + rewrite get_delete_ne; [done|]. by apply Hsp.
  - apply JSMapFacts.get_In in Hget.
    destruct (inv_pool _ Hinv _ _ Hget) as (s & Hs & _).
    assert (sock_is_destroyed sid (handle Stop st) = true); [|congruence].
    apply (closeAll_fold_destroys (JSMap.values (connections st)) sid st); [|eauto].
    apply in_map_iff. by exists (k, sid).
Qed.

Lemma undisturbed_keeps_entry k sid tr : forall st,
  inv st -> kinds st ->
  JSMap.get k (connections st) = Some sid ->
  undisturbed k sid st tr ->
  sock_is_destroyed sid (run st tr) = false ->
  JSMap.get k (connections (run st tr)) = Some sid.
Proof.
  induction tr as [|[t e] tr IH]; intros st Hinv Hk Hget Hu Hd; simpl in *; [done|].
  destruct Hu as [Hsp Hu].
  apply IH; [by apply inv_handle, inv_advance | by apply kinds_handle, kinds_advance
            | | done | done].
  apply handle_keeps_entry;
    [by apply inv_advance | by apply kinds_advance
    | by rewrite (connections_advance (connections st)) | done |].
  destruct (sock_is_destroyed sid (handle e (advance t st))) eqn:E; [|done].
  by rewrite (destroyed_evolves _ _ _ (evolves_run tr _) E) in Hd.
Qed.

(** C5, as the code has it.  When the map holds a socket for the key and
    that socket is not destroyed, [getConnection] returns that very socket
    and changes nothing, so a second call at once returns it again.  So
    does a call after any events and any lapse of time, provided that the
    socket is not destroyed by then (by an error, its close, the timeout
    of a command or [closeAll]) and that in between no other socket made
    for the same key got its connect callback or its close notification.
    And whenever [getConnection] makes a socket instead, the map held no
    socket for the key that was not destroyed. *)
Theorem acquire_returns_the_undisturbed_connection host port st sid :
  reachable st ->
  JSMap.get (key_of host port) (connections st) = Some sid ->
  sock_is_destroyed sid st = false ->
  getConnection host port st = (Existing sid, st) /\
  getConnection host port (snd (getConnection host port st)) = (Existing sid, st) /\
  (forall tr,
      undisturbed (key_of host port) sid st tr ->
      sock_is_destroyed sid (run st tr) = false ->
      getConnection host port (run st tr) = (Existing sid, run st tr)) /\
  (forall st0 sid' st',
      getConnection host port st0 = (Connecting sid', st') ->
      sid' = length (sockets st0) /\
      length (sockets st') = S (length (sockets st0)) /\
      forall sid0,
        JSMap.get (key_of host port) (connections st0) = Some sid0 ->
        sock_is_destroyed sid0 st0 = true).
Proof.
  intros Hreach Hget Hd.
  assert (forall st1, JSMap.get (key_of host port) (connections st1) = Some sid ->
            sock_is_destroyed sid st1 = false ->
            getConnection host port st1 = (Existing sid, st1)) as Hpooled.
  { intros st1 Hget1 Hd1. unfold getConnection.
    assert (JSMap.has (key_of host port) (connections st1) = true) as ->.
    { apply JSMapFacts.has_get. eauto. }
    by rewrite Hget1, Hd1. }
  split; [by apply Hpooled|]. split; [rewrite (Hpooled st Hget Hd); by apply Hpooled|]. split.
  - intros tr Hu Hfin. apply Hpooled; [|done].
    apply undisturbed_keeps_entry; try done.
    + apply (reachable_inv _ Hreach).
    + by apply reachable_kinds.
  - intros st0 sid' st' Hc.
    pose proof (getConnection_spec host port st0) as Hs. rewrite Hc in Hs.
    destruct Hs as (-> & Hnone & m & _ & ->). split; [done|]. split; [|done].
    simpl. rewrite length_app. simpl. lia.
Qed.

Lemma acquire_returns_the_undisturbed_connection_witness :
  let e := mkError (js "read ECONNRESET") (js "ECONNRESET") in
  let st := run init [(0%Z, Call (js "localhost") 8080 (js "GET_STATUS") no_options);
                      (1%Z, Connect 0);
                      (2%Z, Data 0 (js "STATUS_OK" ++ [LF]))] in
  let tr := [(3%Z, Call (js "localhost") 9090 (js "GET_TIME") no_options);
             (4%Z, Call (js "localhost") 8080 (js "GET_TIME") no_options);
             (5%Z, Connect 1);
             (6%Z, Data 0 (js "12:00" ++ [LF]));
             (7%Z, Error 1 e);
             (8%Z, Close 1)] in
  getConnection (js "localhost") 8080 st = (Existing 0, st) /\
  getConnection (js "localhost") 8080 (run st tr) = (Existing 0, run st tr).
Proof.
  intros e st tr.
  destruct (acquire_returns_the_undisturbed_connection (js "localhost") 8080 st 0)
    as (H1 & _ & H3 & _).
  - by exists [(0%Z, Call (js "localhost") 8080 (js "GET_STATUS") no_options);
               (1%Z, Connect 0);
               (2%Z, Data 0 (js "STATUS_OK" ++ [LF]))].
  - reflexivity.
  - reflexivity.
  - split; [exact H1|]. apply H3; [|reflexivity].
    vm_compute. repeat split; try (right; intros s [= <-]; discriminate).
Defined.

(** C5 as the spec has it fails when two sockets were made for the key:
    the close notification of the one that the map does not hold deletes
    the entry of the key, and the next call makes a third socket, although
    the socket of the entry has had no error and no close and is as it
    was. *)
Lemma close_of_a_sibling_evicts_the_open_connection :
  let st := run init [(0%Z, Call (js "localhost") 8080 (js "GET_STATUS") no_options);
                      (1%Z, Call (js "localhost") 8080 (js "GET_TIME") no_options);
                      (2%Z, Connect 0);
                      (3%Z, Connect 1)] in
  let st' := run st [(4%Z, Close 0)] in
  getConnection (js "localhost") 8080 st = (Existing 1, st) /\
  sockets st' !! 1 = sockets st !! 1 /\
  sock_is_destroyed 1 st' = false /\
  fst (getConnection (js "localhost") 8080 st') = Connecting 2.
Proof. vm_compute. repeat split; reflexivity. Qed.

(** ** How a promise got its outcome *)




















(** ** One outcome *)



